(** * Media-analysis pipeline of the Telegram bot: a shallow embedding

    The development follows the TypeScript sources of the pipeline behind
    the [/mediainfo] command:

    - [services/mediainfo-image.ts]: [formatBitrate], [formatDuration],
      [getLanguageFlag], [parseMediaInfo] (the result normalizer, on
      tracks typed as it reads them and, in [Raw], on tracks whose cast
      fields hold any scalar value), [escapeHtml],
      [formatMediaInfoStyledText], [generateMediaInfoImage];
    - [services/pastebin.ts]: [uploadToPastebin] and its four providers;
    - [services/mediainfo.ts]: [analyzeMediaBuffer] (the engine adapter)
      with its chunk reader, [formatDuration], [formatBitrate],
      [formatSampleRate];
    - [services/google-drive.ts]: [getAccessToken], [getFileMetadata],
      [downloadFileContent];
    - [commands/mediainfo.ts]: [isDirectUrl], [downloadFromUrl], the
      argument string of the command and the length discipline applied
      to the text reply;
    - [utils/helpers.ts]: [extractFileId], [escapeHtml], [truncate],
      [parseCommand], [getFileExtension], [chunkArray].

    Conventions of the embedding.

    - A JavaScript string is the list of its UTF-16 code units
      ([JS.jsstring]); [JS.lit] injects an ASCII literal.
    - A JavaScript number that holds a whole number below 2^53 in
      magnitude is a [Z]; comparison, remainder, exact quotient and sum
      of such numbers are those of [Z].  Where the code forms a quotient
      that need not be whole ([bps / 1000000], [width / height],
      [ms / 1000]) the quotient is taken in IEEE 754 binary64, through
      the operations of [SpecFloat] at precision 53 and maximal exponent
      1024.
    - A field that may be absent is an [option]; JavaScript truthiness
      is written out ([JS.truthy_num], [JS.truthy_str]).
    - Calls to the outside (HTTP, the analysis engine, the clock) are
      functions of an abstract world state, given as section variables;
      every call is recorded in a trace, so that the order and number of
      calls can be stated.
    - A thrown exception is the message it carries ([inl msg]).
    - A loop that need not end takes fuel, and [None] tells that the
      fuel ran out. *)

From Stdlib Require Import ZArith NArith List String Ascii Bool Lia.
From Stdlib Require Import SpecFloat.
From Equations Require Import Equations.
Import ListNotations.

Set Implicit Arguments.
Set Warnings "-notation-for-abbreviation".
Open Scope Z_scope.

(* ===================================================================== *)
(** * Part I: definitions *)
(* ===================================================================== *)

(** ** The JavaScript primitives the sources rely on *)

Module JS.

Definition jsstring := list N.

Definition lit (s : string) : jsstring :=
  map N_of_ascii (list_ascii_of_string s).

Fixpoint eqb (s t : jsstring) : bool :=
  match s, t with
  | [], [] => true
  | a :: s', b :: t' => N.eqb a b && eqb s' t'
  | _, _ => false
  end.

Definition length (s : jsstring) : Z := Z.of_nat (List.length s).

(** [ToBoolean] on strings, whole numbers and optional strings. *)
Definition truthy_str (s : jsstring) : bool :=
  match s with [] => false | _ :: _ => true end.

Definition truthy_num (n : Z) : bool := negb (n =? 0).

Definition truthy_opt_str (o : option jsstring) : bool :=
  match o with Some s => truthy_str s | None => false end.

(** [a || b] on an optional string and a string. *)
Definition or_str (o : option jsstring) (d : jsstring) : jsstring :=
  match o with
  | Some s => if truthy_str s then s else d
  | None => d
  end.

(** [a || b] where both sides may be absent. *)
Definition or_opt (o p : option jsstring) : option jsstring :=
  if truthy_opt_str o then o else p.

(** WhiteSpace and LineTerminator code points, as [String.prototype.trim]
    strips them. *)
Definition isWhiteSpace (c : N) : bool :=
  ((9 <=? c) && (c <=? 13) || (c =? 32) || (c =? 160) || (c =? 5760)
   || (8192 <=? c) && (c <=? 8202) || (c =? 8232) || (c =? 8233)
   || (c =? 8239) || (c =? 8287) || (c =? 12288) || (c =? 65279))%N.

Fixpoint trimStart (s : jsstring) : jsstring :=
  match s with
  | c :: r => if isWhiteSpace c then trimStart r else s
  | [] => []
  end.

Definition trimEnd (s : jsstring) : jsstring := rev (trimStart (rev s)).

Definition trim (s : jsstring) : jsstring := trimEnd (trimStart s).

Fixpoint startsWith (p s : jsstring) : bool :=
  match p, s with
  | [], _ => true
  | a :: p', b :: s' => N.eqb a b && startsWith p' s'
  | _ :: _, [] => false
  end.

Fixpoint includes (sub s : jsstring) : bool :=
  startsWith sub s
  || match s with
     | [] => false
     | _ :: r => includes sub r
     end.

(** [s.substring(from, to)]: both indices are clamped to [0, length] and
    swapped when out of order. *)
Definition clamp (s : jsstring) (i : Z) : nat :=
  Z.to_nat (Z.min (Z.max i 0) (length s)).

Definition substring (s : jsstring) (from to : Z) : jsstring :=
  let a := clamp s from in
  let b := clamp s to in
  firstn (Nat.max a b - Nat.min a b) (skipn (Nat.min a b) s).

Definition charAt0 (s : jsstring) : jsstring := firstn 1 s.

Definition slice1 (s : jsstring) : jsstring := skipn 1 s.

Fixpoint join (sep : jsstring) (l : list jsstring) : jsstring :=
  match l with
  | [] => []
  | [x] => x
  | x :: r => x ++ sep ++ join sep r
  end.

(** [String(n)] for a whole number below 2^53 in magnitude: its decimal
    digits, with a leading minus sign when negative. *)
Equations digits (n : Z) : jsstring by wf (Z.to_nat n) lt :=
  digits n with Z_lt_dec n 10 := {
    | left _ => [48 + Z.to_N n]%N
    | right _ => digits (n / 10) ++ [48 + Z.to_N (n mod 10)]%N }.
Next Obligation.
  assert (n / 10 < n) by (apply Z.div_lt; lia). lia.
Qed.

Definition dec (n : Z) : jsstring :=
  if n <? 0 then 45%N :: digits (- n) else digits n.

(** *** binary64 *)

Definition prec : Z := 53.
Definition emax : Z := 1024.

Definition number := spec_float.

(** The binary64 value of a whole number (exact below 2^53). *)
Definition of_Z (n : Z) : number := binary_normalize prec emax n 0 false.

Definition fdiv (x y : number) : number := SFdiv prec emax x y.
Definition fsub (x y : number) : number := SFsub prec emax x y.
Definition fabs (x : number) : number := SFabs x.
Definition flt (x y : number) : bool := SFltb x y.

(** The value of the decimal literal [m / 10^k] (as in [2.35 = 235/10^2]):
    literals are correctly rounded, and so is the quotient of two exactly
    represented whole numbers. *)
Definition decimal (m : Z) (k : nat) : number :=
  fdiv (of_Z m) (of_Z (10 ^ Z.of_nat k)).

(** [Math.round]: the whole number nearest to [x], ties towards
    +infinity.  The value of a finite [x] is [±m * 2^e].  (NaN and the
    infinities, which [Math.round] returns unchanged, do not arise from a
    quotient of two positive whole numbers; they are sent to 0 here.) *)
Definition Math_round (x : number) : Z :=
  match x with
  | S754_finite s m e =>
      let mz := if s then Z.neg m else Z.pos m in
      if 0 <=? e then mz * 2 ^ e
      else (2 * mz + 2 ^ (- e)) / 2 ^ (- e + 1)
  | _ => 0
  end.

(** [Math.floor]: the greatest whole number not above [x].  (NaN and
    the infinities, which [Math.floor] returns unchanged, do not arise
    from a quotient of two whole numbers with a divisor other than 0;
    they are sent to 0 here.) *)
Definition Math_floor (x : number) : Z :=
  match x with
  | S754_finite s m e =>
      let mz := if s then Z.neg m else Z.pos m in
      if 0 <=? e then mz * 2 ^ e else mz / 2 ^ (- e)
  | _ => 0
  end.

(** [Math.floor(a / b)] for whole numbers [a] and [b]: the quotient is
    taken in binary64 and then rounded down. *)
Definition floor_quotient (a b : Z) : Z := Math_floor (fdiv (of_Z a) (of_Z b)).

(** *** Printing a number *)

(** The decimal digits of a whole number [n >= 0], at most [fuel] of
    them. *)
Fixpoint decimal_digits (fuel : nat) (n : Z) : jsstring :=
  match fuel with
  | O => []
  | S f =>
      if n <? 10 then [48 + Z.to_N n]%N
      else decimal_digits f (n / 10) ++ [48 + Z.to_N (n mod 10)]%N
  end.

(** A binary64 value has at most 309 digits before the point. *)
Definition all_digits (n : Z) : jsstring := decimal_digits 400 n.

Fixpoint strip_zeros (reversed : jsstring) : jsstring :=
  match reversed with
  | 48%N :: r => strip_zeros r
  | _ => reversed
  end.

(** Whether the decimal [s * p] has the binary64 value of [X]. *)
Definition reads_as (X s p : Z) : bool := SFeqb (of_Z (s * p)) (of_Z X).

(** Among the two multiples of [p] around [X], one that reads as [X]:
    the nearer one when both do, the even one on a tie. *)
Definition candidate (X p : Z) : option Z :=
  let q := X / p in
  let r := X mod p in
  match reads_as X q p, reads_as X (q + 1) p with
  | true, true =>
      Some (if 2 * r <? p then q
            else if p <? 2 * r then q + 1
            else if Z.even q then q else q + 1)
  | true, false => Some q
  | false, true => Some (q + 1)
  | false, false => None
  end.

(** The shortest decimal [s * 10^(n-k)] that reads as [X]: the least
    [k >= 1] for which there is one (17 digits always suffice). *)
Fixpoint shortest (fuel : nat) (k n X : Z) : Z :=
  let p := 10 ^ (n - k) in
  match candidate X p, fuel with
  | Some s, _ => s * p
  | None, S f => shortest f (k + 1) n X
  | None, O => X
  end.

(** [Number::toString(x)] for a whole [x >= 10^21], given by its value
    [X]: the digits of the shortest decimal that reads as [x], a point
    after the first one when there are more, and the exponent, as in
    ["1e+21"] and ["1.2345e+30"]. *)
Definition Number_toString (X : Z) : jsstring :=
  let n := Z.of_nat (List.length (all_digits X)) in
  let ds := all_digits (shortest 16 1 n X) in
  let e := Z.of_nat (List.length ds) - 1 in
  let sig := rev (strip_zeros (rev ds)) in
  firstn 1 sig
  ++ (match skipn 1 sig with [] => [] | frac => lit "." ++ frac end)
  ++ lit "e+" ++ all_digits e.

(** [x.toFixed(f)].  For [|x| < 10^21] let [n] be the integer for which
    [n / 10^f - |x|] is closest to zero, the larger one on a tie; print
    [n] with a decimal point before its last [f] digits, padding with
    zeros on the left up to [f + 1] digits.  From 10^21 on the result is
    [String(x)], whatever [f]. *)
Definition toFixed_n (f : nat) (m : positive) (e : Z) : Z :=
  let p := 10 ^ Z.of_nat f in
  if 0 <=? e then Z.pos m * 2 ^ e * p
  else (2 * Z.pos m * p + 2 ^ (- e)) / 2 ^ (- e + 1).

Definition pad_zeros (f : nat) (ds : jsstring) : jsstring :=
  repeat 48%N (S f - List.length ds) ++ ds.

Definition point (f : nat) (n : Z) : jsstring :=
  match f with
  | O => dec n
  | S _ =>
      let ds := pad_zeros f (dec n) in
      let k := (List.length ds - f)%nat in
      firstn k ds ++ lit "." ++ skipn k ds
  end.

Definition toFixed (f : nat) (x : number) : jsstring :=
  match x with
  | S754_nan => lit "NaN"
  | S754_infinity s => if s then lit "-Infinity" else lit "Infinity"
  | S754_zero _ => point f 0
  | S754_finite s m e =>
      (if s then lit "-" else [])
      ++ (if (0 <=? e) && (10 ^ 21 <=? Z.pos m * 2 ^ e)
          then Number_toString (Z.pos m * 2 ^ e)
          else point f (toFixed_n f m e))
  end.

End JS.

Import JS.

(** ** The result normalizer ([services/mediainfo-image.ts]) *)

Module Normalizer.

(** A raw track as the engine's object output delivers it: [@type], the
    textual fields, and the numeric fields already coerced to numbers
    (whole numbers here).  [Default] is the string ['Yes'] / ['No'] or a
    boolean. *)
Record MediaInfoTrack := {
  type_ : jsstring;
  Format : option jsstring;
  Codec : option jsstring;
  CodecID : option jsstring;
  Language : option jsstring;
  Title : option jsstring;
  Format_Profile : option jsstring;
  Format_Commercial_IfAny : option jsstring;
  Default : option (jsstring + bool);
  FileSize : option Z;
  Duration : option Z;
  OverallBitRate : option Z;
  FrameRate : option Z;
  FrameCount : option Z;
  Width : option Z;
  Height : option Z;
  BitDepth : option Z;
  Channels : option Z;
  BitRate : option Z
}.

Record Media := { track : list MediaInfoTrack }.

Record MediaInfoResult := { media : option Media }.

Record General := {
  g_container : jsstring;
  g_size : jsstring;
  g_runtime : jsstring;
  g_bitrate : jsstring
}.

Record Video := {
  v_codec : jsstring;
  v_resolution : jsstring;
  v_aspectRatio : jsstring;
  v_frameRate : jsstring;
  v_frameCount : jsstring;
  v_bitrate : jsstring;
  v_bitDepth : jsstring
}.

Record Audio := {
  a_index : Z;
  a_language : jsstring;
  a_flag : jsstring;
  a_codec : jsstring;
  a_channels : jsstring;
  a_bitrate : jsstring;
  a_title : option jsstring;
  a_isDefault : bool
}.

Record Subtitle := {
  s_index : Z;
  s_format : jsstring;
  s_language : jsstring;
  s_flag : jsstring;
  s_title : option jsstring
}.

Record ParsedMediaInfo := {
  filename : jsstring;
  general : General;
  video : option Video;
  audio : list Audio;
  subtitles : list Subtitle
}.

(** [LANG_FLAGS]: a flag is the pair of regional-indicator symbols of a
    country code, each a surrogate pair. *)
Definition flag (cc : string) : jsstring :=
  flat_map (fun a => [55356; 56806 + (N_of_ascii a - 65)]%N)
           (list_ascii_of_string cc).

Definition white_flag : jsstring := [55356; 57331; 65039]%N.

Definition LANG_FLAGS : list (list string * string) :=
  [ (["en"; "eng"; "english"], "US");
    (["es"; "spa"; "spanish"], "ES");
    (["fr"; "fre"; "fra"; "french"], "FR");
    (["de"; "ger"; "deu"; "german"], "DE");
    (["it"; "ita"; "italian"], "IT");
    (["pt"; "por"; "portuguese"], "PT");
    (["ru"; "rus"; "russian"], "RU");
    (["ja"; "jpn"; "japanese"], "JP");
    (["ko"; "kor"; "korean"], "KR");
    (["zh"; "chi"; "zho"; "chinese"], "CN");
    (["ar"; "ara"; "arabic"], "SA");
    (["hi"; "hin"; "hindi"], "IN");
    (["nl"; "dut"; "nld"; "dutch"], "NL");
    (["pl"; "pol"; "polish"], "PL");
    (["tr"; "tur"; "turkish"], "TR");
    (["th"; "tha"; "thai"], "TH");
    (["vi"; "vie"; "vietnamese"], "VN");
    (["sv"; "swe"; "swedish"], "SE");
    (["da"; "dan"; "danish"], "DK");
    (["no"; "nor"; "norwegian"], "NO");
    (["fi"; "fin"; "finnish"], "FI");
    (["el"; "gre"; "ell"; "greek"], "GR");
    (["he"; "heb"; "hebrew"], "IL");
    (["cs"; "cze"; "ces"; "czech"], "CZ");
    (["hu"; "hun"; "hungarian"], "HU");
    (["ro"; "rum"; "ron"; "romanian"], "RO");
    (["bg"; "bul"; "bulgarian"], "BG");
    (["uk"; "ukr"; "ukrainian"], "UA");
    (["sk"; "slo"; "slk"; "slovak"], "SK");
    (["sl"; "slv"; "slovenian"], "SI");
    (["hr"; "hrv"; "croatian"], "HR");
    (["sr"; "srp"; "serbian"], "RS");
    (["id"; "ind"; "indonesian"], "ID");
    (["ms"; "may"; "msa"; "malay"], "MY");
    (["et"; "est"; "estonian"], "EE");
    (["lv"; "lav"; "latvian"], "LV");
    (["lt"; "lit"; "lithuanian"], "LT") ]%string.

(** [LANG_FLAGS[key]] (language tags that name a member of
    [Object.prototype] are not modelled). *)
Definition LANG_FLAGS_get (key : jsstring) : option jsstring :=
  match find (fun row => existsb (fun k => eqb (lit k) key) (fst row))
             LANG_FLAGS with
  | Some row => Some (flag (snd row))
  | None => None
  end.

(** [formatDuration(ms)]. *)
Definition formatDuration (ms : Z) : jsstring :=
  let totalSeconds := floor_quotient ms 1000 in
  let hours := floor_quotient totalSeconds 3600 in
  let minutes := floor_quotient (Z.rem totalSeconds 3600) 60 in
  let seconds := Z.rem totalSeconds 60 in
  if 0 <? hours
  then dec hours ++ lit " h " ++ dec minutes ++ lit " min"
  else dec minutes ++ lit " min " ++ dec seconds ++ lit " sec".

(** [formatBitrate(bps)]. *)
Definition formatBitrate (bps : Z) : jsstring :=
  if 1000000 <=? bps
  then toFixed 1 (fdiv (of_Z bps) (of_Z 1000000)) ++ lit " Mb/s"
  else if 1000 <=? bps
  then dec (Math_round (fdiv (of_Z bps) (of_Z 1000))) ++ lit " kb/s"
  else dec bps ++ lit " b/s".

(** The local [gcd] of the video case:
    [(a, b) => b === 0 ? a : gcd(b, a % b)]. *)
Equations gcd (a b : Z) : Z by wf (Z.abs_nat b) lt :=
  gcd a b with Z.eq_dec b 0 := {
    | left _ => a
    | right _ => gcd b (Z.rem a b) }.
Next Obligation.
  pose proof (Z.rem_bound_abs a b n). lia.
Qed.

(** [Math.abs(width / height - c) < 0.1], in binary64. *)
Definition within_tenth (width height : Z) (c : number) : bool :=
  flt (fabs (fsub (fdiv (of_Z width) (of_Z height)) c)) (decimal 1 1).

(** The aspect-ratio block of the video case. *)
Definition aspectRatioOf (width height : Z) : jsstring :=
  if truthy_num width && truthy_num height then
    let divisor := gcd width height in
    let ratioW := Z.quot width divisor in
    let ratioH := Z.quot height divisor in
    if (ratioW =? 16) && (ratioH =? 9) || (ratioW =? 64) && (ratioH =? 36)
    then lit "16:9"
    else if (ratioW =? 4) && (ratioH =? 3) || (ratioW =? 16) && (ratioH =? 12)
    then lit "4:3"
    else if (ratioW =? 21) && (ratioH =? 9)
    then lit "21:9"
    else if within_tenth width height (decimal 235 2)
    then lit "2.35:1"
    else if within_tenth width height (decimal 239 2)
    then lit "2.39:1"
    else if within_tenth width height (decimal 185 2)
    then lit "1.85:1"
    else if within_tenth width height (decimal 178 2)
    then lit "16:9"
    else dec ratioW ++ lit ":" ++ dec ratioH
  else lit "Unknown".

(** The channel label of the audio case. *)
Definition channelStrOf (channels : Z) : jsstring :=
  if channels =? 1 then lit "1ch"
  else if channels =? 2 then lit "2ch"
  else if channels =? 6 then lit "6ch"
  else if channels =? 8 then lit "8ch"
  else dec channels ++ lit "ch".

(** The codec label of the audio case. *)
Definition audioFormatOf (t : MediaInfoTrack) : jsstring :=
  let audioFormat := or_str (Format t) (lit "Unknown") in
  let formatProfile := Format_Profile t in
  let commercialName := Format_Commercial_IfAny t in
  match formatProfile with
  | Some profile =>
      if truthy_str profile then
        if eqb audioFormat (lit "MLP FBA") || includes (lit "TrueHD") audioFormat
        then
          lit "MLP FBA"
          ++ match commercialName with
             | Some name =>
                 if includes (lit "Atmos") name then lit " (Dolby Atmos)" else []
             | None => []
             end
        else if eqb audioFormat (lit "DTS") && includes (lit "MA") profile
        then lit "DTS-HD MA"
        else audioFormat
      else audioFormat
  | None => audioFormat
  end.

Definition isDefaultOf (t : MediaInfoTrack) : bool :=
  match Default t with
  | Some (inl s) => eqb s (lit "Yes")
  | Some (inr b) => b
  | None => false
  end.

Definition titleOf (t : MediaInfoTrack) : option jsstring :=
  match Title t with
  | Some s => if truthy_str s then Some s else None
  | None => None
  end.

Definition num_or (o : option Z) (d : Z) : Z :=
  match o with
  | Some n => if truthy_num n then n else d
  | None => d
  end.

Definition num_then (o : option Z) (f : Z -> jsstring) (d : jsstring) : jsstring :=
  match o with
  | Some n => if truthy_num n then f n else d
  | None => d
  end.

Definition initial (filename : jsstring) : ParsedMediaInfo :=
  {| filename := filename;
     general := {| g_container := lit "Unknown";
                   g_size := lit "Unknown";
                   g_runtime := lit "Unknown";
                   g_bitrate := lit "Unknown" |};
     video := None;
     audio := [];
     subtitles := [] |}.

Section Platform.

(** [String.prototype.toUpperCase] / [toLowerCase] follow the Unicode
    case mappings of the platform, and [formatFileSize] goes through
    [Math.log], which the platform only approximates; the three are
    parameters of the normalizer. *)
Variable toUpperCase toLowerCase : jsstring -> jsstring.
Variable formatFileSize : Z -> jsstring.

Definition getLanguageFlag (lang : jsstring) : jsstring :=
  if negb (truthy_str lang) then white_flag
  else
    let normalized := trim (toLowerCase lang) in
    match LANG_FLAGS_get normalized with
    | Some f => if truthy_str f then f else white_flag
    | None => white_flag
    end.

Definition capitalize (lang : jsstring) : jsstring :=
  toUpperCase (charAt0 lang) ++ slice1 lang.

Definition generalOf (g : General) (t : MediaInfoTrack) : General :=
  {| g_container := or_str (Format t) (lit "Unknown");
     g_size := num_then (FileSize t) formatFileSize (g_size g);
     g_runtime := num_then (Duration t) formatDuration (g_runtime g);
     g_bitrate := num_then (OverallBitRate t) formatBitrate (g_bitrate g) |}.

Definition videoOf (t : MediaInfoTrack) : Video :=
  let width := num_or (Width t) 0 in
  let height := num_or (Height t) 0 in
  let aspectRatio := aspectRatioOf width height in
  {| v_codec := or_str (or_opt (Format t) (Codec t)) (lit "Unknown");
     v_resolution :=
       if truthy_num width && truthy_num height
       then dec width ++ lit "x" ++ dec height
       else lit "Unknown";
     v_aspectRatio := aspectRatio;
     v_frameRate := num_then (FrameRate t) dec (lit "Unknown");
     v_frameCount := num_then (FrameCount t) dec (lit "Unknown");
     v_bitrate := num_then (BitRate t) formatBitrate (lit "Unknown");
     v_bitDepth :=
       num_then (BitDepth t) (fun d => dec d ++ lit " bits") (lit "8 bits") |}.

Definition audioOf (audioIndex : Z) (t : MediaInfoTrack) : Audio :=
  let lang := or_str (Language t) (lit "und") in
  let channels := num_or (Channels t) 2 in
  let channelStr := channelStrOf channels in
  let audioFormat := audioFormatOf t in
  {| a_index := audioIndex;
     a_language := capitalize lang;
     a_flag := getLanguageFlag lang;
     a_codec := audioFormat;
     a_channels := channelStr;
     a_bitrate := num_then (BitRate t) formatBitrate (lit "Variable");
     a_title := titleOf t;
     a_isDefault := isDefaultOf t |}.

Definition subtitleFormatOf (subFormat : jsstring) : jsstring :=
  let upper := toUpperCase subFormat in
  if includes (lit "UTF-8") upper then lit "UTF-8"
  else if includes (lit "ASS") upper then lit "ASS"
  else if includes (lit "SRT") upper then lit "SRT"
  else if includes (lit "PGS") upper then lit "PGS"
  else if includes (lit "VOBSUB") upper then lit "VobSub"
  else subFormat.

Definition subtitleOf (subtitleIndex : Z) (t : MediaInfoTrack) : Subtitle :=
  let subLang := or_str (Language t) (lit "und") in
  let subFormat := or_str (or_opt (Format t) (CodecID t)) (lit "Unknown") in
  {| s_index := subtitleIndex;
     s_format := subtitleFormatOf subFormat;
     s_language := capitalize subLang;
     s_flag := getLanguageFlag subLang;
     s_title := titleOf t |}.

(** The loop state: [parsed] together with the two running counters. *)
Record LoopState := {
  parsed : ParsedMediaInfo;
  audioIndex : Z;
  subtitleIndex : Z
}.

(** One iteration of [for (const track of result.media.track)]: the
    [switch] on [track['@type']]. *)
Definition visit (st : LoopState) (t : MediaInfoTrack) : LoopState :=
  let p := parsed st in
  let trackType := type_ t in
  if eqb trackType (lit "General") then
    {| parsed := {| filename := filename p;
                    general := generalOf (general p) t;
                    video := video p;
                    audio := audio p;
                    subtitles := subtitles p |};
       audioIndex := audioIndex st;
       subtitleIndex := subtitleIndex st |}
  else if eqb trackType (lit "Video") then
    {| parsed := {| filename := filename p;
                    general := general p;
                    video := Some (videoOf t);
                    audio := audio p;
                    subtitles := subtitles p |};
       audioIndex := audioIndex st;
       subtitleIndex := subtitleIndex st |}
  else if eqb trackType (lit "Audio") then
    {| parsed := {| filename := filename p;
                    general := general p;
                    video := video p;
                    audio := audio p ++ [audioOf (audioIndex st) t];
                    subtitles := subtitles p |};
       audioIndex := audioIndex st + 1;
       subtitleIndex := subtitleIndex st |}
  else if eqb trackType (lit "Text") then
    {| parsed := {| filename := filename p;
                    general := general p;
                    video := video p;
                    audio := audio p;
                    subtitles := subtitles p ++ [subtitleOf (subtitleIndex st) t] |};
       audioIndex := audioIndex st;
       subtitleIndex := subtitleIndex st + 1 |}
  else st.

Definition parseMediaInfo (result : MediaInfoResult) (filename : jsstring)
  : ParsedMediaInfo :=
  let parsed0 := initial filename in
  match media result with
  | None => parsed0
  | Some m =>
      parsed (fold_left visit (track m)
                {| parsed := parsed0; audioIndex := 0; subtitleIndex := 0 |})
  end.

End Platform.

(** The case mappings restricted to the ASCII letters, where every
    platform agrees; used to run the normalizer on concrete tracks. *)
Definition asciiUpper (s : jsstring) : jsstring :=
  map (fun c => if (97 <=? c) && (c <=? 122) then c - 32 else c)%N s.

Definition asciiLower (s : jsstring) : jsstring :=
  map (fun c => if (65 <=? c) && (c <=? 90) then c + 32 else c)%N s.

(** A track of the given type with every optional field absent. *)
Definition bare (ty : string) : MediaInfoTrack :=
  {| type_ := lit ty; Format := None; Codec := None; CodecID := None;
     Language := None; Title := None; Format_Profile := None;
     Format_Commercial_IfAny := None; Default := None; FileSize := None;
     Duration := None; OverallBitRate := None; FrameRate := None;
     FrameCount := None; Width := None; Height := None; BitDepth := None;
     Channels := None; BitRate := None |}.

End Normalizer.

(** ** Effects: results, state, traces *)

Module Eff.

(** The outcome of a call that may throw: [inl msg] is the thrown
    error's message, [inr a] the returned value. *)
Definition Result (A : Type) : Type := (jsstring + A)%type.

(** Computations over a state [S]. *)
Definition M (S A : Type) : Type := S -> A * S.

Definition ret {S A} (a : A) : M S A := fun s => (a, s).

Definition bind {S A B} (m : M S A) (k : A -> M S B) : M S B :=
  fun s => let (a, s') := m s in k a s'.

(** Computations that may throw. *)
Definition X (S A : Type) : Type := M S (Result A).

Definition xret {S A} (a : A) : X S A := ret (inr a).

Definition throw {S A} (msg : jsstring) : X S A := ret (inl msg).

Definition xbind {S A B} (m : X S A) (k : A -> X S B) : X S B :=
  bind m (fun r => match r with inl msg => ret (inl msg) | inr a => k a end).

(** [try { body } finally { fin }]: [fin] runs whatever [body] did; a
    throw of [fin] replaces the outcome of [body]. *)
Definition try_finally {S A} (body : X S A) (fin : X S unit) : X S A :=
  bind body (fun r =>
  bind fin (fun f =>
  match f with
  | inl msg => ret (inl msg)
  | inr _ => ret r
  end)).

(** [try { body } catch (err) { handler(err.message) }]. *)
Definition try_catch {S A} (body : X S A) (handler : jsstring -> M S A) : M S A :=
  bind body (fun r => match r with inl msg => handler msg | inr a => ret a end).

End Eff.

Import Eff.

Declare Scope eff_scope.
Delimit Scope eff_scope with eff.
Notation "x <- m ;; k" := (bind m (fun x => k))
  (at level 61, m at next level, right associativity) : eff_scope.
Notation "x <-? m ;; k" := (xbind m (fun x => k))
  (at level 61, m at next level, right associativity) : eff_scope.

(** ** The normalizer on fields of any value ([services/mediainfo-image.ts]) *)

Module Raw.

Import Normalizer Eff.

(** A value of a field that the declaration of the raw track leaves
    open ([[key: string]: unknown]).  The object output of the engine is
    JSON, and these are its scalar values. *)
Inductive Unknown :=
| Undefined
| Null
| Boolean (b : bool)
| Number (n : Z)
| String (s : jsstring).

(** A raw track as it reaches the normalizer.  Every field but two is
    passed through [String], [Number] or [Boolean], or compared, before
    it is used, and is kept as [MediaInfoTrack] holds it.  The two fields
    of the audio case that are read through a cast,
    [track.Format_Profile as string | undefined] and
    [track.Format_Commercial_IfAny as string | undefined], are kept as
    they come; the fields of these names in [fields] are not read. *)
Record Track := {
  fields : MediaInfoTrack;
  Format_Profile : Unknown;
  Format_Commercial_IfAny : Unknown
}.

Record Media := { track : list Track }.

Record MediaInfoResult := { media : option Media }.

Definition truthy (v : Unknown) : bool :=
  match v with
  | Undefined | Null => false
  | Boolean b => b
  | Number n => truthy_num n
  | String s => truthy_str s
  end.

(** [v.includes(sub)]: the method of a string.  A number or a boolean
    has no such method and the call throws a TypeError; on [undefined]
    and [null] reading the property throws one. *)
Definition includes_of (callee : string) (sub : jsstring) (v : Unknown)
  : Result bool :=
  match v with
  | String s => inr (includes sub s)
  | Boolean _ | Number _ => inl (lit callee ++ lit " is not a function")
  | Undefined =>
      inl (lit "Cannot read properties of undefined (reading 'includes')")
  | Null => inl (lit "Cannot read properties of null (reading 'includes')")
  end.

(** The truth value of [v?.includes(sub)], which is [undefined] when
    [v] is [undefined] or [null]. *)
Definition optional_includes (callee : string) (sub : jsstring) (v : Unknown)
  : Result bool :=
  match v with
  | Undefined | Null => inr false
  | _ => includes_of callee sub v
  end.

(** The codec label of the audio case. *)
Definition audioFormatOf (t : Track) : Result jsstring :=
  let audioFormat := or_str (Format (fields t)) (lit "Unknown") in
  let formatProfile := Format_Profile t in
  let commercialName := Format_Commercial_IfAny t in
  if truthy formatProfile then
    if eqb audioFormat (lit "MLP FBA") || includes (lit "TrueHD") audioFormat
    then
      match optional_includes "commercialName?.includes" (lit "Atmos")
              commercialName with
      | inl e => inl e
      | inr atmos =>
          inr (lit "MLP FBA" ++ if atmos then lit " (Dolby Atmos)" else [])
      end
    else if eqb audioFormat (lit "DTS")
    then
      match includes_of "formatProfile.includes" (lit "MA") formatProfile with
      | inl e => inl e
      | inr ma => inr (if ma then lit "DTS-HD MA" else audioFormat)
      end
    else inr audioFormat
  else inr audioFormat.

Section Platform.

Variable toUpperCase toLowerCase : jsstring -> jsstring.
Variable formatFileSize : Z -> jsstring.

Definition audioOf (audioIndex : Z) (t : Track) : Result Audio :=
  let lang := or_str (Language (fields t)) (lit "und") in
  let channels := num_or (Channels (fields t)) 2 in
  let channelStr := channelStrOf channels in
  match audioFormatOf t with
  | inl e => inl e
  | inr audioFormat =>
      inr {| a_index := audioIndex;
             a_language := capitalize toUpperCase lang;
             a_flag := getLanguageFlag toLowerCase lang;
             a_codec := audioFormat;
             a_channels := channelStr;
             a_bitrate :=
               num_then (BitRate (fields t)) formatBitrate (lit "Variable");
             a_title := titleOf (fields t);
             a_isDefault := isDefaultOf (fields t) |}
  end.

(** One iteration of the loop; an exception leaves it. *)
Definition visit (st : LoopState) (t : Track) : Result LoopState :=
  let p := parsed st in
  let trackType := type_ (fields t) in
  if eqb trackType (lit "General") then
    inr {| parsed := {| filename := filename p;
                        general := generalOf formatFileSize (general p) (fields t);
                        video := video p;
                        audio := audio p;
                        subtitles := subtitles p |};
           audioIndex := audioIndex st;
           subtitleIndex := subtitleIndex st |}
  else if eqb trackType (lit "Video") then
    inr {| parsed := {| filename := filename p;
                        general := general p;
                        video := Some (videoOf (fields t));
                        audio := audio p;
                        subtitles := subtitles p |};
           audioIndex := audioIndex st;
           subtitleIndex := subtitleIndex st |}
  else if eqb trackType (lit "Audio") then
    match audioOf (audioIndex st) t with
    | inl e => inl e
    | inr entry =>
        inr {| parsed := {| filename := filename p;
                            general := general p;
                            video := video p;
                            audio := audio p ++ [entry];
                            subtitles := subtitles p |};
               audioIndex := audioIndex st + 1;
               subtitleIndex := subtitleIndex st |}
    end
  else if eqb trackType (lit "Text") then
    inr {| parsed := {| filename := filename p;
                        general := general p;
                        video := video p;
                        audio := audio p;
                        subtitles :=
                          subtitles p
                          ++ [subtitleOf toUpperCase toLowerCase
                                (subtitleIndex st) (fields t)] |};
           audioIndex := audioIndex st;
           subtitleIndex := subtitleIndex st + 1 |}
  else inr st.

(** [for (const track of result.media.track)]. *)
Fixpoint loop (ts : list Track) (st : LoopState) : Result LoopState :=
  match ts with
  | [] => inr st
  | t :: rest =>
      match visit st t with
      | inl e => inl e
      | inr st' => loop rest st'
      end
  end.

Definition parseMediaInfo (result : MediaInfoResult) (filename : jsstring)
  : Result ParsedMediaInfo :=
  let parsed0 := initial filename in
  match media result with
  | None => inr parsed0
  | Some m =>
      match loop (track m)
              {| parsed := parsed0; audioIndex := 0; subtitleIndex := 0 |} with
      | inl e => inl e
      | inr st => inr (parsed st)
      end
  end.

End Platform.

End Raw.

(** ** The HTTP collaborator *)

Module Http.

Inductive Body :=
| NoBody
| TextBody (s : jsstring)
| FormBody (fields : list (jsstring * jsstring)).

Record Request := {
  url : jsstring;
  method : jsstring;
  headers : list (jsstring * jsstring);
  body : Body
}.

(** A parsed JSON body, as far as the sources look into one: [null], or
    an object with string- and number-valued members (any other JSON
    value answers every member access with [undefined], like an object
    without members). *)
Inductive JsonField :=
| JString (s : jsstring)
| JNumber (n : Z).

Inductive Json :=
| JsonNull
| JsonObject (members : list (jsstring * JsonField)).

(** A response: status line, header lookup ([headers.get], [None] for
    [null]) and the three ways of reading its body, each of which may
    reject. *)
Record Response := {
  status : Z;
  statusText : jsstring;
  get : jsstring -> option jsstring;
  text : Result jsstring;
  json : Result Json;
  arrayBuffer : Result (list N)
}.

Definition ok (r : Response) : bool := (200 <=? status r) && (status r <=? 299).

Fixpoint member (name : jsstring) (members : list (jsstring * JsonField))
  : option JsonField :=
  match members with
  | [] => None
  | (k, v) :: r => if eqb k name then Some v else member name r
  end.

Definition truthy_field (f : option JsonField) : bool :=
  match f with
  | Some (JString s) => truthy_str s
  | Some (JNumber n) => truthy_num n
  | None => false
  end.

(** [String(v)] / [`${v}`] on a member. *)
Definition String_field (f : option JsonField) : jsstring :=
  match f with
  | Some (JString s) => s
  | Some (JNumber n) => dec n
  | None => lit "undefined"
  end.

(** One call of [fetch], with what it produced. *)
Definition Event : Type := Request * Result Response.

Definition requests (tr : list Event) : list Request := map fst tr.

(** [parseInt(s, 10)]: leading white space, an optional sign, then the
    longest run of decimal digits; [None] is NaN. *)
Definition isDigit (c : N) : bool := ((48 <=? c) && (c <=? 57))%N.

Fixpoint takeWhile (p : N -> bool) (s : jsstring) : jsstring :=
  match s with
  | c :: r => if p c then c :: takeWhile p r else []
  | [] => []
  end.

Definition digits_value (ds : jsstring) : Z :=
  fold_left (fun acc c => 10 * acc + (Z.of_N c - 48)) ds 0.

Definition parseInt10 (s : jsstring) : option Z :=
  let s := trimStart s in
  let '(sign, s) :=
    match s with
    | 45%N :: r => (-1, r)
    | 43%N :: r => (1, r)
    | _ => (1, s)
    end in
  match takeWhile isDigit s with
  | [] => None
  | ds => Some (sign * digits_value ds)
  end.

(** [n > m], [n === 0] and [n || d] on a possibly-NaN number. *)
Definition gt_num (n : option Z) (m : Z) : bool :=
  match n with Some v => m <? v | None => false end.

Definition is_zero (n : option Z) : bool :=
  match n with Some v => v =? 0 | None => false end.

End Http.

Import Http.

Section World.

(** The world the pipeline talks to, and its [fetch]. *)
Variable World : Type.
Variable fetch : Request -> World -> Result Response * World.

(** The state of a run: the world and the calls made so far. *)
Record Run := { world : World; trace : list Event }.

Definition fetchM (req : Request) : X Run Response :=
  fun s =>
    let (r, w) := fetch req (world s) in
    (r, {| world := w; trace := trace s ++ [(req, r)] |}).

Definition start (w : World) : Run := {| world := w; trace := [] |}.

(** ** The paste chain ([services/pastebin.ts]) *)

Record PasteResult := {
  success : bool;
  p_url : option jsstring;
  error : option jsstring
}.

Definition succeeded (u : jsstring) : PasteResult :=
  {| success := true; p_url := Some u; error := None |}.

Definition failed (msg : jsstring) : PasteResult :=
  {| success := false; p_url := None; error := Some msg |}.

(** The [catch] block shared by the four providers (the logger only
    writes to the console). *)
Definition caught (msg : jsstring) : M Run PasteResult := ret (failed msg).

Definition text_plain : jsstring * jsstring :=
  (lit "Content-Type", lit "text/plain; charset=utf-8").

Definition uploadToPasteRs (content : jsstring) : M Run PasteResult :=
  (try_catch
     (response <-? fetchM {| url := lit "https://paste.rs/";
                             method := lit "POST";
                             headers := [text_plain];
                             body := TextBody content |} ;;
      if negb (ok response)
      then throw (lit "paste.rs returned " ++ dec (status response))
      else
        body <-? ret (text response) ;;
        let url := trim body in
        if truthy_str url && startsWith (lit "https://paste.rs/") url
        then xret (succeeded url)
        else throw (lit "Invalid response from paste.rs"))
     caught)%eff.

Definition uploadToHastebin (content : jsstring) : M Run PasteResult :=
  (try_catch
     (response <-? fetchM {| url := lit "https://hastebin.com/documents";
                             method := lit "POST";
                             headers := [text_plain];
                             body := TextBody content |} ;;
      if negb (ok response)
      then throw (lit "hastebin returned " ++ dec (status response))
      else
        data <-? ret (json response) ;;
        match data with
        | JsonNull => throw (lit "Cannot read properties of null (reading 'key')")
        | JsonObject members =>
            let key := member (lit "key") members in
            if truthy_field key
            then xret (succeeded (lit "https://hastebin.com/" ++ String_field key))
            else throw (lit "Invalid response from hastebin")
        end)
     caught)%eff.

Definition uploadToDpaste (content : jsstring) (title : option jsstring)
  (expiryDays : Z) : M Run PasteResult :=
  (try_catch
     (let formData :=
        [(lit "content", content)]
        ++ (match title with
            | Some t => if truthy_str t then [(lit "title", t)] else []
            | None => []
            end)
        ++ [(lit "expiry_days", dec (Z.min expiryDays 365))] in
      response <-? fetchM {| url := lit "https://dpaste.org/api/";
                             method := lit "POST";
                             headers := [];
                             body := FormBody formData |} ;;
      if negb (ok response)
      then throw (lit "dpaste.org returned " ++ dec (status response))
      else
        body <-? ret (text response) ;;
        let url := trim body in
        if truthy_str url && startsWith (lit "https://dpaste.org/") url
        then xret (succeeded url)
        else throw (lit "Invalid response from dpaste.org"))
     caught)%eff.

Definition uploadTo0x0 (content : jsstring) : M Run PasteResult :=
  (try_catch
     (* the [file] part is a text/plain blob named mediainfo.txt *)
     (let formData := [(lit "file", content); (lit "expires", lit "168")] in
      response <-? fetchM {| url := lit "https://0x0.st";
                             method := lit "POST";
                             headers := [];
                             body := FormBody formData |} ;;
      if negb (ok response)
      then throw (lit "0x0.st returned " ++ dec (status response))
      else
        body <-? ret (text response) ;;
        let url := trim body in
        if truthy_str url && startsWith (lit "https://0x0.st/") url
        then xret (succeeded url)
        else throw (lit "Invalid response from 0x0.st"))
     caught)%eff.

(** [`${result.error}`]. *)
Definition String_error (r : PasteResult) : jsstring :=
  match error r with Some e => e | None => lit "undefined" end.

(** [uploadToPastebin].  The four [try] blocks of the source guard calls
    that catch every error themselves, so their [catch] arms are not
    reachable and do not appear here. *)
Definition uploadToPastebin (content : jsstring) (title : option jsstring)
  (expiryDays : Z) : M Run PasteResult :=
  (let errors : list jsstring := [] in
   pasteRsResult <- uploadToPasteRs content ;;
   if success pasteRsResult then ret pasteRsResult else
   let errors := errors ++ [lit "paste.rs: " ++ String_error pasteRsResult] in
   dpasteResult <- uploadToDpaste content title expiryDays ;;
   if success dpasteResult then ret dpasteResult else
   let errors := errors ++ [lit "dpaste.org: " ++ String_error dpasteResult] in
   fallbackResult <- uploadTo0x0 content ;;
   if success fallbackResult then ret fallbackResult else
   let errors := errors ++ [lit "0x0.st: " ++ String_error fallbackResult] in
   hastebinResult <- uploadToHastebin content ;;
   if success hastebinResult then ret hastebinResult else
   let errors := errors ++ [lit "hastebin: " ++ String_error hastebinResult] in
   ret (failed (lit "All paste services failed: " ++ join (lit "; ") errors)))%eff.

(** ** The partial downloader: direct URLs ([commands/mediainfo.ts]) *)

Definition MAX_DOWNLOAD_SIZE : Z := 10 * 1024 * 1024.

Record DownloadResult := {
  buffer : list N;
  fileSize : option Z;
  d_filename : jsstring
}.

(** [extractFilenameFromUrl(url, headers)] reads the Content-Disposition
    header through a regular expression and otherwise takes the URL
    apart with the platform's [URL] and [decodeURIComponent]; it catches
    its own errors and always returns a string.  It is a parameter. *)
Variable extractFilenameFromUrl :
  jsstring -> (jsstring -> option jsstring) -> jsstring.

(** [contentRange.match(/\/(\d+)/)]: the digits after the first slash
    that is followed by a digit. *)
Fixpoint total_of_range (s : jsstring) : option jsstring :=
  match s with
  | [] => None
  | c :: r =>
      if (c =? 47)%N && truthy_str (takeWhile isDigit r)
      then Some (takeWhile isDigit r)
      else total_of_range r
  end.

Definition range_header (maxBytes : Z) : jsstring * jsstring :=
  (lit "Range", lit "bytes=0-" ++ dec (maxBytes - 1)).

(** The size announced by the HEAD request; every failure leaves 0. *)
Definition head_size (r : Result Response) : option Z :=
  match r with
  | inr headResponse =>
      if ok headResponse then
        match get headResponse (lit "content-length") with
        | Some contentLength =>
            if truthy_str contentLength then parseInt10 contentLength else Some 0
        | None => Some 0
        end
      else Some 0
  | inl _ => Some 0
  end.

(** The size read off the GET response when none is known yet. *)
Definition response_size (fileSize : option Z) (response : Response) : option Z :=
  if is_zero fileSize then
    let contentLength := get response (lit "content-length") in
    let contentRange := get response (lit "content-range") in
    if truthy_opt_str contentRange then
      match total_of_range (or_str contentRange []) with
      | Some digits => parseInt10 digits
      | None => fileSize
      end
    else if truthy_opt_str contentLength
    then parseInt10 (or_str contentLength [])
    else fileSize
  else fileSize.

(** [fileSize || buffer.byteLength]. *)
Definition size_or_length (fileSize : option Z) (buffer : list N) : option Z :=
  match fileSize with
  | Some n => if truthy_num n then Some n else Some (length buffer)
  | None => Some (length buffer)
  end.

Definition downloadFromUrl (url : jsstring) (maxBytes : Z)
  : M Run (option DownloadResult) :=
  (try_catch
     (headResponse <- fetchM {| Http.url := url; method := lit "HEAD";
                                headers := []; body := NoBody |} ;;
      let fileSize := head_size headResponse in
      let headers :=
        if gt_num fileSize maxBytes then [range_header maxBytes] else [] in
      response <-? fetchM {| Http.url := url; method := lit "GET";
                             headers := headers; body := NoBody |} ;;
      if negb (ok response) && negb (status response =? 206)
      then throw (lit "HTTP " ++ dec (status response) ++ lit ": "
                  ++ statusText response)
      else
        let fileSize := response_size fileSize response in
        arrayBuffer <-? ret (arrayBuffer response) ;;
        let buffer := arrayBuffer in
        let filename := extractFilenameFromUrl url (get response) in
        xret (Some {| buffer := buffer;
                      fileSize := size_or_length fileSize buffer;
                      d_filename := filename |}))
     (fun _ => ret None))%eff.

(** ** The partial downloader: Drive ([services/google-drive.ts]) *)

(** [Date.now()]. *)
Variable now : World -> Z.

Record GoogleDriveClient := {
  clientId : jsstring;
  clientSecret : jsstring;
  refreshToken : jsstring;
  accessToken : option jsstring;
  tokenExpiry : option Z
}.

(** A run of a method of the client: the run so far and the client's
    own fields. *)
Record DriveRun := { run : Run; client : GoogleDriveClient }.

Definition lift {A} (m : M Run A) : M DriveRun A :=
  fun s => let (a, r) := m (run s) in (a, {| run := r; client := client s |}).

Definition nowM : M DriveRun Z := fun s => (now (world (run s)), s).

Definition thisM : M DriveRun GoogleDriveClient := fun s => (client s, s).

Definition cacheM (token : jsstring) (expiry : option Z) : M DriveRun unit :=
  fun s =>
    let c := client s in
    (tt, {| run := run s;
            client := {| clientId := clientId c;
                         clientSecret := clientSecret c;
                         refreshToken := refreshToken c;
                         accessToken := Some token;
                         tokenExpiry := expiry |} |}).

Definition json_members (j : Json) : Result (list (jsstring * JsonField)) :=
  match j with
  | JsonNull => inl (lit "Cannot read properties of null")
  | JsonObject members => inr members
  end.

Definition number_field (f : option JsonField) : option Z :=
  match f with
  | Some (JNumber n) => Some n
  | Some (JString s) => None
  | None => None
  end.

Definition string_field (f : option JsonField) : option jsstring :=
  match f with
  | Some (JString s) => Some s
  | Some (JNumber n) => Some (dec n)
  | None => None
  end.

Definition getAccessToken : X DriveRun jsstring :=
  (this <- thisM ;;
   t <- nowM ;;
   let fresh :=
     match accessToken this, tokenExpiry this with
     | Some token, Some expiry => truthy_str token && (t <? expiry - 300000)
     | _, _ => false
     end in
   if fresh then xret (or_str (accessToken this) [])
   else
     let formData :=
       [(lit "client_id", clientId this);
        (lit "client_secret", clientSecret this);
        (lit "refresh_token", refreshToken this);
        (lit "grant_type", lit "refresh_token")] in
     response <-? lift (fetchM
       {| url := lit "https://www.googleapis.com/oauth2/v4/token";
          method := lit "POST";
          headers := [(lit "Content-Type", lit "application/x-www-form-urlencoded")];
          body := FormBody formData |}) ;;
     data <-? ret (json response) ;;
     members <-? ret (json_members data) ;;
     let access_token := member (lit "access_token") members in
     if negb (truthy_field access_token)
     then throw (lit "Failed to obtain access token")
     else
       t' <- nowM ;;
       let expiry :=
         match number_field (member (lit "expires_in") members) with
         | Some expires_in => Some (t' + expires_in * 1000)
         | None => None
         end in
       _ <- cacheM (String_field access_token) expiry ;;
       xret (String_field access_token))%eff.

Record FileMetadata := {
  fm_name : option jsstring;
  fm_size : option jsstring;
  fm_mimeType : option jsstring
}.

Definition bearer (accessToken : jsstring) : jsstring * jsstring :=
  (lit "Authorization", lit "Bearer " ++ accessToken).

Definition metadata_fields : jsstring :=
  lit "id,name,mimeType,size,createdTime,modifiedTime,owners,shared,webViewLink,parents".

Definition getFileMetadata (fileId : jsstring) : X DriveRun (option FileMetadata) :=
  (accessToken <-? getAccessToken ;;
   let url := lit "https://www.googleapis.com/drive/v3/files/" ++ fileId
              ++ lit "?fields=" ++ metadata_fields
              ++ lit "&supportsAllDrives=true" in
   response <-? lift (fetchM {| Http.url := url; method := lit "GET";
                                headers := [bearer accessToken];
                                body := NoBody |}) ;;
   if negb (ok response) then xret None
   else
     data <-? ret (json response) ;;
     match data with
     | JsonNull => xret None
     | JsonObject members =>
         xret (Some {| fm_name := string_field (member (lit "name") members);
                       fm_size := string_field (member (lit "size") members);
                       fm_mimeType :=
                         string_field (member (lit "mimeType") members) |})
     end)%eff.

Record DriveDownload := {
  dd_buffer : list N;
  dd_fileSize : option Z
}.

Definition downloadFileContent (fileId : jsstring) (maxBytes : Z)
  : X DriveRun (option DriveDownload) :=
  (accessToken <-? getAccessToken ;;
   metadata <-? getFileMetadata fileId ;;
   match metadata with
   | None => xret None
   | Some metadata =>
       let fileSize := parseInt10 (or_str (fm_size metadata) (lit "0")) in
       if is_zero fileSize then xret None
       else
         let headers :=
           [bearer accessToken]
           ++ (if gt_num fileSize maxBytes then [range_header maxBytes] else []) in
         let url := lit "https://www.googleapis.com/drive/v3/files/" ++ fileId
                    ++ lit "?alt=media&supportsAllDrives=true" in
         downloaded <-
           try_catch
             (response <-? lift (fetchM {| Http.url := url; method := lit "GET";
                                           headers := headers; body := NoBody |}) ;;
              if negb (ok response) && negb (status response =? 206)
              then xret None
              else
                arrayBuffer <-? ret (arrayBuffer response) ;;
                xret (Some {| dd_buffer := arrayBuffer; dd_fileSize := fileSize |}))
             (fun _ => ret None) ;;
         xret downloaded
   end)%eff.

End World.

(** ** The analysis engine adapter ([services/mediainfo.ts]) *)

Module Adapter.

Import Normalizer.

Record Options := {
  format : jsstring;
  chunkSize : Z;
  coverData : bool;
  full : bool
}.

(** The calls the adapter makes on the engine. *)
Inductive Call :=
| CreateMediaInfo
| AnalyzeData (o : Options) (size : Z)
| Reset
| Inform
| Close.

Definition is_close (c : Call) : bool :=
  match c with Close => true | _ => false end.

Record AnalysisDiagnostics := {
  wasmLoadTimeMs : Z;
  analysisTimeMs : Z;
  bufferSize : Z;
  diag_filename : jsstring
}.

Record MediaInfoAnalysis := {
  result : MediaInfoResult;
  text : jsstring;
  diagnostics : AnalysisDiagnostics
}.

(** [Uint8Array.prototype.subarray(begin, end)]. *)
Definition relative (len i : Z) : Z :=
  if i <? 0 then Z.max (len + i) 0 else Z.min i len.

Definition subarray (a : list N) (from to : Z) : list N :=
  let len := Z.of_nat (List.length a) in
  let b := relative len from in
  let e := relative len to in
  firstn (Z.to_nat (e - b)) (skipn (Z.to_nat b) a).

(** The [readChunk] callback handed to the engine. *)
Definition readChunk (fileBuffer : list N) (chunkSize offset : Z) : list N :=
  let byteLength := Z.of_nat (List.length fileBuffer) in
  if byteLength <=? offset then []
  else
    let e := Z.min (offset + chunkSize) byteLength in
    subarray fileBuffer offset e.

Section Engine.

(** The engine is opaque: each of its operations acts on the world and
    may throw.  [createMediaInfo] leaves the instance in the world. *)
Variable World : Type.
Variable createMediaInfo : World -> Result Options * World.
Variable analyzeData :
  Options -> Z -> (Z -> Z -> list N) -> World -> Result MediaInfoResult * World.
Variable reset : World -> Result unit * World.
Variable inform : World -> Result jsstring * World.
Variable close : World -> Result unit * World.
(** [Math.round(performance.now() - t0)] is read off a clock. *)
Variable performance_now : World -> Z.

(** The state of a run: the world, the calls made so far, and the
    [options] object of the instance. *)
Record EngineRun := {
  e_world : World;
  calls : list Call;
  options : Options
}.

Definition call {A} (c : Options -> Call) (op : World -> Result A * World)
  : X EngineRun A :=
  fun s =>
    let (r, w) := op (e_world s) in
    (r, {| e_world := w; calls := calls s ++ [c (options s)];
           options := options s |}).

Definition clock : M EngineRun Z := fun s => (performance_now (e_world s), s).

Definition getOptions : M EngineRun Options := fun s => (options s, s).

Definition setOptions (o : Options) : M EngineRun unit :=
  fun s => (tt, {| e_world := e_world s; calls := calls s; options := o |}).

Definition set_format (f : jsstring) : M EngineRun unit :=
  (o <- getOptions ;;
   setOptions {| format := f; chunkSize := chunkSize o;
                 coverData := coverData o; full := full o |})%eff.

Definition analyzeDataM (size : Z) (rd : Z -> Z -> list N)
  : X EngineRun MediaInfoResult :=
  fun s => call (fun o => AnalyzeData o size) (analyzeData (options s) size rd) s.

Definition analyzeMediaBuffer (fileBuffer : list N) (fileSize : Z)
  (filename : jsstring) : X EngineRun MediaInfoAnalysis :=
  (tFactory <- clock ;;
   created <-? call (fun _ => CreateMediaInfo) createMediaInfo ;;
   _ <- setOptions created ;;
   t1 <- clock ;;
   let wasmLoadTimeMs := t1 - tFactory in
   o <- getOptions ;;
   _ <- setOptions {| format := format o; chunkSize := 5 * 1024 * 1024;
                      coverData := false; full := true |} ;;
   let readChunk := readChunk fileBuffer in
   try_finally
     (tAnalysis <- clock ;;
      _ <- set_format (lit "object") ;;
      result <-? analyzeDataM fileSize readChunk ;;
      _ <-? call (fun _ => Reset) reset ;;
      _ <- set_format (lit "text") ;;
      _ <-? analyzeDataM fileSize readChunk ;;
      text <-? call (fun _ => Inform) inform ;;
      t2 <- clock ;;
      xret {| result := result;
              text := text;
              diagnostics :=
                {| wasmLoadTimeMs := wasmLoadTimeMs;
                   analysisTimeMs := t2 - tAnalysis;
                   bufferSize := Z.of_nat (List.length fileBuffer);
                   diag_filename := filename |} |})
     (call (fun _ => Close) close))%eff.

Definition begin (w : World) : EngineRun :=
  {| e_world := w; calls := [];
     options := {| format := lit "object"; chunkSize := 256 * 1024;
                   coverData := false; full := true |} |}.

End Engine.

End Adapter.

(** ** The source resolver ([commands/mediainfo.ts], [utils/helpers.ts]) *)

Module Resolver.

(** What the sources read off a parsed [URL]. *)
Record URL := {
  protocol : jsstring;
  hostname : jsstring
}.

Inductive MediaSource :=
| DirectUrl (url : jsstring)
| DriveReference (id : jsstring)
| ReferenceError.

(** [[a-zA-Z0-9_-]]. *)
Definition isIdChar (c : N) : bool :=
  ((97 <=? c) && (c <=? 122) || (65 <=? c) && (c <=? 90)
   || (48 <=? c) && (c <=? 57) || (c =? 95) || (c =? 45))%N.

(** [/^[a-zA-Z0-9_-]{25,}$/.test(s)]. *)
Definition isBareId (s : jsstring) : bool :=
  forallb isIdChar s && (25 <=? List.length s)%nat.

(** The six patterns, each a literal prefix followed by the group
    [([a-zA-Z0-9_-]+)]. *)
Definition patterns : list jsstring :=
  [ lit "/file/d/"; lit "/open?id="; lit "/uc?id="; lit "id=";
    lit "/folders/"; lit "/d/" ].

(** A match of [prefix([a-zA-Z0-9_-]+)] that starts at the head of [s]:
    the group is the longest run of identifier characters. *)
Definition match_here (prefix s : jsstring) : option jsstring :=
  if startsWith prefix s then
    match takeWhile isIdChar (skipn (List.length prefix) s) with
    | [] => None
    | id => Some id
    end
  else None.

(** [s.match(pattern)]: the leftmost match; its group 1. *)
Fixpoint match_first (prefix s : jsstring) : option jsstring :=
  match match_here prefix s with
  | Some id => Some id
  | None =>
      match s with
      | [] => None
      | _ :: r => match_first prefix r
      end
  end.

Fixpoint first_pattern (ps : list jsstring) (link : jsstring) : option jsstring :=
  match ps with
  | [] => None
  | p :: r =>
      match match_first p link with
      | Some id => Some id
      | None => first_pattern r link
      end
  end.

Definition extractFileId (link : jsstring) : option jsstring :=
  if isBareId (trim link) then Some (trim link)
  else first_pattern patterns link.

Section Platform.

(** [new URL(input)]: the platform's URL parser; [None] when it throws. *)
Variable URL_parse : jsstring -> option URL.

Definition isDirectUrl (input : jsstring) : bool :=
  match URL_parse input with
  | Some url =>
      if negb (eqb (protocol url) (lit "http:"))
         && negb (eqb (protocol url) (lit "https:"))
      then false
      else if includes (lit "drive.google.com") (hostname url)
              || includes (lit "docs.google.com") (hostname url)
              || eqb (hostname url) (lit "drive.usercontent.google.com")
      then false
      else true
  | None => false
  end.

(** The branch of [mediainfoCommand] that picks the source. *)
Definition resolve (args : jsstring) : MediaSource :=
  if isDirectUrl args then DirectUrl args
  else
    match extractFileId args with
    | Some fileId => if truthy_str fileId then DriveReference fileId
                     else ReferenceError
    | None => ReferenceError
    end.

End Platform.

End Resolver.

(** ** The text reply and its length discipline ([commands/mediainfo.ts]) *)

Module Reply.

Definition nl : jsstring := [10]%N.

(** U+1F4CB, a surrogate pair. *)
Definition clipboard : jsstring := [55357; 56523]%N.

Definition full_report (url : jsstring) : jsstring :=
  nl ++ nl ++ clipboard ++ lit " <b>Full Report:</b> " ++ url.

Definition truncated_marker : jsstring :=
  nl ++ nl ++ lit "<i>[Output truncated]</i>".

(** [pasteResult.success && pasteResult.url]. *)
Definition has_link (pasteResult : PasteResult) : bool :=
  success pasteResult && truthy_opt_str (p_url pasteResult).

Definition linkPart (pasteResult : PasteResult) : jsstring :=
  if has_link pasteResult
  then full_report (or_str (p_url pasteResult) [])
  else [].

(** The fallback branch of [mediainfoCommand]: the text sent when no
    image could be produced. *)
Definition textReply (filename size container styledText : jsstring)
  (pasteResult : PasteResult) : jsstring :=
  let response :=
    lit "<b>Filename:</b> <code>" ++ filename ++ lit "</code>" ++ nl in
  let response := response ++ lit "<b>Size:</b> " ++ size ++ nl in
  let response := response ++ lit "<b>Type:</b> " ++ container ++ nl ++ nl in
  let response := response ++ styledText in
  let response :=
    if has_link pasteResult
    then response ++ full_report (or_str (p_url pasteResult) [])
    else response in
  if 4000 <? length response then
    let linkPart := linkPart pasteResult in
    substring response 0 (3900 - length linkPart)
    ++ truncated_marker ++ linkPart
  else response.

End Reply.

(** ** Vocabulary of the specification *)

Module Spec.

Import Normalizer.

(** [s] mentions [sub]: [sub] occurs in [s]. *)
Definition Mentions (sub s : jsstring) : Prop :=
  exists pre post, s = pre ++ sub ++ post.

Definition StartsWith (p s : jsstring) : Prop :=
  exists rest, s = p ++ rest.

Definition is_audio (t : MediaInfoTrack) : bool := eqb (type_ t) (lit "Audio").

Definition is_general (t : MediaInfoTrack) : bool := eqb (type_ t) (lit "General").

(** The audio entries a list of tracks gives rise to, numbered from [i]. *)
Section Entries.
Variable toUpperCase toLowerCase : jsstring -> jsstring.

Fixpoint audios (i : Z) (ts : list MediaInfoTrack) : list Audio :=
  match ts with
  | [] => []
  | t :: r =>
      if is_audio t
      then audioOf toUpperCase toLowerCase i t :: audios (i + 1) r
      else audios i r
  end.
End Entries.

(** What the codec heuristics promise for one audio track. *)
Definition truehd_family (t : MediaInfoTrack) : Prop :=
  exists f, Format t = Some f /\ (f = lit "MLP FBA" \/ Mentions (lit "TrueHD") f).

Definition has_profile (t : MediaInfoTrack) : Prop :=
  exists p, Format_Profile t = Some p /\ p <> [].

Definition commercial_atmos (t : MediaInfoTrack) : Prop :=
  exists c, Format_Commercial_IfAny t = Some c /\ Mentions (lit "Atmos") c.

Definition dts_ma (t : MediaInfoTrack) : Prop :=
  Format t = Some (lit "DTS")
  /\ exists p, Format_Profile t = Some p /\ Mentions (lit "MA") p.


(** *** Raw tracks *)












(** Sample tracks. *)
Definition atmos_track : MediaInfoTrack :=
  {| type_ := lit "Audio"; Format := Some (lit "MLP FBA"); Codec := None;
     CodecID := None; Language := None; Title := None;
     Format_Profile := None;
     Format_Commercial_IfAny := Some (lit "Dolby TrueHD with Dolby Atmos");
     Default := None; FileSize := None; Duration := None;
     OverallBitRate := None; FrameRate := None; FrameCount := None;
     Width := None; Height := None; BitDepth := None; Channels := Some 8;
     BitRate := None |}.

Definition truehd_track (profile : option jsstring) : MediaInfoTrack :=
  {| type_ := lit "Audio"; Format := Some (lit "TrueHD"); Codec := None;
     CodecID := None; Language := None; Title := None;
     Format_Profile := profile;
     Format_Commercial_IfAny := Some (lit "Dolby TrueHD with Dolby Atmos");
     Default := None; FileSize := None; Duration := None;
     OverallBitRate := None; FrameRate := None; FrameCount := None;
     Width := None; Height := None; BitDepth := None; Channels := Some 8;
     BitRate := None |}.

(** A small result: a Matroska file with one video track, one DTS-HD MA
    audio track and one subtitle. *)
Definition sample_result : MediaInfoResult :=
  {| media := Some {| track :=
       [ {| type_ := lit "General"; Format := Some (lit "Matroska");
            Codec := None; CodecID := None; Language := None; Title := None;
            Format_Profile := None; Format_Commercial_IfAny := None;
            Default := None; FileSize := None; Duration := Some 5025000;
            OverallBitRate := Some 8500000; FrameRate := None;
            FrameCount := None; Width := None; Height := None;
            BitDepth := None; Channels := None; BitRate := None |};
         {| type_ := lit "Video"; Format := Some (lit "AVC");
            Codec := None; CodecID := None; Language := None; Title := None;
            Format_Profile := Some (lit "High@L4"); Format_Commercial_IfAny := None;
            Default := None; FileSize := None; Duration := None;
            OverallBitRate := None; FrameRate := Some 24;
            FrameCount := Some 120600; Width := Some 1920; Height := Some 1080;
            BitDepth := None; Channels := None; BitRate := Some 7990000 |};
         {| type_ := lit "Audio"; Format := Some (lit "DTS");
            Codec := None; CodecID := None; Language := Some (lit "en");
            Title := Some (lit "Surround"); Format_Profile := Some (lit "MA / Core");
            Format_Commercial_IfAny := Some (lit "DTS-HD Master Audio");
            Default := Some (inl (lit "Yes")); FileSize := None; Duration := None;
            OverallBitRate := None; FrameRate := None; FrameCount := None;
            Width := None; Height := None; BitDepth := None;
            Channels := Some 6; BitRate := None |};
         {| type_ := lit "Text"; Format := Some (lit "utf-8");
            Codec := None; CodecID := None; Language := Some (lit "fr");
            Title := None; Format_Profile := None; Format_Commercial_IfAny := None;
            Default := None; FileSize := None; Duration := None;
            OverallBitRate := None; FrameRate := None; FrameCount := None;
            Width := None; Height := None; BitDepth := None;
            Channels := None; BitRate := None |} ] |} |}.

Definition video_track (width height : Z) : MediaInfoTrack :=
  {| type_ := lit "Video"; Format := Some (lit "AVC"); Codec := None;
     CodecID := None; Language := None; Title := None;
     Format_Profile := None; Format_Commercial_IfAny := None;
     Default := None; FileSize := None; Duration := None;
     OverallBitRate := None; FrameRate := None; FrameCount := None;
     Width := Some width; Height := Some height; BitDepth := None;
     Channels := None; BitRate := None |}.

(** The engine was created, then used, and released by one [close],
    which is the last call made on it. *)
Definition closed_exactly_once (cs : list Adapter.Call) : Prop :=
  exists mid,
    cs = Adapter.CreateMediaInfo :: mid ++ [Adapter.Close]
    /\ Forall (fun c => Adapter.is_close c = false) mid.

(** The paste chain. *)
Inductive Provider := PasteRs | Dpaste | ZeroXZero | Hastebin.

Definition chain : list Provider := [PasteRs; Dpaste; ZeroXZero; Hastebin].

Definition endpoint (p : Provider) : jsstring :=
  match p with
  | PasteRs => lit "https://paste.rs/"
  | Dpaste => lit "https://dpaste.org/api/"
  | ZeroXZero => lit "https://0x0.st"
  | Hastebin => lit "https://hastebin.com/documents"
  end.

Definition provider_name (p : Provider) : jsstring :=
  match p with
  | PasteRs => lit "paste.rs"
  | Dpaste => lit "dpaste.org"
  | ZeroXZero => lit "0x0.st"
  | Hastebin => lit "hastebin"
  end.

Definition url_prefix (p : Provider) : jsstring :=
  match p with
  | PasteRs => lit "https://paste.rs/"
  | Dpaste => lit "https://dpaste.org/"
  | ZeroXZero => lit "https://0x0.st/"
  | Hastebin => lit "https://hastebin.com/"
  end.

(** The expected shape of a provider's answer, and the URL it stands
    for: a success status, and either a body that, trimmed, starts with
    the provider's URL prefix, or (hastebin) a JSON object with a truthy
    [key] member. *)
Definition shaped (p : Provider) (response : Response) (u : jsstring) : Prop :=
  match p with
  | Hastebin =>
      exists members key,
        json response = inr (JsonObject members)
        /\ member (lit "key") members = Some key
        /\ truthy_field (Some key) = true
        /\ u = url_prefix p ++ String_field (Some key)
  | _ =>
      exists body,
        Http.text response = inr body /\ u = trim body /\ u <> []
        /\ StartsWith (url_prefix p) u
  end.

Definition accepts (p : Provider) (r : Result Response) (u : jsstring) : Prop :=
  exists response,
    r = inr response /\ 200 <= status response <= 299 /\ shaped p response u.

Definition rejects (p : Provider) (r : Result Response) : Prop :=
  forall u, ~ accepts p r u.

(** What an unsuccessful attempt reports. *)
Definition body_error (p : Provider) (response : Response) : option jsstring :=
  match p with
  | Hastebin =>
      match json response with
      | inl msg => Some msg
      | inr JsonNull => Some (lit "Cannot read properties of null (reading 'key')")
      | inr (JsonObject _) => None
      end
  | _ =>
      match Http.text response with
      | inl msg => Some msg
      | inr _ => None
      end
  end.

Definition failure_message (p : Provider) (r : Result Response) : jsstring :=
  match r with
  | inl msg => msg
  | inr response =>
      if ok response then
        match body_error p response with
        | Some msg => msg
        | None => lit "Invalid response from " ++ provider_name p
        end
      else provider_name p ++ lit " returned " ++ dec (status response)
  end.

(** An attempt on provider [p] that did not succeed: one POST to the
    provider's endpoint, answered out of shape. *)
Definition failed_attempt (p : Provider) (ev : Event) : Prop :=
  url (fst ev) = endpoint p /\ method (fst ev) = lit "POST"
  /\ rejects p (snd ev).

Definition successful_attempt (p : Provider) (ev : Event) (u : jsstring) : Prop :=
  url (fst ev) = endpoint p /\ method (fst ev) = lit "POST"
  /\ accepts p (snd ev) u.

Definition reported (p : Provider) (ev : Event) : jsstring :=
  provider_name p ++ lit ": " ++ failure_message p (snd ev).

Definition reports (tr : list Event) : list jsstring :=
  map (fun pe => reported (fst pe) (snd pe)) (combine chain tr).

Section Chain.
Variable World : Type.
Variable fetch : Request -> World -> Result Response * World.

(** The upload function of each provider. *)
Definition attempt (p : Provider) (content : jsstring) (title : option jsstring)
    (expiryDays : Z) : M (Run World) PasteResult :=
  match p with
  | PasteRs => uploadToPasteRs fetch content
  | Dpaste => uploadToDpaste fetch content title expiryDays
  | ZeroXZero => uploadTo0x0 fetch content
  | Hastebin => uploadToHastebin fetch content
  end.
End Chain.


(** A scripted world: the answers [fetch] will give, in order; once the
    script is used up every call fails. *)
Definition Script : Type := list (Result Response).

Definition scripted (req : Request) (w : Script) : Result Response * Script :=
  match w with
  | r :: rest => (r, rest)
  | [] => (inl (lit "network error"), [])
  end.

(** A response with the given status, headers and body; the body reads
    the same as text and as bytes and is not JSON. *)
Definition respond (status : Z) (hs : list (jsstring * jsstring))
  (body : jsstring) : Result Response :=
  inr {| status := status;
         statusText := [];
         get := fun name =>
                  match find (fun h => eqb (fst h) name) hs with
                  | Some h => Some (snd h)
                  | None => None
                  end;
         Http.text := inr body;
         json := inl (lit "Unexpected token");
         arrayBuffer := inr body |}.

(** A JSON response. *)
Definition respond_json (status : Z) (members : list (jsstring * JsonField))
  : Result Response :=
  inr {| status := status;
         statusText := [];
         get := fun _ => None;
         Http.text := inl (lit "body used as JSON");
         json := inr (JsonObject members);
         arrayBuffer := inl (lit "body used as JSON") |}.

(** A file one byte larger than the default cap. *)
Definition oversize_body : list N :=
  repeat 0%N (Z.to_nat (MAX_DOWNLOAD_SIZE + 1)).

(** A server that refuses HEAD and serves the whole file on GET. *)
Definition oversize_world : Script :=
  [ inl (lit "HEAD not supported"); respond 200 [] oversize_body ].

(** A small file behind a server that announces its size. *)
Definition small_world : Script :=
  [ respond 200 [(lit "content-length", lit "5")] [];
    respond 200 [(lit "content-length", lit "5")] [1; 2; 3; 4; 5]%N ].

(** Drive: the token endpoint, the metadata of a 20-byte file, and the
    first 10 bytes of its content. *)
Definition drive_world : Script :=
  [ respond_json 200 [(lit "access_token", JString (lit "T"));
                      (lit "expires_in", JNumber 3600)];
    respond_json 200 [(lit "name", JString (lit "a.mkv"));
                      (lit "size", JString (lit "20"));
                      (lit "mimeType", JString (lit "video/x-matroska"))];
    respond 206 [] [1; 2; 3; 4; 5; 6; 7; 8; 9; 10]%N ].

Definition no_filename (url : jsstring) (get : jsstring -> option jsstring)
  : jsstring := lit "unknown".

Definition fresh_client : GoogleDriveClient :=
  {| clientId := lit "id"; clientSecret := lit "secret";
     refreshToken := lit "refresh"; accessToken := None;
     tokenExpiry := Some 0 |}.

(** The text reply before the length discipline is applied: the three
    header lines, the styled report, and the link part if any. *)
Definition combined (filename size container styledText : jsstring)
  (pasteResult : PasteResult) : jsstring :=
  (lit "<b>Filename:</b> <code>" ++ filename ++ lit "</code>" ++ Reply.nl
   ++ lit "<b>Size:</b> " ++ size ++ Reply.nl
   ++ lit "<b>Type:</b> " ++ container ++ Reply.nl ++ Reply.nl
   ++ styledText)
  ++ Reply.linkPart pasteResult.

(** A report of 4000 characters, without a link. *)
Definition long_report : jsstring := repeat 97%N 4000.

(** The source resolver. *)
Definition cloud_domains : list jsstring :=
  [ lit "drive.google.com"; lit "docs.google.com";
    lit "drive.usercontent.google.com" ].

Definition web_scheme (u : Resolver.URL) : Prop :=
  Resolver.protocol u = lit "http:" \/ Resolver.protocol u = lit "https:".

(** The claim as worded: the host is none of the configured domains. *)
Definition direct_as_stated (parse : jsstring -> option Resolver.URL)
  (input : jsstring) : Prop :=
  exists u, parse input = Some u /\ web_scheme u
            /\ ~ In (Resolver.hostname u) cloud_domains.

(** What the code tests: the host does not mention drive.google.com or
    docs.google.com and is not drive.usercontent.google.com. *)
Definition cloud_host (h : jsstring) : Prop :=
  Mentions (lit "drive.google.com") h \/ Mentions (lit "docs.google.com") h
  \/ h = lit "drive.usercontent.google.com".

Definition direct (parse : jsstring -> option Resolver.URL)
  (input : jsstring) : Prop :=
  exists u, parse input = Some u /\ web_scheme u
            /\ ~ cloud_host (Resolver.hostname u).

Definition IdChars (id : jsstring) : Prop :=
  Forall (fun c => Resolver.isIdChar c = true) id.

Definition BareId (s : jsstring) : Prop :=
  IdChars s /\ (25 <= List.length s)%nat.

(** The pattern [prefix([a-zA-Z0-9_-]+)] matches in [s] right after
    [before], with group [id]: the group is not empty and is followed by
    the end of [s] or by a character outside the class. *)
Definition MatchAt (prefix s before id : jsstring) : Prop :=
  exists after,
    s = before ++ prefix ++ id ++ after
    /\ id <> [] /\ IdChars id
    /\ (after = [] \/ exists c r, after = c :: r /\ Resolver.isIdChar c = false).

(** The leftmost match. *)
Definition Matches (prefix s id : jsstring) : Prop :=
  exists before,
    MatchAt prefix s before id
    /\ forall before' id',
        MatchAt prefix s before' id' ->
        (List.length before <= List.length before')%nat.

Definition NoMatch (prefix s : jsstring) : Prop :=
  forall before id, ~ MatchAt prefix s before id.

(** The first pattern of the list that matches, with its group. *)
Definition FirstPattern (ps : list jsstring) (s id : jsstring) : Prop :=
  exists earlier p later,
    ps = earlier ++ p :: later
    /\ Forall (fun q => NoMatch q s) earlier
    /\ Matches p s id.

(** What the platform's parser yields on the inputs used below (the
    WHATWG URL parser: scheme up to the colon, host between the double
    slash and the next slash). *)
Definition sample_parse (input : jsstring) : option Resolver.URL :=
  if eqb input (lit "https://notdrive.google.com.example.org/a.mkv")
  then Some {| Resolver.protocol := lit "https:";
               Resolver.hostname := lit "notdrive.google.com.example.org" |}
  else if eqb input (lit "https://example.com/a.mkv")
  then Some {| Resolver.protocol := lit "https:";
               Resolver.hostname := lit "example.com" |}
  else if eqb input (lit "https://drive.google.com/file/d/1AbC_d-9/view")
  then Some {| Resolver.protocol := lit "https:";
               Resolver.hostname := lit "drive.google.com" |}
  else None.

(** The rounding direction a remainder [r] of a division by [d] calls
    for: exact, or below / at / above the midpoint. *)
Definition loc_of (r d : Z) : location :=
  if r =? 0 then loc_Exact else loc_Inexact (2 * r ?= d).

End Spec.

(** ** The utility functions ([utils/helpers.ts]) *)

Module Helpers.

(** [s.replace(/c/g, rep)] for a one-character pattern [c]: every
    occurrence of [c], from left to right, gives way to [rep]. *)
Definition replaceAll (c : N) (rep s : jsstring) : jsstring :=
  flat_map (fun x => if (x =? c)%N then rep else [x]) s.

(** The code units of [&], [<], [>], the double and the single quote. *)
Definition amp : N := 38.
Definition lang : N := 60.
Definition rang : N := 62.
Definition quot : N := 34.
Definition apos : N := 39.

(** [escapeHtml(text)]: four passes over the text, [&] first. *)
Definition escapeHtml (text : jsstring) : jsstring :=
  replaceAll quot (lit "&quot;")
    (replaceAll rang (lit "&gt;")
       (replaceAll lang (lit "&lt;")
          (replaceAll amp (lit "&amp;") text))).

(** [truncate(text, maxLength)]. *)
Definition truncate (text : jsstring) (maxLength : Z) : jsstring :=
  if length text <=? maxLength then text
  else substring text 0 (maxLength - 3) ++ lit "...".

(** [s.split(/\s+/)]: the pieces between the maximal runs of white
    space; a run at either end of [s] leaves an empty piece there, and
    the empty string splits into one empty piece.  [sep] tells that the
    character before [s] belonged to a run. *)
Fixpoint split_ws (sep : bool) (s : jsstring) : list jsstring :=
  match s with
  | [] => [[]]
  | c :: r =>
      if isWhiteSpace c then
        if sep then split_ws true r else [] :: split_ws true r
      else
        match split_ws false r with
        | p :: ps => (c :: p) :: ps
        | [] => [[c]]
        end
  end.

(** [s.split(d)] for a one-character separator [d]. *)
Fixpoint split_char (d : N) (s : jsstring) : list jsstring :=
  match s with
  | [] => [[]]
  | c :: r =>
      if (c =? d)%N then [] :: split_char d r
      else
        match split_char d r with
        | p :: ps => (c :: p) :: ps
        | [] => [[c]]
        end
  end.

(** [s.replace(/^\//, '')]. *)
Definition dropSlash (s : jsstring) : jsstring :=
  match s with
  | 47%N :: r => r
  | _ => s
  end.

Record Command := {
  command : jsstring;
  args : jsstring;
  argList : list jsstring
}.

Section Platform.

(** [String.prototype.toLowerCase], the platform's case mapping. *)
Variable toLowerCase : jsstring -> jsstring.

(** [parseCommand(text)].  [split] never returns an empty array, so
    [parts[0]] and [split('@')[0]] are always there. *)
Definition parseCommand (text : jsstring) : Command :=
  let parts := split_ws false (trim text) in
  let command :=
    hd [] (split_char 64 (dropSlash (toLowerCase (hd [] parts)))) in
  let argList := tl parts in
  let args := join (lit " ") argList in
  {| command := command; args := args; argList := argList |}.

(** [getFileExtension(filename)]. *)
Definition getFileExtension (filename : jsstring) : jsstring :=
  let parts := split_char 46 filename in
  if (1 <? List.length parts)%nat then toLowerCase (last parts []) else [].

End Platform.

(** [array.slice(start, end)]: both indices count from the end when
    negative and are clamped to the array. *)
Definition slice {T} (array : list T) (from to : Z) : list T :=
  let len := Z.of_nat (List.length array) in
  let k := Adapter.relative len from in
  let final := Adapter.relative len to in
  firstn (Z.to_nat (final - k)) (skipn (Z.to_nat k) array).

(** [chunkArray(array, chunkSize)].  The loop
    [for (let i = 0; i < array.length; i += chunkSize)] need not end;
    [fuel] bounds the number of times its test is evaluated, and [None]
    tells that the bound was reached. *)
Fixpoint chunk_loop {T} (fuel : nat) (array : list T) (chunkSize i : Z)
  (chunks : list (list T)) : option (list (list T)) :=
  match fuel with
  | O => None
  | S fuel' =>
      if i <? Z.of_nat (List.length array)
      then chunk_loop fuel' array chunkSize (i + chunkSize)
             (chunks ++ [slice array i (i + chunkSize)])
      else Some chunks
  end.

Definition chunkArray {T} (fuel : nat) (array : list T) (chunkSize : Z)
  : option (list (list T)) :=
  chunk_loop fuel array chunkSize 0 [].

End Helpers.

(** ** The argument string of the media command ([commands/mediainfo.ts]) *)

Module Invocation.

(** The argument string of [mediainfoCommand]:
    [text.split(/\s+/).slice(1).join(' ').trim()], where [text] is
    [message.text || '']. *)
Definition mediainfoArgs (message_text : option jsstring) : jsstring :=
  let text := or_str message_text [] in
  trim (join (lit " ") (tl (Helpers.split_ws false text))).

End Invocation.

(** ** The styled text report and the image request
       ([services/mediainfo-image.ts]) *)

Module Report.

Import Normalizer.

(** The local [escapeHtml]: five passes over the text, [&] first. *)
Definition escapeHtml (str : jsstring) : jsstring :=
  Helpers.replaceAll Helpers.apos (lit "&#039;")
    (Helpers.replaceAll Helpers.quot (lit "&quot;")
       (Helpers.replaceAll Helpers.rang (lit "&gt;")
          (Helpers.replaceAll Helpers.lang (lit "&lt;")
             (Helpers.replaceAll Helpers.amp (lit "&amp;") str)))).

(** U+1F4C1 (a surrogate pair), five times U+2501, U+2764 U+FE0F. *)
Definition folder : jsstring := [55357; 56513]%N.
Definition rule : jsstring := repeat 9473%N 5.
Definition heart : jsstring := [10084; 65039]%N.

Definition heading (title : string) : jsstring :=
  rule ++ lit " <b>" ++ lit title ++ lit "</b> " ++ rule.

(** [[...new Set(xs)]]: the distinct members of [xs], each at the place
    of its first occurrence. *)
Fixpoint distinct (seen xs : list jsstring) : list jsstring :=
  match xs with
  | [] => []
  | x :: r =>
      if existsb (eqb x) seen then distinct seen r
      else x :: distinct (x :: seen) r
  end.

(** The loop [for (let i = 0; i < subList.length; i += 4)] that pushes
    [subList.slice(i, i + 4).join('  ')]. *)
Equations rows (subList : list jsstring) (i : Z) : list jsstring
  by wf (Z.to_nat (Z.of_nat (List.length subList) - i)) lt :=
  rows subList i with Z_lt_dec i (Z.of_nat (List.length subList)) := {
    | left _ =>
        join (lit "  ") (Helpers.slice subList i (i + 4)) :: rows subList (i + 4)
    | right _ => [] }.
Next Obligation. lia. Qed.

Definition generalLines (g : General) : list jsstring :=
  [ heading "GENERAL";
    lit "<code>Container:</code>     " ++ g_container g;
    lit "<code>Size:</code>          " ++ g_size g;
    lit "<code>Runtime:</code>       " ++ g_runtime g;
    lit "<code>Bitrate:</code>       " ++ g_bitrate g;
    [] ].

Definition videoLines (video : option Video) : list jsstring :=
  match video with
  | Some v =>
      [ heading "VIDEO";
        lit "<code>Codec:</code>        " ++ v_codec v;
        lit "<code>Resolution:</code>   " ++ v_resolution v;
        lit "<code>Aspect Ratio:</code> " ++ v_aspectRatio v;
        lit "<code>Frame Rate:</code>   " ++ v_frameRate v;
        lit "<code>Bitrate:</code>      " ++ v_bitrate v;
        lit "<code>Bit Depth:</code>    " ++ v_bitDepth v;
        [] ]
  | None => []
  end.

Definition audioLine (a : Audio) : list jsstring :=
  let defaultBadge := if a_isDefault a then lit " [DEFAULT]" else [] in
  [ lit "#" ++ dec (a_index a + 1) ++ lit ": " ++ a_flag a ++ lit " "
    ++ a_language a ++ lit " " ++ a_channels a ++ lit " " ++ a_codec a
    ++ lit " @ " ++ a_bitrate a ++ defaultBadge ]
  ++ (if truthy_opt_str (a_title a)
      then [ lit "     <i>" ++ escapeHtml (or_str (a_title a) []) ++ lit "</i>" ]
      else []).

Definition audioLines (audio : list Audio) : list jsstring :=
  match audio with
  | [] => []
  | _ :: _ => [heading "AUDIO"] ++ flat_map audioLine audio ++ [[]]
  end.

Definition subtitleLabel (s : Subtitle) : jsstring :=
  lit "#" ++ dec (s_index s) ++ lit " " ++ s_format s ++ lit " " ++ s_language s.

Definition subtitleLines (subtitles : list Subtitle) : list jsstring :=
  match subtitles with
  | [] => []
  | _ :: _ =>
      let subList := map subtitleLabel subtitles in
      [heading "TEXT"] ++ rows subList 0 ++ [[]]
      ++ [join (lit " ") (distinct [] (map s_flag subtitles))]
  end.

Definition styledLines (parsed : ParsedMediaInfo) : list jsstring :=
  [ folder ++ lit " <b>" ++ escapeHtml (filename parsed) ++ lit "</b>"; [] ]
  ++ generalLines (general parsed)
  ++ videoLines (video parsed)
  ++ audioLines (audio parsed)
  ++ subtitleLines (subtitles parsed)
  ++ [ []; lit "<i>Made with " ++ heart ++ lit " by Zyfora</i>" ].

(** [formatMediaInfoStyledText(parsed)]. *)
Definition formatMediaInfoStyledText (parsed : ParsedMediaInfo) : jsstring :=
  join [10%N] (styledLines parsed).

(** *** The image request *)

Record ImageResult := {
  i_success : bool;
  i_url : option JsonField;
  i_error : option jsstring
}.

Definition image_failed (msg : jsstring) : ImageResult :=
  {| i_success := false; i_url := None; i_error := Some msg |}.

Section Image.

Variable World : Type.
Variable fetch : Request -> World -> Result Response * World.

(** [btoa] throws on a code unit above 255; [JSON.stringify] of the
    request object is total.  Both are the platform's. *)
Variable btoa : jsstring -> Result jsstring.
Variable JSON_stringify : list (jsstring * JsonField) -> jsstring.

Definition image_request (html : jsstring) : list (jsstring * JsonField) :=
  [ (lit "html", JString html);
    (lit "css", JString []);
    (lit "google_fonts", JString (lit "JetBrains Mono"));
    (lit "viewport_width", JNumber 900);
    (lit "viewport_height", JNumber 1200);
    (lit "device_scale", JNumber 2) ].

(** [generateMediaInfoImage(html, apiUserId, apiKey)]. *)
Definition generateMediaInfoImage (html : jsstring)
  (apiUserId apiKey : option jsstring) : M (Run World) ImageResult :=
  if negb (truthy_opt_str apiUserId) || negb (truthy_opt_str apiKey)
  then ret (image_failed (lit "Image generation API credentials not configured"))
  else
    (try_catch
       (credentials <-? ret (btoa (or_str apiUserId [] ++ lit ":"
                                   ++ or_str apiKey [])) ;;
        response <-? fetchM fetch
          {| url := lit "https://hcti.io/v1/image";
             method := lit "POST";
             headers := [ (lit "Content-Type", lit "application/json");
                          (lit "Authorization", lit "Basic " ++ credentials) ];
             body := TextBody (JSON_stringify (image_request html)) |} ;;
        if negb (ok response)
        then
          text <-? ret (Http.text response) ;;
          throw (lit "HCTI API returned " ++ dec (status response)
                 ++ lit ": " ++ text)
        else
          data <-? ret (json response) ;;
          match data with
          | JsonNull => throw (lit "Cannot read properties of null (reading 'url')")
          | JsonObject members =>
              let url := member (lit "url") members in
              if truthy_field url
              then xret {| i_success := true; i_url := url; i_error := None |}
              else throw (lit "Invalid response from HCTI API")
          end)
       (fun msg => ret (image_failed msg)))%eff.

End Image.

End Report.

(** ** The formatters of the engine adapter ([services/mediainfo.ts]) *)

Module Service.

(** [formatDuration(ms)]. *)
Definition formatDuration (ms : Z) : jsstring :=
  let seconds := floor_quotient ms 1000 in
  let minutes := floor_quotient seconds 60 in
  let hours := floor_quotient minutes 60 in
  if 0 <? hours
  then dec hours ++ lit "h " ++ dec (Z.rem minutes 60) ++ lit "m "
       ++ dec (Z.rem seconds 60) ++ lit "s"
  else if 0 <? minutes
  then dec minutes ++ lit "m " ++ dec (Z.rem seconds 60) ++ lit "s"
  else dec seconds ++ lit "s".

(** [formatBitrate(bps)]. *)
Definition formatBitrate (bps : Z) : jsstring :=
  if 1000000 <=? bps
  then toFixed 2 (fdiv (of_Z bps) (of_Z 1000000)) ++ lit " Mbps"
  else if 1000 <=? bps
  then toFixed 1 (fdiv (of_Z bps) (of_Z 1000)) ++ lit " Kbps"
  else dec bps ++ lit " bps".

(** [formatSampleRate(hz)]. *)
Definition formatSampleRate (hz : Z) : jsstring :=
  if 1000 <=? hz
  then toFixed 1 (fdiv (of_Z hz) (of_Z 1000)) ++ lit " kHz"
  else dec hz ++ lit " Hz".

End Service.

(** ** Vocabulary of the further properties *)

Module Props.

Import Normalizer.

(** *** Escaping *)

(** What the escape puts in the place of one character. *)
Definition entity (c : N) : jsstring :=
  if (c =? Helpers.amp)%N then lit "&amp;"
  else if (c =? Helpers.lang)%N then lit "&lt;"
  else if (c =? Helpers.rang)%N then lit "&gt;"
  else if (c =? Helpers.quot)%N then lit "&quot;"
  else [c].

Definition entity_names : list jsstring :=
  [lit "amp;"; lit "lt;"; lit "gt;"; lit "quot;"].

(** The same for the escape of the report module, which also replaces
    the single quote. *)
Definition entity5 (c : N) : jsstring :=
  if (c =? Helpers.amp)%N then lit "&amp;"
  else if (c =? Helpers.lang)%N then lit "&lt;"
  else if (c =? Helpers.rang)%N then lit "&gt;"
  else if (c =? Helpers.quot)%N then lit "&quot;"
  else if (c =? Helpers.apos)%N then lit "&#039;"
  else [c].

Definition entity5_names : list jsstring :=
  [lit "amp;"; lit "lt;"; lit "gt;"; lit "quot;"; lit "#039;"].

(** *** Words and white space *)

Definition blank (s : jsstring) : Prop :=
  Forall (fun c => isWhiteSpace c = true) s.

Definition gap (s : jsstring) : Prop := s <> [] /\ blank s.

Definition word (s : jsstring) : Prop :=
  s <> [] /\ Forall (fun c => isWhiteSpace c = false) s.

(** A first word followed by further words, each after a gap. *)
Definition spaced (w0 : jsstring) (more : list (jsstring * jsstring)) : jsstring :=
  w0 ++ List.concat (map (fun p => fst p ++ snd p) more).

Definition spacing (more : list (jsstring * jsstring)) : Prop :=
  Forall (fun p => gap (fst p) /\ word (snd p)) more.

(** [w] put in front of the first piece of [l]. *)
Definition prepend (w : jsstring) (l : list jsstring) : list jsstring :=
  match l with
  | p :: ps => (w ++ p) :: ps
  | [] => [w]
  end.

(** The empty piece a trailing run of white space leaves behind. *)
Definition tail_piece (trail : jsstring) : list jsstring :=
  match trail with [] => [] | _ :: _ => [[]] end.

(** *** Groups *)

(** [groups] cuts [all] into consecutive groups of [n], the last one
    possibly shorter, none empty. *)
Definition partitioned {T} (n : Z) (groups : list (list T)) (all : list T) : Prop :=
  List.concat groups = all
  /\ Forall (fun g => 0 < Z.of_nat (List.length g) <= n) groups
  /\ Forall (fun g => Z.of_nat (List.length g) = n) (removelast groups).

(** *** Tracks *)

(** Tracks by type, as the normalizer's [switch] tells them apart. *)
Definition is_video (t : MediaInfoTrack) : bool := eqb (type_ t) (lit "Video").

Definition is_text (t : MediaInfoTrack) : bool := eqb (type_ t) (lit "Text").

(** The tracks grouped by type, each group in its original order; tracks
    of any other type are left out. *)
Definition grouped (ts : list MediaInfoTrack) : list MediaInfoTrack :=
  filter Spec.is_general ts ++ filter is_video ts
  ++ filter Spec.is_audio ts ++ filter is_text ts.

Section Entries.
Variable toUpperCase toLowerCase : jsstring -> jsstring.

(** The subtitle entries a list of tracks gives rise to, numbered from
    [i]. *)
Fixpoint texts (i : Z) (ts : list MediaInfoTrack) : list Subtitle :=
  match ts with
  | [] => []
  | t :: r =>
      if is_text t
      then subtitleOf toUpperCase toLowerCase i t :: texts (i + 1) r
      else texts i r
  end.
End Entries.

(** The clock reading of a duration: hours, minutes, seconds. *)
Definition clock_reading (ms h m s : Z) : Prop :=
  0 <= h /\ 0 <= m < 60 /\ 0 <= s < 60 /\ ms / 1000 = h * 3600 + m * 60 + s.

(** The last two lines of the styled text. *)
Definition footer : list jsstring :=
  [ []; lit "<i>Made with " ++ Report.heart ++ lit " by Zyfora</i>" ].

(** A result of the image request carries a URL when it succeeded and a
    message when it failed. *)
Definition well_formed (r : Report.ImageResult) : Prop :=
  if Report.i_success r
  then truthy_field (Report.i_url r) = true /\ Report.i_error r = None
  else Report.i_url r = None /\ exists msg, Report.i_error r = Some msg.

(** *** The engine *)

(** The options of a pass in the given output format. *)
Definition pass (f : string) : Adapter.Options :=
  {| Adapter.format := lit f; Adapter.chunkSize := 5 * 1024 * 1024;
     Adapter.coverData := false; Adapter.full := true |}.

(** An engine that does nothing and never fails, over a world without
    state. *)
Definition idle_create (w : unit) : Result Adapter.Options * unit :=
  (inr {| Adapter.format := lit "object"; Adapter.chunkSize := 256 * 1024;
          Adapter.coverData := false; Adapter.full := true |}, w).

Definition idle_analyze (o : Adapter.Options) (size : Z)
  (readChunk : Z -> Z -> list N) (w : unit) : Result MediaInfoResult * unit :=
  (inr {| media := None |}, w).

Definition idle_unit (w : unit) : Result unit * unit := (inr tt, w).

Definition idle_inform (w : unit) : Result jsstring * unit := (inr [], w).

Definition idle_clock (w : unit) : Z := 0.

(** *** Transfers *)

(** A GET answer the downloader cannot use: the call was rejected, the
    status is neither a success nor 206, or the body cannot be read. *)
Definition unusable (r : Result Response) : Prop :=
  match r with
  | inl _ => True
  | inr response =>
      (ok response = false /\ status response <> 206)
      \/ exists msg, arrayBuffer response = inl msg
  end.

Definition token_endpoint : jsstring :=
  lit "https://www.googleapis.com/oauth2/v4/token".

Definition files_endpoint (fileId : jsstring) : jsstring :=
  lit "https://www.googleapis.com/drive/v3/files/" ++ fileId ++ lit "?".

(** The two kinds of request a Drive download makes: the token request,
    and a GET without body on the file, authorized by a bearer token
    and possibly ranged. *)
Definition drive_request (fileId : jsstring) (maxBytes : Z) (req : Request) : Prop :=
  (url req = token_endpoint /\ method req = lit "POST")
  \/ (Spec.StartsWith (files_endpoint fileId) (url req)
      /\ method req = lit "GET" /\ body req = NoBody
      /\ exists token,
           headers req = [bearer token]
           \/ headers req = [bearer token; range_header maxBytes]).

(** [after] extends [before] by at most [n] such requests. *)
Definition drive_requests (fileId : jsstring) (maxBytes : Z) (n : nat)
  (before after : list Event) : Prop :=
  exists new,
    after = before ++ new
    /\ Forall (fun ev => drive_request fileId maxBytes (fst ev)) new
    /\ (List.length new <= n)%nat.

(** A client that holds a token valid until the given time. *)
Definition holding (token : jsstring) (expiry : Z) : GoogleDriveClient :=
  {| clientId := lit "id"; clientSecret := lit "secret";
     refreshToken := lit "refresh"; accessToken := Some token;
     tokenExpiry := Some expiry |}.

(** Stand-ins for [btoa] and [JSON.stringify]. *)
Definition plain_btoa (s : jsstring) : Result jsstring := inr s.

Definition no_stringify (o : list (jsstring * JsonField)) : jsstring := [].

(** A track list with an unknown type and two video tracks. *)
Definition mixed_tracks : list MediaInfoTrack :=
  [ Spec.video_track 640 480; bare "Menu"; bare "Audio"; bare "Text";
    Spec.video_track 1920 1080; bare "Audio" ].

(** A report with five subtitles in two languages. *)
Definition subtitle (i : Z) (lang : string) : Subtitle :=
  {| s_index := i; s_format := lit "SRT"; s_language := lit lang;
     s_flag := lit lang; s_title := None |}.

Definition five_subtitles : ParsedMediaInfo :=
  {| filename := lit "a.mkv"; general := general (initial []);
     video := None; audio := [];
     subtitles := [ subtitle 0 "En"; subtitle 1 "Fr"; subtitle 2 "En";
                    subtitle 3 "Fr"; subtitle 4 "En" ] |}.

End Props.

(* ===================================================================== *)
(** * Part II: lemmas and theorems *)
(* ===================================================================== *)

Import Normalizer Spec.

(** ** Strings *)

Lemma eqb_eq (s t : jsstring) : eqb s t = true <-> s = t.
Proof.
  revert t; induction s as [|a s IH]; intros [|b t]; simpl;
    try (split; [discriminate | discriminate]); try tauto.
  rewrite andb_true_iff, N.eqb_eq, IH.
  split; [intros [-> ->]; reflexivity | intros H; injection H; auto].
Qed.

Lemma eqb_refl (s : jsstring) : eqb s s = true.
Proof. apply eqb_eq; reflexivity. Qed.

Lemma eqb_neq (s t : jsstring) : eqb s t = false <-> s <> t.
Proof.
  rewrite <- eqb_eq. destruct (eqb s t); split; congruence.
Qed.

Lemma startsWith_spec (p s : jsstring) :
  startsWith p s = true <-> StartsWith p s.
Proof.
  unfold StartsWith. revert s; induction p as [|a p IH]; intros s; simpl.
  - split; [exists s; reflexivity | reflexivity].
  - destruct s as [|b s].
    + split; [discriminate | intros [r H]; discriminate].
    + rewrite andb_true_iff, N.eqb_eq, IH. split.
      * intros [-> [r ->]]. exists r; reflexivity.
      * intros [r H]. injection H as -> ->. split; [reflexivity | eauto].
Qed.

Lemma includes_spec (sub s : jsstring) :
  includes sub s = true <-> Mentions sub s.
Proof.
  unfold Mentions. induction s as [|c s IH].
  - simpl. rewrite orb_false_r, startsWith_spec. split.
    + intros [r H]. exists [], r. exact H.
    + intros [pre [post H]]. destruct pre; [|discriminate].
      exists post. exact H.
  - cbn [includes]. rewrite orb_true_iff, startsWith_spec, IH. split.
    + intros [[r H] | [pre [post H]]].
      * exists [], r. exact H.
      * exists (c :: pre), post. simpl. rewrite H. reflexivity.
    + intros [[|c' pre] [post H]].
      * left. exists post. exact H.
      * right. injection H as _ H. exists pre, post. exact H.
Qed.

Lemma truthy_str_true (s : jsstring) : truthy_str s = true <-> s <> [].
Proof. destruct s; simpl; split; congruence. Qed.

(** ** The normalizer *)

Section NormalizerFacts.

Variable toUpperCase toLowerCase : jsstring -> jsstring.
Variable formatFileSize : Z -> jsstring.

Notation visit := (visit toUpperCase toLowerCase formatFileSize).
Notation parseMediaInfo := (parseMediaInfo toUpperCase toLowerCase formatFileSize).
Notation audioOf := (audioOf toUpperCase toLowerCase).
Notation audios := (audios toUpperCase toLowerCase).

Lemma visit_audio (st : LoopState) (t : MediaInfoTrack) :
  is_audio t = true ->
  audio (parsed (visit st t)) = audio (parsed st) ++ [audioOf (audioIndex st) t]
  /\ audioIndex (visit st t) = audioIndex st + 1.
Proof.
  unfold is_audio, Normalizer.visit. intros H.
  apply eqb_eq in H. rewrite H. simpl. split; reflexivity.
Qed.

Lemma visit_other (st : LoopState) (t : MediaInfoTrack) :
  is_audio t = false ->
  audio (parsed (visit st t)) = audio (parsed st)
  /\ audioIndex (visit st t) = audioIndex st.
Proof.
  unfold is_audio, Normalizer.visit. intros H. rewrite H.
  destruct (eqb (type_ t) (lit "General")); [split; reflexivity|].
  destruct (eqb (type_ t) (lit "Video")); [split; reflexivity|].
  destruct (eqb (type_ t) (lit "Text")); split; reflexivity.
Qed.

Lemma fold_audio (ts : list MediaInfoTrack) (st : LoopState) :
  audio (parsed (fold_left visit ts st))
  = audio (parsed st) ++ audios (audioIndex st) ts.
Proof.
  revert st; induction ts as [|t ts IH]; intros st; simpl.
  - rewrite app_nil_r. reflexivity.
  - rewrite IH. destruct (is_audio t) eqn:E.
    + destruct (visit_audio st t E) as [-> ->].
      rewrite <- app_assoc. reflexivity.
    + destruct (visit_other st t E) as [-> ->]. reflexivity.
Qed.

Lemma parse_audio (ts : list MediaInfoTrack) (name : jsstring) :
  audio (parseMediaInfo {| media := Some {| track := ts |} |} name)
  = audios 0 ts.
Proof.
  unfold Normalizer.parseMediaInfo. simpl. rewrite fold_audio. reflexivity.
Qed.

Lemma audios_Forall2 (P : MediaInfoTrack -> Audio -> Prop) :
  (forall i t, is_audio t = true -> P t (audioOf i t)) ->
  forall ts i, Forall2 P (filter is_audio ts) (audios i ts).
Proof.
  intros HP ts. induction ts as [|t ts IH]; intros i; simpl.
  - constructor.
  - destruct (is_audio t) eqn:E; [constructor; auto | auto].
Qed.

(** C10.  In the report of any list of tracks, the audio entries are
    those of the Audio tracks, in order; an entry whose track has no
    channel count reads "2ch", and an entry whose track has no bit rate
    reads "Variable". *)
Theorem audio_absent_defaults (ts : list MediaInfoTrack) (name : jsstring) :
  Forall2
    (fun t a =>
       (Channels t = None -> a_channels a = lit "2ch")
       /\ (BitRate t = None -> a_bitrate a = lit "Variable"))
    (filter is_audio ts)
    (audio (parseMediaInfo {| media := Some {| track := ts |} |} name)).
Proof.
  rewrite parse_audio. apply audios_Forall2.
  intros i t _. unfold Normalizer.audioOf. simpl. split; intros ->; reflexivity.
Qed.

End NormalizerFacts.

(** An instance: one Audio track without any field. *)
Lemma audio_absent_defaults_witness :
  exists a,
    audio (parseMediaInfo asciiUpper asciiLower dec
             {| media := Some {| track := [bare "Audio"] |} |} (lit "a.mkv"))
    = [a]
    /\ a_channels a = lit "2ch" /\ a_bitrate a = lit "Variable".
Proof.
  pose proof (audio_absent_defaults asciiUpper asciiLower dec
                [bare "Audio"] (lit "a.mkv")) as H.
  remember (audio _) as l eqn:E in H.
  simpl filter in H. inversion H as [|t a ts l' [Hc Hb] Hrest]; subst.
  inversion Hrest; subst.
  exists a. split; [symmetry; assumption|].
  split; [apply Hc | apply Hb]; reflexivity.
Defined.

Section CodecFacts.

Variable toUpperCase toLowerCase : jsstring -> jsstring.
Variable formatFileSize : Z -> jsstring.

Lemma codec_truehd (t : MediaInfoTrack) :
  has_profile t -> truehd_family t ->
  (commercial_atmos t -> audioFormatOf t = lit "MLP FBA (Dolby Atmos)")
  /\ (~ commercial_atmos t -> audioFormatOf t = lit "MLP FBA").
Proof.
  intros [p [Hp Hne]] [f [Hf Hfam]]. unfold audioFormatOf.
  rewrite Hp, Hf. apply truthy_str_true in Hne. rewrite Hne.
  assert (Hf' : or_str (Some f) (lit "Unknown") = f).
  { unfold or_str. destruct f; [|reflexivity].
    destruct Hfam as [H | [pre [post H]]]; [discriminate|].
    destruct pre; discriminate. }
  rewrite Hf'.
  assert (Hfam' : eqb f (lit "MLP FBA") || includes (lit "TrueHD") f = true).
  { apply orb_true_iff. destruct Hfam as [-> | H].
    - left. apply eqb_refl.
    - right. apply includes_spec. exact H. }
  rewrite Hfam'. unfold commercial_atmos.
  destruct (Format_Commercial_IfAny t) as [c|].
  - destruct (includes (lit "Atmos") c) eqn:E.
    + split; [reflexivity|]. intros H. exfalso. apply H.
      exists c. split; [reflexivity | apply includes_spec; exact E].
    + split; [|reflexivity]. intros [c' [Hc' Hm]]. injection Hc' as <-.
      apply includes_spec in Hm. congruence.
  - split; [|reflexivity]. intros [c' [Hc' _]]. discriminate.
Qed.

Lemma codec_dts (t : MediaInfoTrack) :
  dts_ma t -> audioFormatOf t = lit "DTS-HD MA".
Proof.
  intros [Hf [p [Hp Hm]]]. unfold audioFormatOf. rewrite Hp, Hf.
  assert (Hne : truthy_str p = true).
  { apply truthy_str_true. intros ->. destruct Hm as [pre [post H]].
    destruct pre; discriminate. }
  rewrite Hne. apply includes_spec in Hm.
  change (or_str (Some (lit "DTS")) (lit "Unknown")) with (lit "DTS").
  change (eqb (lit "DTS") (lit "MLP FBA") || includes (lit "TrueHD") (lit "DTS"))
    with false.
  cbv iota. rewrite eqb_refl, Hm. reflexivity.
Qed.

(** C8, as amended.  In the report of any list of tracks, an audio entry
    whose track carries a non-empty profile field and whose base format
    is "MLP FBA" or mentions "TrueHD" is labelled "MLP FBA", with
    " (Dolby Atmos)" appended exactly when the commercial name mentions
    "Atmos"; an entry whose base format is "DTS" and whose profile
    mentions "MA" is labelled "DTS-HD MA". *)
Theorem codec_label_with_profile (ts : list MediaInfoTrack) (name : jsstring) :
  Forall2
    (fun t a =>
       (has_profile t -> truehd_family t ->
        (commercial_atmos t -> a_codec a = lit "MLP FBA (Dolby Atmos)")
        /\ (~ commercial_atmos t -> a_codec a = lit "MLP FBA"))
       /\ (dts_ma t -> a_codec a = lit "DTS-HD MA"))
    (filter is_audio ts)
    (audio (parseMediaInfo toUpperCase toLowerCase formatFileSize
              {| media := Some {| track := ts |} |} name)).
Proof.
  rewrite parse_audio. apply audios_Forall2.
  intros i t _. unfold audioOf. simpl. split.
  - apply codec_truehd.
  - apply codec_dts.
Qed.

End CodecFacts.

(** An instance: a TrueHD track that does carry a profile. *)
Lemma codec_label_with_profile_witness :
  exists a,
    audio (parseMediaInfo asciiUpper asciiLower dec
             {| media := Some {| track := [truehd_track (Some (lit "TrueHD+Atmos"))] |} |}
             (lit "a.mkv"))
    = [a]
    /\ a_codec a = lit "MLP FBA (Dolby Atmos)".
Proof.
  pose proof (codec_label_with_profile asciiUpper asciiLower dec
                [truehd_track (Some (lit "TrueHD+Atmos"))] (lit "a.mkv")) as H.
  remember (audio _) as l eqn:E in H.
  simpl filter in H. inversion H as [|t a ts l' [Hc _] Hrest]; subst.
  inversion Hrest; subst.
  exists a. split; [symmetry; assumption|].
  apply Hc.
  - exists (lit "TrueHD+Atmos"). split; [reflexivity | discriminate].
  - exists (lit "TrueHD"). split; [reflexivity|]. right.
    exists [], []. reflexivity.
  - exists (lit "Dolby TrueHD with Dolby Atmos"). split; [reflexivity|].
    exists (lit "Dolby TrueHD with Dolby "), []. reflexivity.
Defined.

(** C8 as stated fails: without a profile field the label is left as the
    engine gave it.  An "MLP FBA" track whose commercial name mentions
    Atmos stays "MLP FBA", and a "TrueHD" track stays "TrueHD". *)
Lemma codec_label_counterexample :
  (is_audio atmos_track = true
   /\ truehd_family atmos_track
   /\ commercial_atmos atmos_track
   /\ a_codec (audioOf asciiUpper asciiLower 0 atmos_track)
      <> lit "MLP FBA (Dolby Atmos)")
  /\ (is_audio (truehd_track None) = true
      /\ truehd_family (truehd_track None)
      /\ a_codec (audioOf asciiUpper asciiLower 0 (truehd_track None))
         = lit "TrueHD").
Proof.
  repeat split.
  - exists (lit "MLP FBA"). split; [reflexivity | left; reflexivity].
  - exists (lit "Dolby TrueHD with Dolby Atmos"). split; [reflexivity|].
    exists (lit "Dolby TrueHD with Dolby "), []. reflexivity.
  - discriminate.
  - exists (lit "TrueHD"). split; [reflexivity|]. right.
    exists [], []. reflexivity.
Qed.

(** ** The normalizer on raw tracks *)

Section RawFacts.

Variable toUpperCase toLowerCase : jsstring -> jsstring.
Variable formatFileSize : Z -> jsstring.

Notation rvisit := (Raw.visit toUpperCase toLowerCase formatFileSize).
Notation rloop := (Raw.loop toUpperCase toLowerCase formatFileSize).
Notation rparse := (Raw.parseMediaInfo toUpperCase toLowerCase formatFileSize).
Notation visit := (visit toUpperCase toLowerCase formatFileSize).
Notation parseMediaInfo := (parseMediaInfo toUpperCase toLowerCase formatFileSize).












End RawFacts.



(** The normalizer on a small result, field by field. *)
Example normalizer_sample :
  parseMediaInfo asciiUpper asciiLower dec sample_result (lit "a.mkv")
  = {| filename := lit "a.mkv";
       general := {| g_container := lit "Matroska";
                     g_size := lit "Unknown";
                     g_runtime := lit "1 h 23 min";
                     g_bitrate := lit "8.5 Mb/s" |};
       video := Some {| v_codec := lit "AVC";
                        v_resolution := lit "1920x1080";
                        v_aspectRatio := lit "16:9";
                        v_frameRate := lit "24";
                        v_frameCount := lit "120600";
                        v_bitrate := lit "8.0 Mb/s";
                        v_bitDepth := lit "8 bits" |};
       audio := [ {| a_index := 0;
                     a_language := lit "En";
                     a_flag := flag "US";
                     a_codec := lit "DTS-HD MA";
                     a_channels := lit "6ch";
                     a_bitrate := lit "Variable";
                     a_title := Some (lit "Surround");
                     a_isDefault := true |} ];
       subtitles := [ {| s_index := 0;
                         s_format := lit "UTF-8";
                         s_language := lit "Fr";
                         s_flag := flag "FR";
                         s_title := None |} ] |}.
Proof. vm_compute. reflexivity. Qed.

(** ** The aspect ratio *)

Lemma gcd_Zgcd (a b : Z) : 0 <= a -> 0 <= b -> gcd a b = Z.gcd a b.
Proof.
  funelim (gcd a b); intros Ha Hb.
  - subst. rewrite Z.gcd_0_r. symmetry. apply Z.abs_eq. exact Ha.
  - rewrite H.
    + rewrite Z.rem_mod_nonneg by lia.
      rewrite Z.gcd_comm, Z.gcd_mod by exact n. apply Z.gcd_comm.
    + exact Hb.
    + apply Z.rem_nonneg; lia.
Qed.

(** C3.  The third example of the rule fails: 1920x800 is not reported
    as "2.39:1" but as "2.35:1".  The test of 2.35 comes first in the
    chain and covers every ratio from 2.25 to 2.45, so that the test of
    2.39 is reached above 2.45 only: a ratio of exactly 2.39 (239x100,
    2048x858) is reported as "2.35:1" as well.  The first two examples
    hold. *)
Lemma aspect_ratio_counterexample :
  v_aspectRatio (videoOf (video_track 1920 800)) = lit "2.35:1"
  /\ v_aspectRatio (videoOf (video_track 1920 800)) <> lit "2.39:1"
  /\ v_aspectRatio (videoOf (video_track 239 100)) = lit "2.35:1"
  /\ v_aspectRatio (videoOf (video_track 2048 858)) = lit "2.35:1"
  /\ v_aspectRatio (videoOf (video_track 1920 1080)) = lit "16:9"
  /\ v_aspectRatio (videoOf (video_track 720 480)) = lit "3:2".
Proof.
  split; [vm_compute; reflexivity|].
  split; [vm_compute; discriminate|].
  repeat split; vm_compute; reflexivity.
Qed.

(** ** The engine adapter *)

Section AdapterFacts.

Import Adapter.

Variable World : Type.
Variable createMediaInfo : World -> Result Options * World.
Variable analyzeData :
  Options -> Z -> (Z -> Z -> list N) -> World -> Result MediaInfoResult * World.
Variable reset : World -> Result unit * World.
Variable inform : World -> Result jsstring * World.
Variable close : World -> Result unit * World.
Variable performance_now : World -> Z.

Notation analyzeMediaBuffer :=
  (analyzeMediaBuffer createMediaInfo analyzeData reset inform close
     performance_now).

Ltac closed_by mid :=
  exists mid; split; [reflexivity | repeat constructor].

(** C9.  Whatever the engine does, a run of the adapter on a created
    instance calls [close] exactly once, as the last call on the engine:
    after both passes succeeded, after the object pass threw, after the
    text pass threw, and after [reset], [inform] or [close] itself
    threw.  When the instance could not be created the error is
    propagated and there is nothing to close. *)
Theorem engine_released_on_every_path
  (fileBuffer : list N) (fileSize : Z) (filename : jsstring) (w : World) :
  let out := analyzeMediaBuffer fileBuffer fileSize filename (begin w) in
  match fst (createMediaInfo w) with
  | inl msg => fst out = inl msg /\ calls (snd out) = [CreateMediaInfo]
  | inr _ =>
      closed_exactly_once (calls (snd out))
      /\ List.length (filter is_close (calls (snd out))) = 1%nat
      /\ last (calls (snd out)) CreateMediaInfo = Close
  end.
Proof.
  unfold Adapter.analyzeMediaBuffer, try_finally, xbind, bind, xret, throw, ret,
    call, clock, set_format, getOptions, setOptions, analyzeDataM, call, begin.
  cbn.
  destruct (createMediaInfo w) as [[msg | o] w1] eqn:Ec; cbn.
  - split; reflexivity.
  - match goal with
    | |- context [analyzeData ?o ?n ?f w1] =>
        destruct (analyzeData o n f w1) as [[msg1 | res] w2] eqn:E1; cbn
    end.
    { destruct (close w2) as [[msgc | []] w3]; cbn;
        (split; [closed_by [AnalyzeData
                              {| format := lit "object"; chunkSize := 5 * 1024 * 1024;
                                 coverData := false; full := true |} fileSize]
                | split; reflexivity]). }
    destruct (reset w2) as [[msg2 | []] w3] eqn:E2; cbn.
    { destruct (close w3) as [[msgc | []] w4]; cbn;
        (split; [eexists [_; _]; split; [reflexivity | repeat constructor]
                | split; reflexivity]). }
    match goal with
    | |- context [analyzeData ?o ?n ?f w3] =>
        destruct (analyzeData o n f w3) as [[msg3 | res'] w4] eqn:E3; cbn
    end.
    { destruct (close w4) as [[msgc | []] w5]; cbn;
        (split; [eexists [_; _; _]; split; [reflexivity | repeat constructor]
                | split; reflexivity]). }
    destruct (inform w4) as [[msg4 | txt] w5] eqn:E4; cbn.
    { destruct (close w5) as [[msgc | []] w6]; cbn;
        (split; [eexists [_; _; _; _]; split; [reflexivity | repeat constructor]
                | split; reflexivity]). }
    destruct (close w5) as [[msgc | []] w6]; cbn;
      (split; [eexists [_; _; _; _]; split; [reflexivity | repeat constructor]
              | split; reflexivity]).
Qed.

End AdapterFacts.

(** ** The paste chain *)

Section PasteFacts.

Variable World : Type.
Variable fetch : Request -> World -> Result Response * World.

Notation attempt := (attempt fetch).

Lemma ok_range (response : Response) :
  ok response = true <-> 200 <= status response <= 299.
Proof. unfold ok. rewrite andb_true_iff, !Z.leb_le. tauto. Qed.

Lemma text_shape (p : Provider) (response : Response) (body : jsstring) :
  p <> Hastebin -> ok response = true -> Http.text response = inr body ->
  (truthy_str (trim body) && startsWith (url_prefix p) (trim body) = true ->
   accepts p (inr response) (trim body))
  /\ (truthy_str (trim body) && startsWith (url_prefix p) (trim body) = false ->
      rejects p (inr response)).
Proof.
  intros Hp Hok Ht. split.
  - intros H. apply andb_true_iff in H as [H1 H2].
    exists response. split; [reflexivity|]. split; [apply ok_range; exact Hok|].
    destruct p; try congruence;
      (exists body; repeat split;
       [exact Ht | apply truthy_str_true; exact H1 | apply startsWith_spec; exact H2]).
  - intros H u [response' [E [_ Hs]]]. injection E as <-.
    assert (Hb : exists body', Http.text response = inr body' /\ u = trim body'
                               /\ u <> [] /\ StartsWith (url_prefix p) u)
      by (destruct p; try congruence; exact Hs).
    destruct Hb as [body' [Ht' [-> [Hne Hsw]]]].
    rewrite Ht in Ht'. injection Ht' as <-.
    apply truthy_str_true in Hne. apply startsWith_spec in Hsw.
    rewrite Hne, Hsw in H. discriminate.
Qed.

Lemma not_ok_rejects (p : Provider) (response : Response) :
  ok response = false -> rejects p (inr response).
Proof.
  intros H u [response' [E [Hr _]]]. injection E as <-.
  apply ok_range in Hr. congruence.
Qed.

Lemma thrown_rejects (p : Provider) (msg : jsstring) : rejects p (inl msg).
Proof. intros u [response [E _]]. discriminate. Qed.

Lemma text_error_rejects (p : Provider) (response : Response) (msg : jsstring) :
  p <> Hastebin -> Http.text response = inl msg -> rejects p (inr response).
Proof.
  intros Hp Ht u [response' [E [_ Hs]]]. injection E as <-.
  destruct p; try congruence; destruct Hs as [body [Hb _]]; congruence.
Qed.

(** One attempt: a single POST to the provider's endpoint is added to
    the trace; the attempt succeeds with [u] exactly when the answer is
    accepted with [u], and otherwise reports [failure_message]. *)
Lemma attempt_spec (p : Provider) (content : jsstring) (title : option jsstring)
  (expiryDays : Z) (s : Run World) :
  exists ev,
    trace (snd (attempt p content title expiryDays s)) = trace s ++ [ev]
    /\ ((exists u, successful_attempt p ev u
                   /\ fst (attempt p content title expiryDays s) = succeeded u)
        \/ (failed_attempt p ev
            /\ fst (attempt p content title expiryDays s)
               = failed (failure_message p (snd ev)))).
Proof.
  destruct p; unfold Spec.attempt, uploadToPasteRs, uploadToDpaste, uploadTo0x0,
    uploadToHastebin, try_catch, xbind, bind, fetchM, caught, throw, xret, ret;
    match goal with
    | |- context [fetch ?req (world s)] =>
        destruct (fetch req (world s)) as [[msg | response] w'] eqn:Ef;
        cbn [fst snd trace];
        [ eexists; split; [reflexivity|]; right; split;
          [repeat split; apply thrown_rejects | reflexivity]
        | unfold failed_attempt, successful_attempt, failure_message;
          destruct (ok response) eqn:Hok; cbn [negb fst snd trace];
          [ | eexists; split; [reflexivity|]; right; split;
              [repeat split; apply not_ok_rejects; exact Hok
              | cbn [fst snd]; rewrite Hok; reflexivity] ] ]
    end.
  - destruct (Http.text response) as [msg | body] eqn:Ht; cbn [fst snd trace].
    + eexists; split; [reflexivity|]. right. split.
      * repeat split. eapply text_error_rejects; [discriminate | exact Ht].
      * cbn [fst snd body_error]. rewrite Hok, Ht. reflexivity.
    + destruct (text_shape (p := PasteRs) response ltac:(discriminate) Hok Ht)
        as [Hyes Hno].
      cbn [url_prefix] in Hyes, Hno.
      destruct (truthy_str (trim body) && startsWith (lit "https://paste.rs/") (trim body))
        eqn:E; cbn [fst snd trace].
      * eexists; split; [reflexivity|]. left. exists (trim body). split.
        -- repeat split. apply Hyes. reflexivity.
        -- reflexivity.
      * eexists; split; [reflexivity|]. right. split.
        -- repeat split. apply Hno. reflexivity.
        -- cbn [fst snd body_error]. rewrite Hok, Ht. reflexivity.
  - destruct (Http.text response) as [msg | body] eqn:Ht; cbn [fst snd trace].
    + eexists; split; [reflexivity|]. right. split.
      * repeat split. eapply text_error_rejects; [discriminate | exact Ht].
      * cbn [fst snd body_error]. rewrite Hok, Ht. reflexivity.
    + destruct (text_shape (p := Dpaste) response ltac:(discriminate) Hok Ht)
        as [Hyes Hno].
      cbn [url_prefix] in Hyes, Hno.
      destruct (truthy_str (trim body) && startsWith (lit "https://dpaste.org/") (trim body))
        eqn:E; cbn [fst snd trace].
      * eexists; split; [reflexivity|]. left. exists (trim body). split.
        -- repeat split. apply Hyes. reflexivity.
        -- reflexivity.
      * eexists; split; [reflexivity|]. right. split.
        -- repeat split. apply Hno. reflexivity.
        -- cbn [fst snd body_error]. rewrite Hok, Ht. reflexivity.
  - destruct (Http.text response) as [msg | body] eqn:Ht; cbn [fst snd trace].
    + eexists; split; [reflexivity|]. right. split.
      * repeat split. eapply text_error_rejects; [discriminate | exact Ht].
      * cbn [fst snd body_error]. rewrite Hok, Ht. reflexivity.
    + destruct (text_shape (p := ZeroXZero) response ltac:(discriminate) Hok Ht)
        as [Hyes Hno].
      cbn [url_prefix] in Hyes, Hno.
      destruct (truthy_str (trim body) && startsWith (lit "https://0x0.st/") (trim body))
        eqn:E; cbn [fst snd trace].
      * eexists; split; [reflexivity|]. left. exists (trim body). split.
        -- repeat split. apply Hyes. reflexivity.
        -- reflexivity.
      * eexists; split; [reflexivity|]. right. split.
        -- repeat split. apply Hno. reflexivity.
        -- cbn [fst snd body_error]. rewrite Hok, Ht. reflexivity.
  - destruct (json response) as [msg | [|members]] eqn:Hj; cbn [fst snd trace].
    + eexists; split; [reflexivity|]. right. split.
      * repeat split. intros u [response' [E [_ Hs]]]. injection E as <-.
        destruct Hs as [members [key [Hj' _]]]. congruence.
      * cbn [fst snd body_error]. rewrite Hok, Hj. reflexivity.
    + eexists; split; [reflexivity|]. right. split.
      * repeat split. intros u [response' [E [_ Hs]]]. injection E as <-.
        destruct Hs as [members [key [Hj' _]]]. congruence.
      * cbn [fst snd body_error]. rewrite Hok, Hj. reflexivity.
    + destruct (truthy_field (member (lit "key") members)) eqn:Hk;
        cbn [fst snd trace].
      * eexists; split; [reflexivity|]. left. eexists. split; [|reflexivity].
        repeat split. exists response. split; [reflexivity|].
        split; [apply ok_range; exact Hok|].
        destruct (member (lit "key") members) as [key|] eqn:Hm;
          [|discriminate Hk].
        exists members, key. repeat split; assumption.
      * eexists; split; [reflexivity|]. right. split.
        -- repeat split. intros u [response' [E [_ Hs]]]. injection E as <-.
           destruct Hs as [members' [key [Hj' [Hm [Ht _]]]]].
           rewrite Hj in Hj'. injection Hj' as <-. rewrite Hm in Hk. congruence.
        -- cbn [fst snd body_error]. rewrite Hok, Hj. reflexivity.
Qed.

Lemma mentions_in_join (head x : jsstring) (before after : list jsstring) :
  Mentions x (head ++ join (lit "; ") (before ++ x :: after)).
Proof.
  revert head. induction before as [|b before IH]; intros head.
  - destruct after as [|a after].
    + exists head, []. simpl. rewrite app_nil_r. reflexivity.
    + exists head, (lit "; " ++ join (lit "; ") (a :: after)). reflexivity.
  - specialize (IH (head ++ b ++ lit "; ")).
    destruct IH as [pre [post H]]. exists pre, post. rewrite <- H.
    change (join (lit "; ") ((b :: before) ++ x :: after))
      with (join (lit "; ") (b :: (before ++ x :: after))).
    destruct (before ++ x :: after) eqn:E.
    + destruct before; discriminate.
    + cbn [join]. rewrite <- !app_assoc. reflexivity.
Qed.

(** C1.  A run of the upload tries the four providers in the fixed order
    paste.rs, dpaste.org, 0x0.st, hastebin, one POST each.  An attempt
    succeeds only on a success status with a body of the provider's
    shape.  Either some provider is the first to succeed: the calls made
    are exactly those to the providers before it, all answered out of
    shape, followed by its own, and the result is its URL; or all four
    calls were made and failed, and the single failure message carries
    the four provider-specific messages. *)
Theorem paste_chain_fallback
  (content : jsstring) (title : option jsstring) (expiryDays : Z) (w : World) :
  let out := uploadToPastebin fetch content title expiryDays (start w) in
  let res := fst out in
  let tr := trace (snd out) in
  NoDup (map endpoint chain)
  /\ ((exists k evs ev p u,
         nth_error chain k = Some p
         /\ tr = evs ++ [ev]
         /\ map url (requests tr) = map endpoint (firstn (S k) chain)
         /\ Forall2 failed_attempt (firstn k chain) evs
         /\ successful_attempt p ev u
         /\ res = succeeded u)
      \/ (map url (requests tr) = map endpoint chain
          /\ Forall2 failed_attempt chain tr
          /\ res = failed (lit "All paste services failed: "
                           ++ join (lit "; ") (reports tr))
          /\ Forall (fun m => Mentions m (String_error res)) (reports tr)
          /\ List.length (reports tr) = 4%nat)).
Proof.
  cbv zeta. split.
  { repeat constructor; simpl; intuition discriminate. }
  unfold uploadToPastebin, bind, ret.
  destruct (attempt_spec PasteRs content title expiryDays (start w))
    as [ev1 [Ht1 H1]].
  cbn [Spec.attempt] in Ht1, H1.
  destruct (uploadToPasteRs fetch content (start w)) as [r1 s1].
  cbn [fst snd start trace] in Ht1, H1. cbn [app] in Ht1.
  destruct H1 as [[u [Hs ->]] | [Hf1 ->]]; cbn [success succeeded failed].
  { left. exists 0%nat, [], ev1, PasteRs, u. cbn [fst snd].
    rewrite Ht1. repeat split; try apply Hs; try constructor.
    simpl. destruct Hs as [-> _]. reflexivity. }
  destruct (attempt_spec Dpaste content title expiryDays s1) as [ev2 [Ht2 H2]].
  cbn [Spec.attempt] in Ht2, H2.
  destruct (uploadToDpaste fetch content title expiryDays s1) as [r2 s2].
  cbn [fst snd] in Ht2, H2. rewrite Ht1 in Ht2. cbn [app] in Ht2.
  destruct H2 as [[u [Hs ->]] | [Hf2 ->]]; cbn [success succeeded failed].
  { left. exists 1%nat, [ev1], ev2, Dpaste, u. cbn [fst snd].
    rewrite Ht2. repeat split; try apply Hs; try apply Hf1;
      try (repeat constructor; apply Hf1).
    simpl. destruct Hs as [-> _]. destruct Hf1 as [-> _]. reflexivity. }
  destruct (attempt_spec ZeroXZero content title expiryDays s2) as [ev3 [Ht3 H3]].
  cbn [Spec.attempt] in Ht3, H3.
  destruct (uploadTo0x0 fetch content s2) as [r3 s3].
  cbn [fst snd] in Ht3, H3. rewrite Ht2 in Ht3. cbn [app] in Ht3.
  destruct H3 as [[u [Hs ->]] | [Hf3 ->]]; cbn [success succeeded failed].
  { left. exists 2%nat, [ev1; ev2], ev3, ZeroXZero, u. cbn [fst snd].
    rewrite Ht3. repeat split; try apply Hs;
      try (repeat constructor; first [apply Hf1 | apply Hf2]).
    simpl. destruct Hs as [-> _]. destruct Hf1 as [-> _]. destruct Hf2 as [-> _].
    reflexivity. }
  destruct (attempt_spec Hastebin content title expiryDays s3) as [ev4 [Ht4 H4]].
  cbn [Spec.attempt] in Ht4, H4.
  destruct (uploadToHastebin fetch content s3) as [r4 s4].
  cbn [fst snd] in Ht4, H4. rewrite Ht3 in Ht4. cbn [app] in Ht4.
  destruct H4 as [[u [Hs ->]] | [Hf4 ->]]; cbn [success succeeded failed].
  { left. exists 3%nat, [ev1; ev2; ev3], ev4, Hastebin, u. cbn [fst snd].
    rewrite Ht4. repeat split; try apply Hs;
      try (repeat constructor; first [apply Hf1 | apply Hf2 | apply Hf3]).
    simpl. destruct Hs as [-> _]. destruct Hf1 as [-> _]. destruct Hf2 as [-> _].
    destruct Hf3 as [-> _]. reflexivity. }
  right. cbn [fst snd]. rewrite Ht4.
  split.
  { simpl. destruct Hf1 as [-> _]. destruct Hf2 as [-> _].
    destruct Hf3 as [-> _]. destruct Hf4 as [-> _]. reflexivity. }
  split.
  { unfold chain. apply Forall2_cons; [exact Hf1|].
    apply Forall2_cons; [exact Hf2|]. apply Forall2_cons; [exact Hf3|].
    apply Forall2_cons; [exact Hf4|]. apply Forall2_nil. }
  split; [reflexivity|].
  split; [|reflexivity].
  unfold String_error, failed, reports, chain. cbn [error combine map fst snd].
  repeat constructor.
  - apply (mentions_in_join _ _ []).
  - apply (mentions_in_join _ _ [_]).
  - apply (mentions_in_join _ _ [_; _]).
  - apply (mentions_in_join _ _ [_; _; _]).
Qed.

End PasteFacts.

(** Two runs of the chain against scripted worlds: the first two
    providers answer 500 and 0x0.st answers with a link; and all four
    answer out of shape. *)
Example paste_third_succeeds :
  fst (uploadToPastebin scripted (lit "report") None 7
         (start [ respond 500 [] []; respond 503 [] [];
                  respond 200 [] (lit "https://0x0.st/Kx9.txt" ++ [10]%N) ]))
  = succeeded (lit "https://0x0.st/Kx9.txt").
Proof. vm_compute. reflexivity. Qed.

Example paste_all_fail :
  fst (uploadToPastebin scripted (lit "report") None 7
         (start [ respond 500 [] []; respond 200 [] (lit "<html>");
                  inl (lit "connection reset"); respond 200 [] (lit "<html>") ]))
  = failed (lit "All paste services failed: paste.rs: paste.rs returned 500; dpaste.org: Invalid response from dpaste.org; 0x0.st: connection reset; hastebin: Unexpected token").
Proof. vm_compute. reflexivity. Qed.

(** ** The partial downloader *)

Section DownloadFacts.

Variable World : Type.
Variable fetch : Request -> World -> Result Response * World.
Variable extractFilenameFromUrl :
  jsstring -> (jsstring -> option jsstring) -> jsstring.
Variable now : World -> Z.




End DownloadFacts.


(** A Drive download against a scripted world: the content request
    carries the range of the cap, and the window is what the server
    sent. *)
Example drive_download_ranged :
  let out := downloadFileContent scripted (fun _ => 0) (lit "1AbC") 10
               {| run := start drive_world; client := fresh_client |} in
  fst out = inr (Some {| dd_buffer := [1; 2; 3; 4; 5; 6; 7; 8; 9; 10]%N;
                         dd_fileSize := Some 20 |})
  /\ map (fun ev => headers (fst ev)) (trace (run (snd out)))
     = [ [(lit "Content-Type", lit "application/x-www-form-urlencoded")];
         [(lit "Authorization", lit "Bearer T")];
         [(lit "Authorization", lit "Bearer T"); (lit "Range", lit "bytes=0-9")] ].
Proof. vm_compute. split; reflexivity. Qed.

Lemma plain_get_returns_body (msg url : jsstring) (maxBytes : Z) (body : list N) :
  fst (downloadFromUrl scripted no_filename url maxBytes
         (start [inl msg; respond 200 [] body]))
  = Some {| buffer := body;
            fileSize := size_or_length (Some 0) body;
            d_filename := lit "unknown" |}.
Proof. reflexivity. Qed.

(** C2.  The byte window is not kept within the cap.  The cap is only
    asked for, through a Range header, and only when a size above it was
    learned beforehand; the buffer itself is never cut.  When the HEAD
    request fails no size is known, the GET is sent without a range, and
    the whole body comes back: a file of 10 MiB + 1 bytes yields a window
    of 10 MiB + 1 bytes under the default cap of 10 MiB. *)
Lemma download_cap_counterexample :
  exists d,
    fst (downloadFromUrl scripted no_filename (lit "https://example.com/big.mkv")
           MAX_DOWNLOAD_SIZE (start oversize_world)) = Some d
    /\ length (buffer d) = MAX_DOWNLOAD_SIZE + 1
    /\ ~ length (buffer d) <= MAX_DOWNLOAD_SIZE.
Proof.
  eexists. split; [apply plain_get_returns_body|].
  cbn [buffer]. unfold length, oversize_body.
  rewrite repeat_length, Z2Nat.id by (unfold MAX_DOWNLOAD_SIZE; lia).
  split; [reflexivity | lia].
Qed.

(** ** The text reply *)

Import Reply.

Lemma substring_from_0 (s : jsstring) (n : Z) :
  substring s 0 n = firstn (Z.to_nat (Z.min (Z.max n 0) (length s))) s.
Proof.
  unfold substring, clamp.
  replace (Z.to_nat (Z.min (Z.max 0 0) (length s))) with 0%nat
    by (unfold length; lia).
  rewrite Nat.max_0_l, Nat.min_0_l, Nat.sub_0_r. reflexivity.
Qed.

Lemma textReply_combined (filename size container styledText : jsstring)
  (pasteResult : PasteResult) :
  textReply filename size container styledText pasteResult
  = let full := combined filename size container styledText pasteResult in
    if 4000 <? length full
    then substring full 0 (3900 - length (linkPart pasteResult))
         ++ truncated_marker ++ linkPart pasteResult
    else full.
Proof.
  unfold textReply, combined, linkPart. cbv zeta.
  destruct (has_link pasteResult).
  - rewrite <- !app_assoc. reflexivity.
  - rewrite <- !app_assoc, !app_nil_r. reflexivity.
Qed.

Lemma length_app (s t : jsstring) : length (s ++ t) = length s + length t.
Proof. unfold length. rewrite List.length_app. lia. Qed.

(** C4, as amended.  A reply of at most 4000 characters (report and
    link part together) is delivered unmodified.  A longer one is cut
    to its first [3900 - |link part|] characters (none when the link
    part is longer than that), followed by the truncation marker,
    followed by the link part unmodified, whatever the link; when the
    link part has at most 3900 characters the delivered message is 3927
    characters long, hence within 4096. *)
Theorem reply_truncation
  (filename size container styledText : jsstring) (pasteResult : PasteResult) :
  let full := combined filename size container styledText pasteResult in
  let link := linkPart pasteResult in
  let sent := textReply filename size container styledText pasteResult in
  (length full <= 4000 -> sent = full)
  /\ (4000 < length full ->
      sent = firstn (Z.to_nat (3900 - length link)) full
             ++ truncated_marker ++ link
      /\ (length link <= 3900 -> length sent = 3927 /\ length sent <= 4096)).
Proof.
  cbv zeta. rewrite textReply_combined. cbv zeta.
  set (full := combined filename size container styledText pasteResult).
  set (link := linkPart pasteResult).
  split.
  - intros H. destruct (4000 <? length full) eqn:E; [|reflexivity].
    apply Z.ltb_lt in E. lia.
  - intros H. rewrite (proj2 (Z.ltb_lt _ _) H).
    assert (H0 : 0 <= length link) by (unfold length; lia).
    rewrite substring_from_0.
    assert (Hmin : Z.to_nat (Z.min (Z.max (3900 - length link) 0) (length full))
                   = Z.to_nat (3900 - length link)).
    { revert H H0. generalize (length full), (length link). intros; lia. }
    rewrite Hmin.
    split; [reflexivity|]. intros HL.
    assert (Hlen : length (firstn (Z.to_nat (3900 - length link)) full
                           ++ truncated_marker ++ link) = 3927).
    { rewrite !length_app. unfold length at 1. rewrite List.length_firstn.
      change (length truncated_marker) with 27.
      unfold length in H, HL, H0 |- *. lia. }
    rewrite Hlen. split; [reflexivity | lia].
Qed.

(** An instance: a report of 4000 characters with a link. *)
Lemma reply_truncation_witness :
  length (textReply (lit "a.mkv") (lit "1.00 GiB") (lit "Matroska") long_report
            (succeeded (lit "https://paste.rs/abc")))
  = 3927.
Proof.
  apply (proj2 (proj2 (reply_truncation (lit "a.mkv") (lit "1.00 GiB")
                         (lit "Matroska") long_report
                         (succeeded (lit "https://paste.rs/abc")))
                 ltac:(vm_compute; reflexivity)));
    vm_compute; discriminate.
Defined.

(** C4 as stated fails: a reply that fits into 4096 characters is not
    always delivered unmodified.  A report of 4000 characters under its
    three header lines, without a link, is 4081 characters long and is
    cut down to 3927. *)
Lemma reply_counterexample :
  let full := combined (lit "a.mkv") (lit "1.00 GiB") (lit "Matroska")
                long_report (failed (lit "no paste")) in
  let sent := textReply (lit "a.mkv") (lit "1.00 GiB") (lit "Matroska")
                long_report (failed (lit "no paste")) in
  length full = 4081 /\ length full <= 4096
  /\ length sent = 3927 /\ sent <> full.
Proof.
  cbv zeta. split; [vm_compute; reflexivity|].
  split; [vm_compute; discriminate|].
  split; [vm_compute; reflexivity|].
  intros H. apply (f_equal length) in H. vm_compute in H. discriminate.
Qed.

(** ** The source resolver *)

Import Resolver.

Lemma takeWhile_split (p : N -> bool) (s : jsstring) :
  exists after,
    s = takeWhile p s ++ after
    /\ Forall (fun c => p c = true) (takeWhile p s)
    /\ (after = [] \/ exists c r, after = c :: r /\ p c = false).
Proof.
  induction s as [|c s IH]; simpl.
  - exists []. repeat split; [constructor | left; reflexivity].
  - destruct (p c) eqn:E.
    + destruct IH as [after [H1 [H2 H3]]]. exists after.
      split; [simpl; f_equal; exact H1|]. split; [constructor; assumption | exact H3].
    + exists (c :: s). repeat split; [constructor|]. right. exists c, s. auto.
Qed.

Lemma takeWhile_longest (p : N -> bool) (id after : jsstring) :
  Forall (fun c => p c = true) id ->
  (after = [] \/ exists c r, after = c :: r /\ p c = false) ->
  takeWhile p (id ++ after) = id.
Proof.
  intros Hid Hafter. induction Hid as [|c id Hc Hid IH]; simpl.
  - destruct Hafter as [-> | [c [r [-> Hc]]]]; simpl; [reflexivity|].
    rewrite Hc. reflexivity.
  - rewrite Hc, IH. reflexivity.
Qed.

Lemma skipn_prefix (p r : jsstring) : skipn (List.length p) (p ++ r) = r.
Proof. induction p; simpl; auto. Qed.

Lemma match_here_spec (prefix s id : jsstring) :
  match_here prefix s = Some id <-> MatchAt prefix s [] id.
Proof.
  unfold match_here, MatchAt. split.
  - destruct (startsWith prefix s) eqn:E; [|discriminate].
    apply startsWith_spec in E as [rest ->]. rewrite skipn_prefix.
    destruct (takeWhile_split isIdChar rest) as [after [H1 [H2 H3]]].
    destruct (takeWhile isIdChar rest) as [|c id'] eqn:Et; [discriminate|].
    intros H. injection H as <-. exists after.
    split; [simpl; rewrite H1; reflexivity|].
    split; [discriminate|]. split; assumption.
  - intros [after [-> [Hne [Hid Hafter]]]]. simpl.
    rewrite (proj2 (startsWith_spec prefix (prefix ++ id ++ after)))
      by (exists (id ++ after); reflexivity).
    rewrite skipn_prefix, takeWhile_longest by assumption.
    destruct id; [contradiction | reflexivity].
Qed.

Lemma MatchAt_cons (prefix r before id : jsstring) (c c' : N) :
  MatchAt prefix (c :: r) (c' :: before) id <-> c = c' /\ MatchAt prefix r before id.
Proof.
  unfold MatchAt. split.
  - intros [after [H rest]]. simpl in H. injection H as -> ->.
    split; [reflexivity|]. exists after. split; [reflexivity | exact rest].
  - intros [-> [after [-> rest]]]. exists after. split; [reflexivity | exact rest].
Qed.

Lemma MatchAt_nil (prefix before id : jsstring) : ~ MatchAt prefix [] before id.
Proof.
  intros [after [H [Hne _]]]. symmetry in H.
  apply app_eq_nil in H as [_ H]. apply app_eq_nil in H as [_ H].
  apply app_eq_nil in H as [H _]. contradiction.
Qed.

Lemma match_first_some (prefix s id : jsstring) :
  match_first prefix s = Some id <-> Matches prefix s id.
Proof.
  induction s as [|c r IH].
  - simpl. destruct (match_here prefix []) as [id'|] eqn:E.
    + apply match_here_spec in E. destruct (MatchAt_nil E).
    + split; [discriminate|]. intros [b [H _]]. destruct (MatchAt_nil H).
  - cbn [match_first]. destruct (match_here prefix (c :: r)) as [id'|] eqn:E.
    + split.
      * intros H. injection H as <-. exists []. split.
        -- apply match_here_spec. exact E.
        -- intros. simpl. lia.
      * intros [b [H Hmin]].
        assert (Hb : b = []).
        { apply match_here_spec in E. specialize (Hmin _ _ E).
          destruct b; [reflexivity | simpl in Hmin; lia]. }
        subst b. apply match_here_spec in H. congruence.
    + rewrite IH. split.
      * intros [b [H Hmin]]. exists (c :: b). split.
        -- apply MatchAt_cons. split; [reflexivity | exact H].
        -- intros b' id' H'. destruct b' as [|c' b'].
           ++ apply match_here_spec in H'. congruence.
           ++ apply MatchAt_cons in H' as [_ H']. specialize (Hmin _ _ H').
              simpl. lia.
      * intros [b [H Hmin]]. destruct b as [|c' b].
        -- apply match_here_spec in H. congruence.
        -- apply MatchAt_cons in H as [<- H]. exists b. split; [exact H|].
           intros b' id' H'.
           assert (H'' : MatchAt prefix (c :: r) (c :: b') id')
             by (apply MatchAt_cons; split; [reflexivity | exact H']).
           specialize (Hmin _ _ H''). simpl in Hmin. lia.
Qed.

Lemma match_first_none (prefix s : jsstring) :
  match_first prefix s = None <-> NoMatch prefix s.
Proof.
  unfold NoMatch. induction s as [|c r IH].
  - simpl. destruct (match_here prefix []) as [id'|] eqn:E.
    + apply match_here_spec in E. destruct (MatchAt_nil E).
    + split; [intros _ b id; apply MatchAt_nil | reflexivity].
  - cbn [match_first]. destruct (match_here prefix (c :: r)) as [id'|] eqn:E.
    + split; [discriminate|]. intros H. apply match_here_spec in E.
      destruct (H _ _ E).
    + rewrite IH. split.
      * intros H [|c' b] id H'.
        -- apply match_here_spec in H'. congruence.
        -- apply MatchAt_cons in H' as [_ H']. exact (H _ _ H').
      * intros H b id H'. apply (H (c :: b) id).
        apply MatchAt_cons. split; [reflexivity | exact H'].
Qed.

Lemma first_pattern_some (ps : list jsstring) (s id : jsstring) :
  first_pattern ps s = Some id <-> FirstPattern ps s id.
Proof.
  unfold FirstPattern. induction ps as [|p ps IH]; simpl.
  - split; [discriminate|]. intros [e [q [l [H _]]]]. destruct e; discriminate.
  - destruct (match_first p s) as [id'|] eqn:E.
    + split.
      * intros H. injection H as <-. exists [], p, ps.
        repeat split; [constructor | apply match_first_some; exact E].
      * intros [e [q [l [H [Hno Hm]]]]]. destruct e as [|p' e].
        -- injection H as <- <-. apply match_first_some in Hm. congruence.
        -- injection H as <- _. inversion Hno as [|? ? Hp _]; subst.
           apply match_first_none in Hp. congruence.
    + rewrite IH. split.
      * intros [e [q [l [-> [Hno Hm]]]]]. exists (p :: e), q, l.
        repeat split; [constructor; [apply match_first_none; exact E | exact Hno]
                      | exact Hm].
      * intros [e [q [l [H [Hno Hm]]]]]. destruct e as [|p' e].
        -- injection H as <- <-. apply match_first_some in Hm. congruence.
        -- injection H as <- ->. inversion Hno; subst. exists e, q, l.
           repeat split; assumption.
Qed.

Lemma first_pattern_none (ps : list jsstring) (s : jsstring) :
  first_pattern ps s = None <-> Forall (fun q => NoMatch q s) ps.
Proof.
  induction ps as [|p ps IH]; simpl.
  - split; [constructor | reflexivity].
  - destruct (match_first p s) as [id'|] eqn:E.
    + split; [discriminate|]. intros H. inversion H as [|? ? Hp _]; subst.
      apply match_first_none in Hp. congruence.
    + rewrite IH. split.
      * intros H. constructor; [apply match_first_none; exact E | exact H].
      * intros H. inversion H; assumption.
Qed.

Lemma isBareId_spec (s : jsstring) : isBareId s = true <-> BareId s.
Proof.
  unfold isBareId, BareId, IdChars.
  rewrite andb_true_iff, forallb_forall, Forall_forall, Nat.leb_le. tauto.
Qed.

Lemma extractFileId_some (link id : jsstring) :
  extractFileId link = Some id
  <-> (BareId (trim link) /\ id = trim link)
      \/ (~ BareId (trim link) /\ FirstPattern patterns link id).
Proof.
  unfold extractFileId. destruct (isBareId (trim link)) eqn:E.
  - apply isBareId_spec in E. split.
    + intros H. injection H as <-. left. auto.
    + intros [[_ ->] | [H _]]; [reflexivity | contradiction].
  - assert (Hn : ~ BareId (trim link))
      by (intros H; apply isBareId_spec in H; congruence).
    rewrite first_pattern_some. split.
    + intros H. right. auto.
    + intros [[H _] | [_ H]]; [contradiction | exact H].
Qed.

Lemma extractFileId_none (link : jsstring) :
  extractFileId link = None
  <-> ~ BareId (trim link) /\ Forall (fun q => NoMatch q link) patterns.
Proof.
  unfold extractFileId. destruct (isBareId (trim link)) eqn:E.
  - apply isBareId_spec in E. split; [discriminate | intros [H _]; contradiction].
  - assert (Hn : ~ BareId (trim link))
      by (intros H; apply isBareId_spec in H; congruence).
    rewrite first_pattern_none. tauto.
Qed.

Lemma extractFileId_truthy (link id : jsstring) :
  extractFileId link = Some id -> truthy_str id = true.
Proof.
  intros H. apply extractFileId_some in H as [[[_ Hlen] ->] | [_ H]].
  - destruct (trim link); [simpl in Hlen; lia | reflexivity].
  - destruct H as (_ & _ & _ & _ & _ & [b [[after [_ [Hne _]]] _]]).
    destruct id; [contradiction | reflexivity].
Qed.

Section ResolverFacts.

Variable URL_parse : jsstring -> option URL.

Lemma web_scheme_b (u : URL) :
  web_scheme u
  <-> eqb (protocol u) (lit "http:") || eqb (protocol u) (lit "https:") = true.
Proof. unfold web_scheme. rewrite orb_true_iff, !eqb_eq. tauto. Qed.

Lemma cloud_host_b (h : jsstring) :
  cloud_host h
  <-> includes (lit "drive.google.com") h || includes (lit "docs.google.com") h
      || eqb h (lit "drive.usercontent.google.com") = true.
Proof.
  unfold cloud_host. rewrite !orb_true_iff, !includes_spec, eqb_eq. tauto.
Qed.

Lemma isDirectUrl_spec (input : jsstring) :
  isDirectUrl URL_parse input = true <-> direct URL_parse input.
Proof.
  unfold isDirectUrl, direct.
  destruct (URL_parse input) as [u|].
  - split.
    + intros H. exists u. split; [reflexivity|].
      rewrite web_scheme_b, cloud_host_b.
      destruct (eqb (protocol u) (lit "http:")),
        (eqb (protocol u) (lit "https:")),
        (includes (lit "drive.google.com") (hostname u)),
        (includes (lit "docs.google.com") (hostname u)),
        (eqb (hostname u) (lit "drive.usercontent.google.com"));
        cbn in H |- *; try discriminate H; split; auto; discriminate.
    + intros [u' [E [Hw Hc]]]. injection E as <-.
      rewrite web_scheme_b in Hw. rewrite cloud_host_b in Hc.
      destruct (eqb (protocol u) (lit "http:")),
        (eqb (protocol u) (lit "https:")),
        (includes (lit "drive.google.com") (hostname u)),
        (includes (lit "docs.google.com") (hostname u)),
        (eqb (hostname u) (lit "drive.usercontent.google.com"));
        cbn in Hw, Hc |- *; try reflexivity; try discriminate Hw;
        exfalso; apply Hc; reflexivity.
  - split; [discriminate|]. intros [u [H _]]. discriminate.
Qed.

(** X24.  The resolver as the code has it.  An input is classified as
    a direct URL iff it parses as an absolute URL with scheme http or
    https whose host neither mentions "drive.google.com" or
    "docs.google.com" nor equals "drive.usercontent.google.com".
    Otherwise an input that, trimmed, consists of at least 25 characters
    of [a-zA-Z0-9_-] is its own identifier; else the identifier is the
    group of the leftmost match of the first pattern that matches, in
    the order file/d/, open?id=, uc?id=, id=, folders/, /d/; and when no
    pattern matches the reference is refused. *)
Theorem source_resolution (input : jsstring) :
  (isDirectUrl URL_parse input = true <-> direct URL_parse input)
  /\ (forall url, resolve URL_parse input = DirectUrl url
                  <-> direct URL_parse input /\ url = input)
  /\ (forall id, resolve URL_parse input = DriveReference id
                 <-> ~ direct URL_parse input
                     /\ ((BareId (trim input) /\ id = trim input)
                         \/ (~ BareId (trim input)
                             /\ FirstPattern patterns input id)))
  /\ (resolve URL_parse input = ReferenceError
      <-> ~ direct URL_parse input /\ ~ BareId (trim input)
          /\ Forall (fun q => NoMatch q input) patterns)
  /\ patterns = [ lit "/file/d/"; lit "/open?id="; lit "/uc?id="; lit "id=";
                  lit "/folders/"; lit "/d/" ].
Proof.
  pose proof (isDirectUrl_spec input) as Hd.
  split; [exact Hd|]. unfold resolve.
  destruct (isDirectUrl URL_parse input) eqn:E.
  - assert (D : direct URL_parse input) by (apply Hd; reflexivity).
    split; [|split; [|split]].
    + intros url. split.
      * intros H. injection H as <-. auto.
      * intros [_ ->]. reflexivity.
    + intros id. split; [discriminate | tauto].
    + split; [discriminate | tauto].
    + reflexivity.
  - assert (D : ~ direct URL_parse input)
      by (intros H; apply Hd in H; discriminate).
    destruct (extractFileId input) as [fileId|] eqn:Ex.
    + rewrite (extractFileId_truthy _ Ex).
      pose proof (extractFileId_some input) as Hs.
      split; [|split; [|split]].
      * intros url. split; [discriminate | tauto].
      * intros id. split.
        -- intros H. injection H as <-. split; [exact D | apply Hs; exact Ex].
        -- intros [_ H]. apply Hs in H. congruence.
      * split; [discriminate|]. intros (_ & Hb & Hn).
        assert (extractFileId input = None) by (apply extractFileId_none; auto).
        congruence.
      * reflexivity.
    + pose proof (extractFileId_none input) as Hn.
      split; [|split; [|split]].
      * intros url. split; [discriminate | tauto].
      * intros id. split; [discriminate|].
        intros [_ H]. apply extractFileId_some in H. congruence.
      * split; [|reflexivity]. intros _. split; [exact D | apply Hn; exact Ex].
      * reflexivity.
Qed.

End ResolverFacts.

(** An instance: a Drive link is not direct, and its identifier is
    found by the file/d/ pattern. *)
Lemma source_resolution_witness :
  resolve sample_parse (lit "https://drive.google.com/file/d/1AbC_d-9/view")
  = DriveReference (lit "1AbC_d-9")
  /\ ~ direct sample_parse (lit "https://drive.google.com/file/d/1AbC_d-9/view").
Proof.
  split; [vm_compute; reflexivity|].
  apply (proj1 (proj1 (proj2 (proj2 (source_resolution sample_parse
           (lit "https://drive.google.com/file/d/1AbC_d-9/view"))))
           (lit "1AbC_d-9")) eq_refl).
Defined.

(** C5.  A direct URL is refused as one: the host
    notdrive.google.com.example.org is none of the cloud-storage
    domains and the input parses as an https URL, yet [isDirectUrl]
    answers false, because it looks for "drive.google.com" anywhere in
    the host where the third domain is compared exactly; the input is
    then searched for a Drive identifier, and refused. *)
Lemma resolver_counterexample :
  direct_as_stated sample_parse
    (lit "https://notdrive.google.com.example.org/a.mkv")
  /\ isDirectUrl sample_parse
       (lit "https://notdrive.google.com.example.org/a.mkv") = false
  /\ resolve sample_parse
       (lit "https://notdrive.google.com.example.org/a.mkv") = ReferenceError.
Proof.
  split; [|split; vm_compute; reflexivity].
  eexists. split; [vm_compute; reflexivity|].
  split; [right; reflexivity|].
  simpl. intros [H | [H | [H | []]]]; discriminate H.
Qed.

(** ** binary64 quotients of whole numbers *)

Lemma digits2_size (p : positive) : digits2_pos p = Pos.size p.
Proof. induction p; simpl; congruence. Qed.

Lemma digits_bounds (p : positive) :
  2 ^ (Z.pos (digits2_pos p) - 1) <= Z.pos p < 2 ^ Z.pos (digits2_pos p).
Proof.
  rewrite digits2_size. split.
  - pose proof (Pos.size_le p) as H.
    assert (H' : 2 ^ Z.pos (Pos.size p) <= 2 * Z.pos p).
    { change (2 * Z.pos p) with (Z.pos p~0). rewrite <- Pos2Z.inj_pow. apply Pos2Z.pos_le_pos. exact H. }
    replace (Z.pos (Pos.size p)) with (Z.succ (Z.pos (Pos.size p) - 1)) in H' by lia.
    rewrite Z.pow_succ_r in H' by lia. lia.
  - pose proof (Pos.size_gt p) as H. rewrite <- Pos2Z.inj_pow. apply Pos2Z.pos_lt_pos. exact H.
Qed.

Lemma digits_unique (p : positive) (k : Z) :
  2 ^ (k - 1) <= Z.pos p < 2 ^ k -> Z.pos (digits2_pos p) = k.
Proof.
  intros [H1 H2]. pose proof (digits_bounds p) as [B1 B2].
  assert (0 < k). { destruct (Z.le_gt_cases k 0); [|assumption]. 
    assert (2 ^ k <= 2 ^ 0) by (apply Z.pow_le_mono_r; lia). simpl in *. lia. }
  set (D := Z.pos (digits2_pos p)) in *.
  destruct (Z.lt_trichotomy D k) as [L | [E | G]]; [|exact E|].
  - assert (2 ^ D <= 2 ^ (k - 1)) by (apply Z.pow_le_mono_r; lia). lia.
  - assert (2 ^ k <= 2 ^ (D - 1)) by (apply Z.pow_le_mono_r; lia). lia.
Qed.

Lemma iter_xO (p : positive) (d : positive) :
  Z.pos (Pos.iter xO p d) = Z.pos p * 2 ^ Z.pos d.
Proof.
  rewrite <- Z.shiftl_mul_pow2 by lia. unfold Z.shiftl.
  apply (Pos.iter_swap_gen _ _ Z.pos xO (Z.mul 2)). reflexivity.
Qed.

Lemma fexp_small (e : Z) : -1021 <= e -> fexp prec emax e = e - 53.
Proof. unfold fexp, emin, prec, emax. lia. Qed.

(** of_Z on a positive below 2^53: mantissa scaled to 53 bits. *)
Lemma of_Z_pos (p : positive) :
  Z.pos p < 2 ^ 53 ->
  let D := Z.pos (digits2_pos p) in
  exists m, of_Z (Z.pos p) = S754_finite false m (D - 53)
    /\ Z.pos m = Z.pos p * 2 ^ (53 - D)
    /\ Z.pos (digits2_pos m) = 53.
Proof.
  intros Hp D. pose proof (digits_bounds p) as [B1 B2]. fold D in B1, B2.
  assert (HD : 1 <= D <= 53).
  { split; [unfold D; lia|].
    destruct (Z.le_gt_cases D 53); [assumption|].
    assert (2 ^ 53 <= 2 ^ (D - 1)) by (apply Z.pow_le_mono_r; lia). lia. }
  unfold of_Z, binary_normalize, binary_round.
  rewrite Z.add_0_r. fold D. rewrite fexp_small by lia.
  unfold shl_align. 
  destruct (D - 53 - 0) as [|d|d] eqn:Ed; try lia.
  - (* D = 53 *)
    assert (D = 53) by lia.
    exists p. split.
    + unfold binary_round_aux, shr_fexp. simpl Zdigits2. fold D.
      rewrite fexp_small by lia. replace (D + 0 - 53 - 0) with 0 by lia.
      cbn [shr shr_record_of_loc shr_m loc_of_shr_record round_nearest_even].
      simpl Zdigits2. fold D. rewrite fexp_small by lia.
      replace (D + 0 - 53 - 0) with 0 by lia.
      cbn [shr shr_record_of_loc shr_m]. 
      replace (D - 53) with 0 by lia. reflexivity.
    + split; [replace (53 - D) with 0 by lia; lia | fold D; lia].
  - (* D < 53 *)
    assert (Hd : Z.pos d = 53 - D) by lia.
    exists (Pos.iter xO p d).
    assert (Hm : Z.pos (Pos.iter xO p d) = Z.pos p * 2 ^ (53 - D))
      by (rewrite iter_xO, Hd; reflexivity).
    assert (Hdig : Z.pos (digits2_pos (Pos.iter xO p d)) = 53).
    { apply digits_unique. rewrite Hm.
      assert (HX : 0 < 2 ^ (53 - D)) by (apply Z.pow_pos_nonneg; lia).
      assert (E1 : 2 ^ (53 - 1) = 2 ^ (D - 1) * 2 ^ (53 - D))
        by (rewrite <- Z.pow_add_r by lia; f_equal; lia).
      assert (E2 : 2 ^ 53 = 2 ^ D * 2 ^ (53 - D))
        by (rewrite <- Z.pow_add_r by lia; f_equal; lia).
      rewrite E1, E2. nia. }
    split; [|split; assumption].
    unfold binary_round_aux, shr_fexp. simpl Zdigits2. rewrite Hdig.
    rewrite fexp_small by lia. replace (53 + (D - 53) - 53 - (D - 53)) with 0 by lia.
    cbn [shr shr_record_of_loc shr_m loc_of_shr_record round_nearest_even].
    simpl Zdigits2. rewrite Hdig. rewrite fexp_small by lia.
    replace (53 + (D - 53) - 53 - (D - 53)) with 0 by lia.
    cbn [shr shr_record_of_loc shr_m].
    replace (D - 53 <=? emax - prec) with true; [reflexivity|].
    symmetry. apply Z.leb_le. unfold emax, prec. lia.
Qed.


Lemma new_location_loc_of (d r : Z) :
  0 <= r < d -> new_location d r = loc_of r d.
Proof.
  intros H. unfold new_location, new_location_even, new_location_odd, loc_of.
  destruct (Z.even d) eqn:Ev; [reflexivity|].
  destruct (r =? 0); [reflexivity|]. f_equal.
  assert (Hodd : Z.odd d = true) by (rewrite <- Z.negb_even, Ev; reflexivity).
  apply Z.odd_spec in Hodd as [c Hc].
  destruct (Z.compare_spec (2 * r + 1) d); destruct (Z.compare_spec (2 * r) d);
    try reflexivity; lia.
Qed.

Lemma shr_fexp_keep (q : positive) (e : Z) (l : location) :
  Z.pos (digits2_pos q) = 53 -> -1021 <= 53 + e ->
  shr_fexp prec emax (Z.pos q) e l = (shr_record_of_loc (Z.pos q) l, e).
Proof.
  intros Hd He. unfold shr_fexp. simpl Zdigits2. rewrite Hd.
  rewrite fexp_small by lia. replace (53 + e - 53 - e) with 0 by lia.
  reflexivity.
Qed.

Lemma shr_fexp_once (q : positive) (e : Z) (l : location) :
  Z.pos (digits2_pos q) = 54 -> -1021 <= 54 + e ->
  shr_fexp prec emax (Z.pos q) e l = (shr_1 (shr_record_of_loc (Z.pos q) l), e + 1).
Proof.
  intros Hd He. unfold shr_fexp. simpl Zdigits2. rewrite Hd.
  rewrite fexp_small by lia. replace (54 + e - 53 - e) with 1 by lia.
  reflexivity.
Qed.

(** Rounding a quotient [n / d] kept with 53 or 54 digits. *)
Lemma round_quotient (n d e : Z) :
  0 < d -> 2 ^ 52 <= n / d < 2 ^ 54 -> n < (2 ^ 54 - 1) * d ->
  -1020 <= e <= 900 ->
  exists M j,
    binary_round_aux prec emax false (n / d) e (loc_of (n mod d) d)
    = S754_finite false (Z.to_pos M) (e + j)
    /\ 2 ^ 52 <= M < 2 ^ 53
    /\ ((j = 0 /\ 2 * Z.abs (M * d - n) <= d)
        \/ (j = 1 /\ Z.abs (2 * M * d - n) <= d)).
Proof.
  intros Hd Hq Hn He.
  pose proof (Z.div_mod n d ltac:(lia)) as Hdm.
  pose proof (Z.mod_pos_bound n d Hd) as Hr.
  set (q := n / d) in *. set (r := n mod d) in *.
  destruct q as [|qp|qp] eqn:Eq; try lia.
  destruct (Z_lt_le_dec (Z.pos qp) (2 ^ 53)) as [Hlt | Hge].
  - (* 53 digits *)
    assert (Hdig : Z.pos (digits2_pos qp) = 53) by (apply digits_unique; lia).
    unfold binary_round_aux. rewrite shr_fexp_keep by (assumption || lia).
    set (M0 := round_nearest_even (shr_m (shr_record_of_loc (Z.pos qp) (loc_of r d)))
                 (loc_of_shr_record (shr_record_of_loc (Z.pos qp) (loc_of r d)))).
    assert (HM0 : (M0 = Z.pos qp /\ 2 * r <= d) \/ (M0 = Z.pos qp + 1 /\ d <= 2 * r)).
    { unfold M0, loc_of. destruct (r =? 0) eqn:Er.
      - apply Z.eqb_eq in Er. left. split; [reflexivity | lia].
      - destruct (Z.compare_spec (2 * r) d) as [C | C | C];
          cbn [shr_m shr_record_of_loc loc_of_shr_record round_nearest_even].
        + destruct (Z.even (Z.pos qp)); [left | right]; split; (reflexivity || lia).
        + left. split; [reflexivity | lia].
        + right. split; [reflexivity | lia]. }
    clearbody M0.
    destruct (Z_lt_le_dec M0 (2 ^ 53)) as [Hlt' | Hge'].
    + (* no carry *)
      assert (HM0p : exists mp, M0 = Z.pos mp) by (destruct M0; try lia; eauto).
      destruct HM0p as [mp ->].
      assert (Hdig' : Z.pos (digits2_pos mp) = 53) by (apply digits_unique; lia).
      rewrite shr_fexp_keep by (assumption || lia). cbn [shr_m shr_record_of_loc].
      replace (e <=? emax - prec) with true
        by (symmetry; apply Z.leb_le; unfold emax, prec; lia).
      exists (Z.pos mp), 0. rewrite Z.add_0_r. split; [reflexivity|].
      split; [lia|]. left. split; [reflexivity|]. nia.
    + (* carry to 2^53 *)
      assert (HM : M0 = 2 ^ 53) by lia. subst M0.
      change (2 ^ 53) with (Z.pos (2 ^ 53)) at 1.
      rewrite shr_fexp_once by (reflexivity || lia).
      cbn [shr_m shr_record_of_loc shr_1].
      replace (e + 1 <=? emax - prec) with true
        by (symmetry; apply Z.leb_le; unfold emax, prec; lia).
      exists (2 ^ 52), 1. split; [reflexivity|]. split; [lia|].
      right. split; [reflexivity|]. nia.
  - (* 54 digits *)
    assert (Hdig : Z.pos (digits2_pos qp) = 54) by (apply digits_unique; lia).
    unfold binary_round_aux. rewrite shr_fexp_once by (assumption || lia).
    set (mrs := shr_1 (shr_record_of_loc (Z.pos qp) (loc_of r d))).
    set (M0 := round_nearest_even (shr_m mrs) (loc_of_shr_record mrs)).
    assert (HM0 : 2 ^ 52 <= M0 < 2 ^ 53 /\ Z.abs (2 * M0 * d - n) <= d).
    { unfold M0, mrs, loc_of.
      destruct qp as [qp|qp|].
      - (* odd *)
        assert (Hq2 : Z.pos qp~1 = 2 * Z.pos qp + 1) by lia.
        destruct (r =? 0) eqn:Er.
        + apply Z.eqb_eq in Er.
          cbn [shr_1 shr_record_of_loc shr_m shr_r shr_s loc_of_shr_record
                 round_nearest_even orb].
          destruct (Z.even (Z.pos qp)); split; nia.
        + apply Z.eqb_neq in Er.
          destruct (Z.compare_spec (2 * r) d);
            cbn [shr_1 shr_record_of_loc shr_m shr_r shr_s loc_of_shr_record
                   round_nearest_even orb]; split; nia.
      - (* even *)
        assert (Hq2 : Z.pos qp~0 = 2 * Z.pos qp) by lia.
        destruct (r =? 0) eqn:Er.
        + apply Z.eqb_eq in Er.
          cbn [shr_1 shr_record_of_loc shr_m shr_r shr_s loc_of_shr_record
                 round_nearest_even orb]. split; nia.
        + destruct (Z.compare_spec (2 * r) d);
            cbn [shr_1 shr_record_of_loc shr_m shr_r shr_s loc_of_shr_record
                   round_nearest_even orb]; split; nia.
      - simpl in Hge. lia. }
    clearbody M0. destruct HM0 as [HMr HMe].
    assert (HM0p : exists mp, M0 = Z.pos mp) by (destruct M0; try lia; eauto).
    destruct HM0p as [mp ->].
    assert (Hdig' : Z.pos (digits2_pos mp) = 53) by (apply digits_unique; lia).
    rewrite shr_fexp_keep by (assumption || lia). cbn [shr_m shr_record_of_loc].
    replace (e + 1 <=? emax - prec) with true
      by (symmetry; apply Z.leb_le; unfold emax, prec; lia).
    exists (Z.pos mp), 1. split; [reflexivity|]. split; [lia|].
    right. split; [reflexivity | exact HMe].
Qed.

Lemma fdiv_finite (m1 m2 : positive) (e1 e2 : Z) :
  Z.pos (digits2_pos m1) = 53 -> Z.pos (digits2_pos m2) = 53 ->
  -52 <= e1 <= 0 -> -52 <= e2 <= 0 ->
  exists M j,
    fdiv (S754_finite false m1 e1) (S754_finite false m2 e2)
    = S754_finite false (Z.to_pos M) (e1 - e2 - 53 + j)
    /\ 2 ^ 52 <= M < 2 ^ 53
    /\ ((j = 0 /\ 2 * Z.abs (M * Z.pos m2 - Z.pos m1 * 2 ^ 53) <= Z.pos m2)
        \/ (j = 1 /\ Z.abs (2 * M * Z.pos m2 - Z.pos m1 * 2 ^ 53) <= Z.pos m2)).
Proof.
  intros H1 H2 He1 He2.
  pose proof (digits_bounds m1) as B1. rewrite H1 in B1.
  pose proof (digits_bounds m2) as B2. rewrite H2 in B2.
  change (53 - 1) with 52 in B1, B2.
  unfold fdiv, SFdiv, SFdiv_core_binary. cbn [xorb]. simpl Zdigits2.
  rewrite H1, H2. rewrite fexp_small by lia.
  replace (Z.min (53 + e1 - (53 + e2) - 53) (e1 - e2)) with (e1 - e2 - 53) by lia.
  replace (e1 - e2 - (e1 - e2 - 53)) with 53 by lia.
  cbv iota. rewrite Z.shiftl_mul_pow2 by lia.
  set (n := Z.pos m1 * 2 ^ 53).
  assert (Hdiv : Z.div_eucl n (Z.pos m2) = (n / Z.pos m2, n mod Z.pos m2)).
  { unfold Z.div, Z.modulo. destruct (Z.div_eucl n (Z.pos m2)). reflexivity. }
  rewrite Hdiv.
  rewrite new_location_loc_of by (apply Z.mod_pos_bound; lia).
  apply round_quotient; try lia.
  split.
  - apply Z.div_le_lower_bound; [lia|]. unfold n. nia.
  - apply Z.div_lt_upper_bound; [lia|]. unfold n. nia.
Qed.

(** The quotient of two whole numbers below 2^53, in binary64: a 53-bit
    mantissa [M] at exponent [-k], nearest to [a * 2^k / d]. *)
Lemma fdiv_Z (a d : Z) :
  0 < a < 2 ^ 53 -> 0 < d < 2 ^ 53 ->
  exists M k,
    fdiv (of_Z a) (of_Z d) = S754_finite false (Z.to_pos M) (- k)
    /\ 0 <= k /\ 2 ^ 52 <= M < 2 ^ 53
    /\ 2 * Z.abs (M * d - a * 2 ^ k) <= d.
Proof.
  intros Ha Hd.
  destruct a as [|pa|pa]; try lia. destruct d as [|pd|pd]; try lia.
  destruct (@of_Z_pos pa ltac:(lia)) as [m1 [E1 [V1 D1]]].
  destruct (@of_Z_pos pd ltac:(lia)) as [m2 [E2 [V2 D2]]].
  pose proof (digits_bounds pa) as [Ba1 Ba2].
  pose proof (digits_bounds pd) as [Bd1 Bd2].
  set (Da := Z.pos (digits2_pos pa)) in *.
  set (Dd := Z.pos (digits2_pos pd)) in *.
  assert (HDa : 1 <= Da <= 53).
  { split; [unfold Da; lia|]. destruct (Z.le_gt_cases Da 53); [assumption|].
    assert (2 ^ 53 <= 2 ^ (Da - 1)) by (apply Z.pow_le_mono_r; lia). lia. }
  assert (HDd : 1 <= Dd <= 53).
  { split; [unfold Dd; lia|]. destruct (Z.le_gt_cases Dd 53); [assumption|].
    assert (2 ^ 53 <= 2 ^ (Dd - 1)) by (apply Z.pow_le_mono_r; lia). lia. }
  rewrite E1, E2.
  destruct (@fdiv_finite m1 m2 (Da - 53) (Dd - 53) D1 D2 ltac:(lia) ltac:(lia))
    as [M [j [Ef [HM Hj]]]].
  rewrite Ef.
  exists M, (53 - j + Dd - Da).
  assert (Hj01 : j = 0 \/ j = 1) by (destruct Hj as [[-> _] | [-> _]]; auto).
  split; [f_equal; lia|]. split; [lia|]. split; [exact HM|].
  rewrite V1, V2 in Hj.
  set (A := 2 ^ (53 - Da)) in *. set (B := 2 ^ (53 - Dd)) in *.
  assert (HB : 0 < B) by (apply Z.pow_pos_nonneg; lia).
  destruct Hj as [[-> Hj] | [-> Hj]].
  - assert (EA : A * 2 ^ 53 = 2 ^ (53 - 0 + Dd - Da) * B).
    { unfold A, B. rewrite <- !Z.pow_add_r by lia. f_equal. lia. }
    replace (M * (Z.pos pd * B) - Z.pos pa * A * 2 ^ 53)
      with (B * (M * Z.pos pd - Z.pos pa * 2 ^ (53 - 0 + Dd - Da))) in Hj
      by (rewrite <- Z.mul_assoc, EA; ring).
    rewrite Z.abs_mul, (Z.abs_eq B) in Hj by lia. nia.
  - assert (EA : A * 2 ^ 53 = 2 * 2 ^ (53 - 1 + Dd - Da) * B).
    { unfold A, B. change 2 with (2 ^ 1) at 3. rewrite <- !Z.pow_add_r by lia. f_equal. lia. }
    replace (2 * M * (Z.pos pd * B) - Z.pos pa * A * 2 ^ 53)
      with (B * (2 * (M * Z.pos pd - Z.pos pa * 2 ^ (53 - 1 + Dd - Da)))) in Hj
      by (rewrite <- (Z.mul_assoc (Z.pos pa)), EA; ring).
    rewrite Z.abs_mul, (Z.abs_eq B) in Hj by lia.
    rewrite Z.abs_mul in Hj. change (Z.abs 2) with 2 in Hj. nia.
Qed.

(** ** The bit rate *)

Lemma abs_le_iff (x c : Z) : Z.abs x <= c <-> - c <= x <= c.
Proof. lia. Qed.

(** [Math.round(bps / 1000)] is the quotient rounded half up. *)
Lemma kbps_rounding (b : Z) :
  1000 <= b < 1000000 ->
  Math_round (fdiv (of_Z b) (of_Z 1000)) = (b + 500) / 1000.
Proof.
  intros Hb.
  destruct (@fdiv_Z b 1000 ltac:(lia) ltac:(lia)) as [M [k [E [Hk [HM Hn]]]]].
  rewrite E. unfold Math_round. rewrite Z2Pos.id by lia.
  assert (Hk1 : 1 <= k).
  { destruct (Z.eq_dec k 0) as [-> |]; [|lia]. change (2 ^ 0) with 1 in Hn. lia. }
  replace (0 <=? - k) with false by (symmetry; apply Z.leb_gt; lia).
  rewrite Z.opp_involutive.
  assert (HP : 2 ^ k = 2 * 2 ^ (k - 1))
    by (rewrite <- Z.pow_succ_r by lia; f_equal; lia).
  assert (HP1 : 2 ^ (k + 1) = 2 * 2 ^ k)
    by (rewrite Z.pow_add_r by lia; lia).
  assert (HQ : 0 < 2 ^ (k - 1)) by (apply Z.pow_pos_nonneg; lia).
  rewrite HP1. rewrite HP in Hn |- *. set (Q := 2 ^ (k - 1)) in *. clearbody Q.
  pose proof (Z.div_mod (b + 500) 1000 ltac:(lia)) as Hdm.
  pose proof (Z.mod_pos_bound (b + 500) 1000 ltac:(lia)) as Hr.
  set (R := (b + 500) / 1000) in *. clearbody R.
  set (r := (b + 500) mod 1000) in *. clearbody r.
  assert (Hn' : -500 <= M * 1000 - b * (2 * Q) <= 500) by lia. clear Hn.
  assert (HbQ : b * Q = (1000 * R + r - 500) * Q) by (f_equal; lia).
  assert (HQbig : 500 < Q) by nia.
  assert (Hlow : 0 <= M - (2 * R - 1) * Q) by nia.
  assert (Hup : M - (2 * R - 1) * Q < 2 * Q) by nia.
  symmetry. apply Z.div_unique with (r := 2 * (M - (2 * R - 1) * Q)); [lia | ring].
Qed.

(** [(bps / 1000000).toFixed(1)] prints a number of tenths nearest to
    the quotient. *)
Lemma mbps_tenths (b : Z) :
  1000000 <= b < 2 ^ 53 ->
  exists n,
    toFixed 1 (fdiv (of_Z b) (of_Z 1000000)) = point 1 n
    /\ 0 <= n /\ Z.abs (n * 100000 - b) <= 50000.
Proof.
  intros Hb.
  destruct (@fdiv_Z b 1000000 ltac:(lia) ltac:(lia)) as [M [k [E [Hk [HM Hn]]]]].
  rewrite E. unfold toFixed, toFixed_n. cbn [app]. rewrite Z2Pos.id by lia.
  change (10 ^ Z.of_nat 1) with 10.
  assert (Hn' : -500000 <= M * 1000000 - b * 2 ^ k <= 500000) by lia. clear Hn.
  assert (Hk19 : 19 <= k).
  { destruct (Z_lt_le_dec k 19) as [Hlt | Hge]; [|exact Hge]. exfalso.
    assert (2 ^ k <= 2 ^ 18) by (apply Z.pow_le_mono_r; lia).
    assert (0 < 2 ^ k) by (apply Z.pow_pos_nonneg; lia). nia. }
  replace (0 <=? - k) with false by (symmetry; apply Z.leb_gt; lia).
  rewrite Z.opp_involutive.
  assert (HP1 : 2 ^ (k + 1) = 2 * 2 ^ k)
    by (rewrite Z.pow_add_r by lia; lia).
  assert (HPbig : 2 ^ 19 <= 2 ^ k) by (apply Z.pow_le_mono_r; lia).
  rewrite HP1. set (P := 2 ^ k) in *. clearbody P.
  pose proof (Z.div_mod (2 * M * 10 + P) (2 * P) ltac:(lia)) as Hdm.
  pose proof (Z.mod_pos_bound (2 * M * 10 + P) (2 * P) ltac:(lia)) as Hr.
  set (n := (2 * M * 10 + P) / (2 * P)) in *. clearbody n.
  set (r := (2 * M * 10 + P) mod (2 * P)) in *. clearbody r.
  exists n. split; [reflexivity|].
  assert (Hn0 : 0 <= n) by nia.
  split; [exact Hn0|]. apply abs_le_iff.
  assert (Hlow : P * ((2 * n - 1) * 50000 - b) <= 500000) by nia.
  assert (Hup : P * (b - (2 * n + 1) * 50000) < 500000) by nia.
  assert (H1 : (2 * n - 1) * 50000 - b <= 0) by nia.
  assert (H2 : b - (2 * n + 1) * 50000 <= 0) by nia.
  lia.
Qed.

Lemma digits_step (n : Z) :
  digits n = if Z_lt_dec n 10 then [48 + Z.to_N n]%N
             else digits (n / 10) ++ [48 + Z.to_N (n mod 10)]%N.
Proof.
  rewrite digits_equation_1. destruct (Z_lt_dec n 10) as [H | H].
  - reflexivity.
  - apply digits_clause_1_equation_2.
Qed.

Lemma digits_length (n : Z) : (1 <= List.length (digits n))%nat.
Proof.
  rewrite digits_step. destruct (Z_lt_dec n 10); [simpl; lia|].
  rewrite List.length_app. simpl. lia.
Qed.

Lemma dec_digit (n : Z) : 0 <= n < 10 -> dec n = [48 + Z.to_N n]%N.
Proof.
  intros H. unfold dec.
  replace (n <? 0) with false by (symmetry; apply Z.ltb_ge; lia).
  rewrite digits_step. destruct (Z_lt_dec n 10); [reflexivity | lia].
Qed.

(** A non-negative number of tenths prints as its whole part, a point,
    and its last digit. *)
Lemma point_tenths (n : Z) :
  0 <= n -> point 1 n = dec (n / 10) ++ lit "." ++ dec (n mod 10).
Proof.
  intros Hn.
  pose proof (Z.mod_pos_bound n 10 ltac:(lia)) as Hm.
  rewrite (dec_digit Hm).
  destruct (Z_lt_dec n 10) as [Hlt | Hge].
  - rewrite (Z.div_small n 10), (Z.mod_small n 10) by lia.
    unfold point, pad_zeros.
    rewrite (@dec_digit n), (@dec_digit 0) by lia. reflexivity.
  - assert (Hq : 0 <= n / 10) by (apply Z.div_pos; lia).
    assert (Hd : dec n = dec (n / 10) ++ [48 + Z.to_N (n mod 10)]%N).
    { unfold dec.
      replace (n <? 0) with false by (symmetry; apply Z.ltb_ge; lia).
      replace (n / 10 <? 0) with false by (symmetry; apply Z.ltb_ge; lia).
      rewrite (digits_step n). destruct (Z_lt_dec n 10); [lia | reflexivity]. }
    assert (Hl : (1 <= List.length (dec (n / 10)))%nat).
    { unfold dec.
      replace (n / 10 <? 0) with false by (symmetry; apply Z.ltb_ge; lia).
      apply digits_length. }
    unfold point, pad_zeros. rewrite Hd.
    generalize dependent (dec (n / 10)). intros D _ HD.
    generalize (48 + Z.to_N (n mod 10))%N. intros c.
    rewrite !List.length_app. cbn [List.length].
    replace (2 - (List.length D + 1))%nat with 0%nat by lia.
    cbn [repeat app List.length].
    replace (0 + (List.length D + 1) - 1)%nat with (List.length D) by lia.
    rewrite firstn_app, skipn_app, firstn_all, skipn_all, Nat.sub_diag.
    cbn [firstn skipn app]. rewrite app_nil_r. reflexivity.
Qed.

(** C7, as amended.  For every whole bit rate [0 <= b < 2^53]: below
    1000 the value itself followed by " b/s"; from 1000 up to 10^6 the
    value divided by 1000 and rounded to the nearest whole number
    (halves up), followed by " kb/s"; from 10^6 on a number [n] of
    tenths nearest to [b / 10^6], printed as whole part, point and last
    digit, then " Mb/s".  In particular 500 yields "500 b/s", 1500
    yields "2 kb/s" and 2500000 yields "2.5 Mb/s". *)
Theorem bitrate_format (b : Z) :
  0 <= b < 2 ^ 53 ->
  (b < 1000 -> formatBitrate b = dec b ++ lit " b/s")
  /\ (1000 <= b < 1000000 ->
      formatBitrate b = dec ((b + 500) / 1000) ++ lit " kb/s")
  /\ (1000000 <= b ->
      exists n,
        formatBitrate b
        = dec (n / 10) ++ lit "." ++ dec (n mod 10) ++ lit " Mb/s"
        /\ 0 <= n /\ Z.abs (n * 100000 - b) <= 50000)
  /\ formatBitrate 500 = lit "500 b/s"
  /\ formatBitrate 1500 = lit "2 kb/s"
  /\ formatBitrate 2500000 = lit "2.5 Mb/s".
Proof.
  intros Hb. unfold formatBitrate at 1 2 3.
  split; [|split; [|split]].
  - intros H.
    replace (1000000 <=? b) with false by (symmetry; apply Z.leb_gt; lia).
    replace (1000 <=? b) with false by (symmetry; apply Z.leb_gt; lia).
    reflexivity.
  - intros H.
    replace (1000000 <=? b) with false by (symmetry; apply Z.leb_gt; lia).
    replace (1000 <=? b) with true by (symmetry; apply Z.leb_le; lia).
    rewrite kbps_rounding by exact H. reflexivity.
  - intros H.
    replace (1000000 <=? b) with true by (symmetry; apply Z.leb_le; lia).
    destruct (@mbps_tenths b ltac:(lia)) as [n [E [Hn0 Hn]]].
    exists n. rewrite E, point_tenths by exact Hn0.
    rewrite <- !app_assoc. auto.
  - repeat split; vm_compute; reflexivity.
Qed.

(** An instance: 1150000 b/s, whose quotient 1.15 is halfway between
    two tenths. *)
Lemma bitrate_format_witness :
  exists n,
    formatBitrate 1150000
    = dec (n / 10) ++ lit "." ++ dec (n mod 10) ++ lit " Mb/s"
    /\ 0 <= n /\ Z.abs (n * 100000 - 1150000) <= 50000.
Proof.
  apply (proj1 (proj2 (proj2 (@bitrate_format 1150000 ltac:(lia))))). lia.
Defined.

(** C7 as stated fails for large bit rates.  The whole number
    1000000000000000013287555072 is the binary64 value written 1e27;
    divided by 10^6 it gives 10^21, from where on [toFixed] answers in
    exponent notation: the text is "1e+21 Mb/s", which has no decimal
    place at all. *)
Lemma bitrate_counterexample :
  formatBitrate 1000000000000000013287555072 = lit "1e+21 Mb/s"
  /\ forall n,
       formatBitrate 1000000000000000013287555072
       <> dec (n / 10) ++ lit "." ++ dec (n mod 10) ++ lit " Mb/s".
Proof.
  assert (E : formatBitrate 1000000000000000013287555072 = lit "1e+21 Mb/s")
    by (vm_compute; reflexivity).
  split; [exact E|]. intros n H. rewrite E in H.
  assert (Hin : In 46%N (lit "1e+21 Mb/s")).
  { rewrite H. apply in_or_app. right. left. reflexivity. }
  simpl in Hin. intuition discriminate.
Qed.

(* ===================================================================== *)
(** * Part II, continued: further properties of the sources *)
(* ===================================================================== *)

Import Helpers Props.

(** ** Escaping ([utils/helpers.ts]) *)

Lemma replaceAll_app (c : N) (rep s t : jsstring) :
  replaceAll c rep (s ++ t) = replaceAll c rep s ++ replaceAll c rep t.
Proof. unfold replaceAll. apply flat_map_app. Qed.

Lemma replaceAll_flat_map (c : N) (rep : jsstring) (f : N -> jsstring)
  (s : jsstring) :
  replaceAll c rep (flat_map f s) = flat_map (fun x => replaceAll c rep (f x)) s.
Proof.
  induction s as [|a s IH]; simpl; [reflexivity|].
  rewrite replaceAll_app, IH. reflexivity.
Qed.

(** The four passes amount to one simultaneous substitution: the
    entities the later passes would find were not in the text, and the
    ampersands the earlier pass put in do not start with [<], [>] or a
    quote. *)
Lemma escapeHtml_entity (s : jsstring) : escapeHtml s = flat_map entity s.
Proof.
  unfold escapeHtml.
  unfold replaceAll at 4.
  rewrite !replaceAll_flat_map.
  apply flat_map_ext. intros c. unfold entity.
  destruct (c =? amp)%N eqn:E1; [reflexivity|].
  destruct (c =? lang)%N eqn:E2.
  { cbn. rewrite E2. reflexivity. }
  destruct (c =? rang)%N eqn:E3.
  { cbn. rewrite E2. cbn. rewrite E3. reflexivity. }
  destruct (c =? quot)%N eqn:E4.
  { cbn. rewrite E2. cbn. rewrite E3. cbn. rewrite E4. reflexivity. }
  cbn. rewrite E2. cbn. rewrite E3. cbn. rewrite E4. reflexivity.
Qed.

Ltac peel H pre :=
  destruct pre as [|? pre]; simpl in H; [discriminate H|];
  injection H as ? H; subst.

(** The ampersand at the head of an entity: either it is the one looked
    for, or the one looked for lies past the entity. *)
Ltac head_entity H pre IH name :=
  destruct pre as [|? pre]; simpl in H;
  [ injection H as H; exists name; eexists;
    split; [simpl; auto 8 | rewrite <- H; reflexivity]
  | injection H as _ H; repeat peel H pre; apply (IH _ _ H) ].

Lemma escapeHtml_markup_free (text : jsstring) :
  Forall (fun c => c <> lang /\ c <> rang /\ c <> quot) (escapeHtml text).
Proof.
  rewrite escapeHtml_entity.
  induction text as [|c s IH]; simpl; [constructor|].
  apply Forall_app. split; [|exact IH].
  unfold entity.
  destruct (c =? amp)%N eqn:E1; [repeat constructor; discriminate|].
  destruct (c =? lang)%N eqn:E2; [repeat constructor; discriminate|].
  destruct (c =? rang)%N eqn:E3; [repeat constructor; discriminate|].
  destruct (c =? quot)%N eqn:E4; [repeat constructor; discriminate|].
  apply N.eqb_neq in E2, E3, E4. repeat constructor; assumption.
Qed.

Lemma escapeHtml_ampersands (text pre post : jsstring) :
  escapeHtml text = pre ++ amp :: post ->
  exists name rest, In name entity_names /\ post = name ++ rest.
Proof.
  rewrite escapeHtml_entity. revert pre post.
  induction text as [|c s IH]; intros pre post H; simpl in H.
  { destruct pre; discriminate. }
  unfold entity in H.
  destruct (c =? amp)%N eqn:E1; [head_entity H pre IH (lit "amp;")|].
  destruct (c =? lang)%N eqn:E2; [head_entity H pre IH (lit "lt;")|].
  destruct (c =? rang)%N eqn:E3; [head_entity H pre IH (lit "gt;")|].
  destruct (c =? quot)%N eqn:E4; [head_entity H pre IH (lit "quot;")|].
  simpl in H. destruct pre as [|x pre]; simpl in H.
  - injection H as H _. apply N.eqb_neq in E1. congruence.
  - injection H as _ H. apply (IH _ _ H).
Qed.

Lemma escapeHtml_injective (s t : jsstring) :
  escapeHtml s = escapeHtml t -> s = t.
Proof.
  rewrite !escapeHtml_entity. revert t.
  induction s as [|c s IH]; intros [|d t] H; simpl in H.
  - reflexivity.
  - exfalso. unfold entity in H.
    repeat match type of H with
           | context [if ?b then _ else _] => destruct b
           end; discriminate.
  - exfalso. unfold entity in H.
    repeat match type of H with
           | context [if ?b then _ else _] => destruct b
           end; discriminate.
  - assert (c = d /\ flat_map entity s = flat_map entity t) as [-> H'].
    { unfold entity in H.
      destruct (c =? amp)%N eqn:C1; [apply N.eqb_eq in C1|];
      [|destruct (c =? lang)%N eqn:C2; [apply N.eqb_eq in C2|]];
      [| |destruct (c =? rang)%N eqn:C3; [apply N.eqb_eq in C3|]];
      [| | |destruct (c =? quot)%N eqn:C4; [apply N.eqb_eq in C4|]];
      (destruct (d =? amp)%N eqn:D1; [apply N.eqb_eq in D1|];
      [|destruct (d =? lang)%N eqn:D2; [apply N.eqb_eq in D2|]];
      [| |destruct (d =? rang)%N eqn:D3; [apply N.eqb_eq in D3|]];
      [| | |destruct (d =? quot)%N eqn:D4; [apply N.eqb_eq in D4|]]);
      subst; simpl in H; try discriminate H;
      try (injection H as H; split; [reflexivity | exact H]);
      try (injection H as H0 H; subst;
           first [ discriminate C1 | discriminate D1
                 | split; [reflexivity | exact H] ]). }
    f_equal. apply IH. exact H'.
Qed.

(** X1.  The escaped text holds no [<], no [>] and no double quote, and
    every [&] in it begins one of the entities [&amp;], [&lt;], [&gt;],
    [&quot;].  The escape loses nothing: two texts with the same escape
    are the same text. *)
Theorem escapeHtml_sound (text : jsstring) :
  Forall (fun c => c <> lang /\ c <> rang /\ c <> quot) (escapeHtml text)
  /\ (forall pre post,
        escapeHtml text = pre ++ amp :: post ->
        exists name rest, In name entity_names /\ post = name ++ rest)
  /\ (forall other, escapeHtml text = escapeHtml other -> text = other).
Proof.
  split; [apply escapeHtml_markup_free|].
  split; [apply escapeHtml_ampersands | apply escapeHtml_injective].
Qed.

(** An instance: the ampersand of "a&b", and the text "a<b". *)
Lemma escapeHtml_sound_witness :
  (exists name rest, In name entity_names /\ lit "amp;b" = name ++ rest)
  /\ lit "a<b" = lit "a<b".
Proof.
  split.
  - apply (proj1 (proj2 (escapeHtml_sound (lit "a&b"))) (lit "a") (lit "amp;b")).
    reflexivity.
  - apply (proj2 (proj2 (escapeHtml_sound (lit "a<b")))). reflexivity.
Defined.

(** ** Truncation ([utils/helpers.ts]) *)

(** X2.  A text that fits is returned as it is.  A longer one, when the
    limit is at least 3, is cut to its first [maxLength - 3] characters
    followed by three dots, exactly [maxLength] characters in all; when
    the limit is below 3 the result is the three dots alone, which is
    longer than the limit. *)
Theorem truncate_bound (text : jsstring) (maxLength : Z) :
  (length text <= maxLength -> truncate text maxLength = text)
  /\ (3 <= maxLength < length text ->
      truncate text maxLength
      = firstn (Z.to_nat (maxLength - 3)) text ++ lit "..."
      /\ length (truncate text maxLength) = maxLength)
  /\ (maxLength < 3 -> maxLength < length text ->
      truncate text maxLength = lit "...").
Proof.
  unfold truncate. repeat split.
  - intros H. rewrite (proj2 (Z.leb_le _ _) H). reflexivity.
  - destruct H as [H3 HL].
    rewrite (proj2 (Z.leb_gt _ _) HL), substring_from_0.
    do 2 f_equal. lia.
  - destruct H as [H3 HL].
    rewrite (proj2 (Z.leb_gt _ _) HL), substring_from_0, length_app.
    unfold length in *. rewrite length_firstn.
    cbn [List.length lit map list_ascii_of_string]. lia.
  - intros H3 HL.
    rewrite (proj2 (Z.leb_gt _ _) HL), substring_from_0.
    replace (Z.to_nat (Z.min (Z.max (maxLength - 3) 0) (length text))) with 0%nat
      by (unfold length; lia).
    reflexivity.
Qed.

(** An instance: ten characters under a limit of 8, and under a limit
    of 2. *)
Lemma truncate_bound_witness :
  (truncate (lit "0123456789") 8 = lit "01234..."
   /\ length (truncate (lit "0123456789") 8) = 8)
  /\ truncate (lit "0123456789") 2 = lit "...".
Proof.
  split.
  - apply (proj1 (proj2 (truncate_bound (lit "0123456789") 8))).
    split; [lia | vm_compute; reflexivity].
  - apply (proj2 (proj2 (truncate_bound (lit "0123456789") 2)));
      [lia | vm_compute; reflexivity].
Defined.

(** ** Chunks ([utils/helpers.ts]) *)

Lemma slice_inside {T} (a : list T) (i c : Z) :
  0 <= i < Z.of_nat (List.length a) -> 0 < c ->
  slice a i (i + c) = firstn (Z.to_nat c) (skipn (Z.to_nat i) a).
Proof.
  intros Hi Hc. unfold slice, Adapter.relative.
  replace (i <? 0) with false by (symmetry; apply Z.ltb_ge; lia).
  replace (i + c <? 0) with false by (symmetry; apply Z.ltb_ge; lia).
  rewrite (Z.min_l i) by lia.
  destruct (Z_le_gt_dec (i + c) (Z.of_nat (List.length a))) as [L|G].
  - rewrite Z.min_l by lia. f_equal. lia.
  - rewrite Z.min_r by lia.
    rewrite !firstn_all2; try reflexivity; rewrite length_skipn; lia.
Qed.

(** One more group in front of a partition of the rest. *)
Lemma partitioned_cons {T} (a : list T) (i c : Z) (rest : list (list T)) :
  0 <= i < Z.of_nat (List.length a) -> 0 < c ->
  partitioned c rest (skipn (Z.to_nat (i + c)) a) ->
  partitioned c (firstn (Z.to_nat c) (skipn (Z.to_nat i) a) :: rest)
    (skipn (Z.to_nat i) a).
Proof.
  intros Hi Hc [H1 [H2 H3]].
  assert (Hlen : List.length (firstn (Z.to_nat c) (skipn (Z.to_nat i) a))
                 = Nat.min (Z.to_nat c) (List.length a - Z.to_nat i)).
  { rewrite length_firstn, length_skipn. reflexivity. }
  split; [|split].
  - cbn [List.concat]. rewrite H1.
    replace (Z.to_nat (i + c)) with (Z.to_nat c + Z.to_nat i)%nat by lia.
    rewrite <- skipn_skipn. apply firstn_skipn.
  - constructor; [rewrite Hlen; lia | exact H2].
  - destruct rest as [|r rest']; [constructor|].
    cbn [removelast]. constructor; [|exact H3].
    rewrite Hlen.
    destruct (Z_le_gt_dec (i + c) (Z.of_nat (List.length a))) as [L|G]; [lia|].
    exfalso. rewrite skipn_all2 in H1 by lia.
    simpl in H1. apply app_eq_nil in H1. destruct H1 as [H1 _]. subst r.
    inversion H2 as [|? ? Hr _]. simpl in Hr. lia.
Qed.

Lemma partitioned_nil {T} (a : list T) (i c : Z) :
  Z.of_nat (List.length a) <= i -> partitioned c [] (skipn (Z.to_nat i) a).
Proof.
  intros H. unfold partitioned. simpl. rewrite skipn_all2 by lia.
  repeat split; constructor.
Qed.

Lemma chunk_loop_spec {T} (array : list T) (c : Z) :
  0 < c ->
  forall fuel i chunks,
    0 <= i -> (Z.to_nat (Z.of_nat (List.length array) - i) < fuel)%nat ->
    exists rest,
      chunk_loop fuel array c i chunks = Some (chunks ++ rest)%list
      /\ partitioned c rest (skipn (Z.to_nat i) array).
Proof.
  intros Hc. induction fuel as [|fuel IH]; intros i chunks Hi Hf; [lia|].
  simpl. destruct (i <? Z.of_nat (List.length array)) eqn:E.
  - apply Z.ltb_lt in E.
    destruct (IH (i + c) (chunks ++ [slice array i (i + c)])) as [rest [H1 H2]];
      [lia | lia |].
    exists (slice array i (i + c) :: rest).
    rewrite H1, <- app_assoc. split; [reflexivity|].
    rewrite slice_inside by lia. apply partitioned_cons; [lia | lia | exact H2].
  - apply Z.ltb_ge in E. exists []. rewrite app_nil_r.
    split; [reflexivity | apply partitioned_nil; lia].
Qed.

(** X3.  For a positive chunk size the loop ends (more fuel than the
    array has elements is enough) and its chunks, put end to end, are
    the array: every chunk is non-empty and at most [chunkSize] long,
    and every chunk but the last is exactly [chunkSize] long. *)
Theorem chunkArray_partition {T} (array : list T) (chunkSize : Z) (fuel : nat) :
  0 < chunkSize -> (List.length array < fuel)%nat ->
  exists chunks,
    chunkArray fuel array chunkSize = Some chunks
    /\ partitioned chunkSize chunks array.
Proof.
  intros Hc Hf.
  destruct (@chunk_loop_spec T array chunkSize Hc fuel 0 []) as [rest H];
    [lia | lia |].
  exists rest. exact H.
Qed.

(** An instance: five elements in chunks of two. *)
Lemma chunkArray_partition_witness :
  exists chunks,
    chunkArray 6 [1; 2; 3; 4; 5]%N 2 = Some chunks
    /\ partitioned 2 chunks [1; 2; 3; 4; 5]%N.
Proof.
  apply (@chunkArray_partition N [1; 2; 3; 4; 5]%N 2 6%nat); [lia | simpl; lia].
Defined.

(** X4.  For a chunk size of zero or less and an array that is not
    empty the loop never ends: the index never reaches the length, and
    no amount of fuel yields a result. *)
Theorem chunkArray_never_returns {T} (array : list T) (chunkSize : Z) (fuel : nat) :
  chunkSize <= 0 -> array <> [] -> chunkArray fuel array chunkSize = None.
Proof.
  intros Hc Ha. unfold chunkArray.
  assert (G : forall fuel i chunks, i <= 0 ->
              chunk_loop fuel array chunkSize i chunks = None).
  { clear fuel. induction fuel as [|fuel IH]; intros i chunks Hi; [reflexivity|].
    simpl. replace (i <? Z.of_nat (List.length array)) with true.
    - apply IH. lia.
    - symmetry. apply Z.ltb_lt. destruct array; [congruence | simpl; lia]. }
  apply G. lia.
Qed.

(** An instance: one element, chunk size 0, a thousand rounds. *)
Lemma chunkArray_never_returns_witness :
  chunkArray 1000 [7%N] 0 = None.
Proof.
  apply (@chunkArray_never_returns N [7%N] 0 1000%nat); [lia | discriminate].
Defined.
(** ** Commands and their arguments ([utils/helpers.ts],
       [commands/mediainfo.ts]) *)

Lemma split_ws_cons sep s : exists p ps, split_ws sep s = p :: ps.
Proof.
  revert sep. induction s as [|c s IH]; intros sep; simpl; eauto.
  destruct (isWhiteSpace c).
  - destruct sep; eauto.
  - destruct (IH false) as [p [ps ->]]. eauto.
Qed.

Lemma split_ws_word w rest sep :
  Forall (fun c => isWhiteSpace c = false) w -> (w <> [] \/ sep = false) ->
  split_ws sep (w ++ rest) = prepend w (split_ws false rest).
Proof.
  intros Hw. revert sep. induction Hw as [|c w Hc Hw IH]; intros sep Hs.
  - destruct Hs as [Hs | ->]; [congruence|]. simpl.
    destruct (split_ws_cons false rest) as [p [ps ->]]. reflexivity.
  - simpl. rewrite Hc, (IH false) by (right; reflexivity).
    destruct (split_ws_cons false rest) as [p [ps ->]]. reflexivity.
Qed.

Lemma split_ws_blank g rest :
  blank g -> split_ws true (g ++ rest) = split_ws true rest.
Proof.
  induction 1 as [|c g Hc Hg IH]; simpl; [reflexivity|]. rewrite Hc. exact IH.
Qed.

Lemma split_ws_gap g rest :
  gap g -> split_ws false (g ++ rest) = [] :: split_ws true rest.
Proof.
  intros [Hn Hb]. destruct Hb as [|c g Hc Hg]; [congruence|].
  simpl. rewrite Hc. f_equal. apply split_ws_blank. exact Hg.
Qed.

Lemma split_ws_spaced more : forall w0 trail sep,
  word w0 -> spacing more -> blank trail ->
  split_ws sep (spaced w0 more ++ trail)
  = (w0 :: map snd more) ++ tail_piece trail.
Proof.
  unfold spaced.
  induction more as [|[g w] more IH]; intros w0 trail sep [Hn Hw] Hm Ht.
  - simpl. rewrite app_nil_r, split_ws_word by auto.
    destruct trail as [|c t]; [simpl; rewrite app_nil_r; reflexivity|].
    rewrite <- (app_nil_r (c :: t)), split_ws_gap by
      (split; [discriminate | exact Ht]).
    simpl. rewrite app_nil_r. reflexivity.
  - inversion Hm as [|? ? [Hg Hw1] Hm']; subst. simpl in Hg, Hw1.
    cbn [map List.concat fst snd].
    rewrite <- !app_assoc, split_ws_word by auto.
    rewrite split_ws_gap by exact Hg.
    rewrite (app_assoc w), (IH w trail true Hw1 Hm' Ht).
    simpl. rewrite app_nil_r. reflexivity.
Qed.

Lemma trimStart_blank lead s : blank lead -> trimStart (lead ++ s) = trimStart s.
Proof. induction 1 as [|c l Hc Hl IH]; simpl; [reflexivity|]. rewrite Hc. exact IH. Qed.

Lemma trimStart_word c s : isWhiteSpace c = false -> trimStart (c :: s) = c :: s.
Proof. intros H. simpl. rewrite H. reflexivity. Qed.

Lemma blank_rev s : blank s -> blank (rev s).
Proof. unfold blank. intros H. apply Forall_rev. exact H. Qed.

Lemma trimEnd_blank s trail : blank trail -> trimEnd (s ++ trail) = trimEnd s.
Proof.
  intros H. unfold trimEnd. rewrite rev_app_distr, trimStart_blank; [reflexivity|].
  apply blank_rev. exact H.
Qed.

Lemma trimEnd_word s c : isWhiteSpace c = false -> trimEnd (s ++ [c]) = s ++ [c].
Proof.
  intros H. unfold trimEnd. rewrite rev_app_distr. simpl. rewrite H.
  simpl. rewrite rev_involutive. reflexivity.
Qed.

Lemma spaced_first w0 more :
  word w0 -> exists c r, spaced w0 more = c :: r /\ isWhiteSpace c = false.
Proof.
  intros [Hn Hw]. destruct Hw as [|c w Hc Hw]; [congruence|].
  exists c, (w ++ List.concat (map (fun p => fst p ++ snd p) more)). auto.
Qed.

Lemma spaced_last more : forall w0,
  word w0 -> spacing more ->
  exists pre c, spaced w0 more = pre ++ [c] /\ isWhiteSpace c = false.
Proof.
  unfold spaced. induction more as [|[g w] more IH]; intros w0 [Hn Hw] Hm.
  - simpl. rewrite app_nil_r.
    destruct (exists_last Hn) as [pre [c ->]]. exists pre, c. split; [reflexivity|].
    apply Forall_app in Hw. destruct Hw as [_ Hc]. inversion Hc; assumption.
  - inversion Hm as [|? ? [Hg Hw1] Hm']; subst. simpl in Hw1.
    destruct (IH w Hw1 Hm') as [pre [c [E Hc]]].
    exists (w0 ++ g ++ pre), c. split; [|exact Hc].
    cbn [map List.concat fst snd].
    transitivity (w0 ++ g ++ (w ++ List.concat (map (fun p => fst p ++ snd p) more))).
    + rewrite <- !app_assoc. reflexivity.
    + rewrite E, !app_assoc. reflexivity.
Qed.

Lemma trim_spaced lead w0 more trail :
  blank lead -> blank trail -> word w0 -> spacing more ->
  trim (lead ++ spaced w0 more ++ trail) = spaced w0 more.
Proof.
  intros Hl Ht Hw Hm. unfold trim. rewrite trimStart_blank by exact Hl.
  destruct (spaced_first more Hw) as [c [r [E Hc]]].
  destruct (spaced_last Hw Hm) as [pre [d [E' Hd]]].
  rewrite E. rewrite <- app_comm_cons, trimStart_word by exact Hc.
  rewrite app_comm_cons, <- E, trimEnd_blank by exact Ht.
  rewrite E'. apply trimEnd_word. exact Hd.
Qed.

Section CommandFacts.

Variable toLowerCase : jsstring -> jsstring.

Lemma hd_split_char d s :
  hd [] (split_char d s) = takeWhile (fun c => negb (c =? d)%N) s.
Proof.
  induction s as [|c s IH]; simpl; [reflexivity|].
  destruct (c =? d)%N; simpl; [reflexivity|].
  rewrite <- IH. destruct (split_char d s); reflexivity.
Qed.

(** The argument string of a text of words. *)
Lemma parseCommand_args_spaced
  (lead w0 : jsstring) (more : list (jsstring * jsstring)) (trail : jsstring) :
  blank lead -> word w0 -> spacing more -> blank trail ->
  args (parseCommand toLowerCase (lead ++ spaced w0 more ++ trail))
  = join (lit " ") (map snd more).
Proof.
  intros Hl Hw Hm Ht. unfold parseCommand. cbn [args].
  rewrite trim_spaced by assumption.
  rewrite <- (app_nil_r (spaced w0 more)), split_ws_spaced by (auto; constructor).
  cbn [tail_piece]. rewrite app_nil_r. reflexivity.
Qed.

(** X5.  On a text made of an optional blank lead, a first word,
    further words each after a run of white space, and an optional
    blank tail, [parseCommand] returns exactly the further words as the
    argument list, the same words joined by single spaces as the
    argument string, and as command the first word in lower case with
    one leading slash removed and cut at its first [@]; the command
    never contains [@]. *)
Theorem parseCommand_words
  (lead w0 : jsstring) (more : list (jsstring * jsstring)) (trail : jsstring) :
  blank lead -> word w0 -> spacing more -> blank trail ->
  let r := parseCommand toLowerCase (lead ++ spaced w0 more ++ trail) in
  argList r = map snd more
  /\ args r = join (lit " ") (map snd more)
  /\ command r = takeWhile (fun c => negb (c =? 64)%N) (dropSlash (toLowerCase w0))
  /\ ~ In 64%N (command r).
Proof.
  intros Hl Hw Hm Ht r. subst r. unfold parseCommand. cbn [argList args command].
  rewrite trim_spaced by assumption.
  rewrite <- (app_nil_r (spaced w0 more)), split_ws_spaced by (auto; constructor).
  cbn [tail_piece]. rewrite app_nil_r. cbn [tl hd].
  rewrite hd_split_char. repeat split.
  intros Hin.
  destruct (takeWhile_split (fun c => negb (c =? 64)%N) (dropSlash (toLowerCase w0)))
    as [after [_ [HF _]]].
  rewrite Forall_forall in HF. specialize (HF _ Hin). discriminate HF.
Qed.

End CommandFacts.

(** An instance: a command addressed to a bot, with two arguments. *)
Lemma parseCommand_words_witness :
  let r := parseCommand asciiLower (lit " /MediaInfo@Bot  https://x/y z ") in
  argList r = [lit "https://x/y"; lit "z"]
  /\ args r = lit "https://x/y z"
  /\ command r = lit "mediainfo"
  /\ ~ In 64%N (command r).
Proof.
  apply (@parseCommand_words asciiLower (lit " ") (lit "/MediaInfo@Bot")
           [(lit "  ", lit "https://x/y"); (lit " ", lit "z")] (lit " ")).
  - repeat constructor.
  - split; [discriminate | repeat constructor].
  - repeat constructor; discriminate.
  - repeat constructor.
Defined.

Lemma join_spaced sp w ws :
  join sp (w :: ws) = spaced w (map (fun x => (sp, x)) ws).
Proof.
  unfold spaced. revert w. induction ws as [|x ws IH]; intros w.
  - simpl. rewrite app_nil_r. reflexivity.
  - change (join sp (w :: x :: ws)) with (w ++ sp ++ join sp (x :: ws)).
    rewrite IH. simpl. rewrite <- !app_assoc. reflexivity.
Qed.

Lemma join_snoc_empty sp w ws :
  join sp ((w :: ws) ++ [[]]) = join sp (w :: ws) ++ sp.
Proof.
  revert w. induction ws as [|x ws IH]; intros w.
  - simpl. rewrite app_nil_r. reflexivity.
  - change (join sp ((w :: x :: ws) ++ [[]]))
      with (w ++ sp ++ join sp ((x :: ws) ++ [[]])).
    rewrite IH. change (join sp (w :: x :: ws)) with (w ++ sp ++ join sp (x :: ws)).
    rewrite <- !app_assoc. reflexivity.
Qed.

Lemma space_gap : gap (lit " ").
Proof. split; [discriminate | repeat constructor]. Qed.

Lemma spacing_single ws :
  Forall word ws -> spacing (map (fun x => (lit " ", x)) ws).
Proof.
  unfold spacing. induction 1; simpl; constructor; auto.
  split; [apply space_gap | assumption].
Qed.

Lemma trim_join_words ws tail_ :
  Forall word ws -> blank tail_ -> (ws = [] -> tail_ = []) ->
  trim (join (lit " ") ws ++ tail_) = join (lit " ") ws.
Proof.
  intros Hw Ht He. destruct ws as [|w ws].
  - rewrite (He eq_refl). reflexivity.
  - inversion Hw; subst. rewrite join_spaced.
    apply (@trim_spaced [] w (map (fun x => (lit " ", x)) ws) tail_);
      auto using spacing_single. constructor.
Qed.

Lemma spacing_words more : spacing more -> Forall word (map snd more).
Proof. unfold spacing. induction 1 as [|p l [_ H] Hl IH]; simpl; constructor; auto. Qed.

Lemma mediainfoArgs_spaced w0 more trail :
  word w0 -> spacing more -> blank trail ->
  Invocation.mediainfoArgs (Some (spaced w0 more ++ trail))
  = join (lit " ") (map snd more).
Proof.
  intros Hw Hm Ht. unfold Invocation.mediainfoArgs.
  assert (E : or_str (Some (spaced w0 more ++ trail)) [] = spaced w0 more ++ trail).
  { unfold or_str. destruct (spaced_first more Hw) as [c [r [-> _]]]. reflexivity. }
  rewrite E, split_ws_spaced by assumption. cbn [tl app].
  pose proof (spacing_words Hm) as Hws.
  destruct trail as [|c t]; cbn [tail_piece].
  - rewrite app_nil_r.
    pose proof (@trim_join_words (map snd more) [] Hws) as H.
    rewrite app_nil_r in H. apply H; [constructor | reflexivity].
  - destruct (map snd more) as [|w ws] eqn:Em; [reflexivity|].
    rewrite join_snoc_empty. apply trim_join_words; auto.
    + apply space_gap.
    + discriminate.
Qed.

(** Every text is blank, or words between runs of white space. *)
Lemma text_shape_ws (s : jsstring) :
  blank s
  \/ exists lead w0 more trail,
       s = lead ++ spaced w0 more ++ trail
       /\ blank lead /\ word w0 /\ spacing more /\ blank trail.
Proof.
  induction s as [|c s IH]; [left; constructor|].
  destruct (isWhiteSpace c) eqn:Ec.
  - destruct IH as [Hb | [lead [w0 [more [trail [E [Hl [Hw [Hm Ht]]]]]]]]].
    + left. constructor; assumption.
    + right. exists (c :: lead), w0, more, trail. subst s.
      split; [reflexivity|]. split; [constructor; assumption|]. auto.
  - right. destruct IH as [Hb | [lead [w0 [more [trail [E [Hl [Hw [Hm Ht]]]]]]]]].
    + exists [], [c], [], s.
      split; [reflexivity|]. split; [constructor|].
      split; [split; [discriminate | constructor; [exact Ec | constructor]]|].
      split; [constructor | exact Hb].
    + destruct lead as [|l lead].
      * exists [], (c :: w0), more, trail. subst s.
        destruct Hw as [Hn Hw].
        split; [reflexivity|]. split; [constructor|].
        split; [split; [discriminate | constructor; assumption]|]. auto.
      * exists [], [c], ((l :: lead, w0) :: more), trail. subst s.
        split; [unfold spaced; simpl; rewrite <- !app_assoc; reflexivity|].
        split; [constructor|].
        split; [split; [discriminate | constructor; [exact Ec | constructor]]|].
        split; [|exact Ht].
        constructor; [|exact Hm].
        split; [split; [discriminate | exact Hl] | exact Hw].
Qed.

Lemma trimStart_fixed s :
  trimStart s = s -> s = [] \/ exists c r, s = c :: r /\ isWhiteSpace c = false.
Proof.
  destruct s as [|c r]; [auto|]. intros H. right. exists c, r. split; [reflexivity|].
  destruct (isWhiteSpace c) eqn:E; [|reflexivity]. exfalso.
  simpl in H. rewrite E in H.
  assert (L : forall t, (List.length (trimStart t) <= List.length t)%nat).
  { induction t as [|x t IH]; simpl; [lia|]. destruct (isWhiteSpace x); simpl; lia. }
  specialize (L r). rewrite H in L. simpl in L. lia.
Qed.

Section ArgsFacts.

Variable toLowerCase : jsstring -> jsstring.

(** X6.  On a message text that does not begin with white space (the
    dispatcher only passes on texts that begin with a slash) the
    argument string the media command works out for itself is the one
    [parseCommand] handed to the dispatcher. *)
Theorem mediainfoArgs_agree (text : jsstring) :
  trimStart text = text ->
  Invocation.mediainfoArgs (Some text) = args (parseCommand toLowerCase text).
Proof.
  intros H. destruct (trimStart_fixed H) as [-> | [c [r [E Hc]]]]; [reflexivity|].
  destruct (text_shape_ws text) as [Hb | [lead [w0 [more [trail [E' [Hl [Hw [Hm Ht]]]]]]]]].
  { subst text. inversion Hb; congruence. }
  destruct lead as [|l lead].
  - simpl in E'. rewrite E'.
    rewrite mediainfoArgs_spaced by assumption.
    pose proof (@parseCommand_args_spaced toLowerCase [] w0 more trail Hl Hw Hm Ht) as P.
    simpl app in P. rewrite P. reflexivity.
  - exfalso. rewrite E in E'. simpl in E'. injection E' as E1 _. subst l.
    inversion Hl; congruence.
Qed.

End ArgsFacts.

(** An instance: a text with doubled and trailing blanks. *)
Lemma mediainfoArgs_agree_witness :
  Invocation.mediainfoArgs (Some (lit "/mediainfo  https://x/y  "))
  = args (parseCommand asciiLower (lit "/mediainfo  https://x/y  ")).
Proof.
  apply (@mediainfoArgs_agree asciiLower (lit "/mediainfo  https://x/y  ")).
  reflexivity.
Defined.

(** ** File extensions ([utils/helpers.ts]) *)

Section ExtensionFacts.

Variable toLowerCase : jsstring -> jsstring.

Lemma split_char_cons d s : exists p ps, split_char d s = p :: ps.
Proof.
  induction s as [|c s [p [ps IH]]]; simpl; eauto.
  destruct (c =? d)%N; eauto. rewrite IH. eauto.
Qed.

Lemma split_char_plain d s : ~ In d s -> split_char d s = [s].
Proof.
  induction s as [|c s IH]; intros H; simpl; [reflexivity|].
  destruct (c =? d)%N eqn:E.
  - apply N.eqb_eq in E. subst. exfalso. apply H. left. reflexivity.
  - rewrite IH; [reflexivity|]. intros Hin. apply H. right. exact Hin.
Qed.

Lemma split_char_app d a b :
  split_char d (a ++ d :: b) = split_char d a ++ split_char d b.
Proof.
  induction a as [|c a IH]; simpl.
  - rewrite N.eqb_refl. reflexivity.
  - destruct (c =? d)%N; [rewrite IH; reflexivity|].
    rewrite IH. destruct (split_char_cons d a) as [p [ps ->]]. reflexivity.
Qed.

(** X7.  A name without a dot has the empty extension.  Otherwise the
    extension is what follows the last dot, in lower case: possibly
    empty (a name that ends in a dot), and the whole name after the dot
    for a name that begins with one. *)
Theorem getFileExtension_last_dot (filename : jsstring) :
  (~ In 46%N filename -> getFileExtension toLowerCase filename = [])
  /\ (forall stem ext,
        filename = stem ++ 46%N :: ext -> ~ In 46%N ext ->
        getFileExtension toLowerCase filename = toLowerCase ext).
Proof.
  unfold getFileExtension. split.
  - intros H. rewrite split_char_plain by exact H. reflexivity.
  - intros stem ext -> H.
    rewrite split_char_app, (@split_char_plain 46%N ext H).
    destruct (split_char_cons 46 stem) as [p [ps ->]].
    replace (1 <? List.length ((p :: ps) ++ [ext]))%nat with true.
    + rewrite last_last. reflexivity.
    + symmetry. apply Nat.ltb_lt. rewrite List.length_app. simpl. lia.
Qed.

End ExtensionFacts.

(** An instance: two dots and capitals. *)
Lemma getFileExtension_last_dot_witness :
  getFileExtension asciiLower (lit "Movie.Final.MKV") = lit "mkv".
Proof.
  apply (proj2 (@getFileExtension_last_dot asciiLower (lit "Movie.Final.MKV"))
           (lit "Movie.Final") (lit "MKV")).
  - reflexivity.
  - simpl. intuition discriminate.
Defined.

(** ** Drive identifiers ([utils/helpers.ts]) *)

Lemma trimStart_suffix s : exists lead, s = lead ++ trimStart s.
Proof.
  induction s as [|c s [lead IH]]; [exists []; reflexivity|].
  simpl. destruct (isWhiteSpace c).
  - exists (c :: lead). simpl. f_equal. exact IH.
  - exists []. reflexivity.
Qed.

Lemma trim_infix s : Mentions (trim s) s.
Proof.
  unfold Mentions, trim, trimEnd.
  destruct (trimStart_suffix s) as [lead E].
  destruct (trimStart_suffix (rev (trimStart s))) as [tr E'].
  exists lead, (rev tr).
  rewrite <- rev_app_distr, <- E', rev_involutive. exact E.
Qed.

(** X8.  Whatever the input, an identifier that [extractFileId]
    returns is not empty, consists of letters, digits, [_] and [-]
    only, and occurs in the input. *)
Theorem extractFileId_charset (link id : jsstring) :
  Resolver.extractFileId link = Some id ->
  id <> [] /\ IdChars id /\ Mentions id link.
Proof.
  intros H. apply extractFileId_some in H as [[[Hc Hlen] ->] | [_ H]].
  - split; [|split].
    + destruct (trim link); [simpl in Hlen; lia | discriminate].
    + exact Hc.
    + apply trim_infix.
  - destruct H as (earlier & p & later & _ & _ & [before [[after [E [Hne [Hc _]]]] _]]).
    split; [exact Hne|]. split; [exact Hc|].
    exists (before ++ p), after. rewrite E, <- app_assoc. reflexivity.
Qed.

(** An instance: a file link. *)
Lemma extractFileId_charset_witness :
  lit "1AbC_d-9" <> [] /\ IdChars (lit "1AbC_d-9")
  /\ Mentions (lit "1AbC_d-9")
       (lit "https://drive.google.com/file/d/1AbC_d-9/view").
Proof.
  apply (@extractFileId_charset
           (lit "https://drive.google.com/file/d/1AbC_d-9/view") (lit "1AbC_d-9")).
  vm_compute. reflexivity.
Defined.

(** ** Durations ([services/mediainfo-image.ts]) *)

(** *** Quotients rounded down *)

(** Below 2^53 the binary64 quotient of two whole numbers never reaches
    the next whole number: rounded down it is the whole quotient. *)
Lemma Math_floor_quotient (a d : Z) :
  0 < a < 2 ^ 53 - 1 -> 0 < d < 2 ^ 53 ->
  Math_floor (fdiv (of_Z a) (of_Z d)) = a / d.
Proof.
  intros Ha Hd.
  destruct (@fdiv_Z a d ltac:(lia) ltac:(lia)) as [M [k [E [Hk [HM Hn]]]]].
  rewrite E. unfold Math_floor. rewrite Z2Pos.id by lia.
  assert (HP : 0 < 2 ^ k) by (apply Z.pow_pos_nonneg; lia).
  assert (Hn' : - d <= 2 * (M * d - a * 2 ^ k) <= d) by lia. clear Hn.
  assert (Hle : d <= 2 * 2 ^ k) by nia.
  pose proof (Z.div_mod a d ltac:(lia)) as Hdm.
  pose proof (Z.mod_pos_bound a d ltac:(lia)) as Hr.
  set (q := a / d) in *. set (r := a mod d) in *. clearbody q r.
  assert (Hq : 0 <= q) by nia.
  destruct (0 <=? - k) eqn:Ek.
  - apply Z.leb_le in Ek. assert (k = 0) by lia. subst k.
    change (2 ^ (-0)) with 1. change (2 ^ 0) with 1 in *.
    rewrite Z.mul_1_r. nia.
  - rewrite Z.opp_involutive. symmetry.
    apply Z.div_unique with (r := M - q * 2 ^ k); [|lia].
    left. split.
    + destruct (Z_le_gt_dec (q * 2 ^ k) M); [lia|]. exfalso. nia.
    + destruct (Z_lt_le_dec M ((q + 1) * 2 ^ k)); [lia|]. exfalso. nia.
Qed.

Lemma floor_quotient_whole (a d : Z) :
  0 <= a < 2 ^ 53 - 1 -> 0 < d < 2 ^ 53 -> floor_quotient a d = a / d.
Proof.
  intros Ha Hd. unfold floor_quotient.
  destruct (Z.eq_dec a 0) as [-> | Hne].
  - destruct d as [|pd|pd]; try lia.
    destruct (@of_Z_pos pd ltac:(lia)) as [m [E _]]. rewrite E. reflexivity.
  - apply Math_floor_quotient; lia.
Qed.

(** The whole seconds of a number of milliseconds. *)
Lemma floor_quotient_seconds (ms : Z) :
  0 <= ms < 2 ^ 53 -> floor_quotient ms 1000 = ms / 1000.
Proof.
  intros H. destruct (Z.eq_dec ms (2 ^ 53 - 1)) as [-> | Hne].
  - vm_compute. reflexivity.
  - apply floor_quotient_whole; lia.
Qed.

(** X9.  For a duration of [0 <= ms < 2^53] milliseconds the numbers
    printed are a true clock reading of the whole seconds: minutes and
    seconds below 60, and hours, minutes and seconds adding up to
    [ms / 1000] rounded down.  From one hour on the text is "H h M min"
    and the seconds are not shown; below, it is "M min S sec". *)
Theorem formatDuration_clock (ms : Z) :
  0 <= ms < 2 ^ 53 ->
  exists h m s,
    clock_reading ms h m s
    /\ formatDuration ms
       = if 0 <? h then dec h ++ lit " h " ++ dec m ++ lit " min"
         else dec m ++ lit " min " ++ dec s ++ lit " sec".
Proof.
  intros H. unfold formatDuration, clock_reading.
  rewrite floor_quotient_seconds by exact H.
  assert (Hs : 0 <= ms / 1000) by (apply Z.div_pos; lia).
  assert (Hb : ms / 1000 < 2 ^ 53 - 1000).
  { apply Z.div_lt_upper_bound; lia. }
  set (t := ms / 1000) in *. clearbody t.
  rewrite !Z.rem_mod_nonneg by lia.
  pose proof (Z.div_mod t 3600 ltac:(lia)).
  pose proof (Z.mod_pos_bound t 3600 ltac:(lia)).
  pose proof (Z.div_mod (t mod 3600) 60 ltac:(lia)).
  pose proof (Z.mod_pos_bound (t mod 3600) 60 ltac:(lia)).
  pose proof (Z.mod_pos_bound t 60 ltac:(lia)).
  rewrite !floor_quotient_whole by lia.
  exists (t / 3600), (t mod 3600 / 60), (t mod 60).
  assert (E : (t mod 3600) mod 60 = t mod 60).
  { apply Z.mod_unique with (q := 60 * (t / 3600) + t mod 3600 / 60); lia. }
  split; [|reflexivity].
  split; [apply Z.div_pos; lia|]. split; [split; [apply Z.div_pos; lia|]|].
  - apply Z.div_lt_upper_bound; lia.
  - split; lia.
Qed.

(** An instance: 1 h 23 min 45 s. *)
Lemma formatDuration_clock_witness :
  exists h m s,
    clock_reading 5025000 h m s
    /\ formatDuration 5025000
       = if 0 <? h then dec h ++ lit " h " ++ dec m ++ lit " min"
         else dec m ++ lit " min " ++ dec s ++ lit " sec".
Proof. apply (@formatDuration_clock 5025000). lia. Defined.

(** ** The shape of the normalized report ([services/mediainfo-image.ts]) *)

Section ReportShape.

Variable toUpperCase toLowerCase : jsstring -> jsstring.
Variable formatFileSize : Z -> jsstring.

Notation visit := (visit toUpperCase toLowerCase formatFileSize).
Notation parseMediaInfo := (parseMediaInfo toUpperCase toLowerCase formatFileSize).
Notation audioOf := (audioOf toUpperCase toLowerCase).
Notation subtitleOf := (subtitleOf toUpperCase toLowerCase).
Notation audios := (audios toUpperCase toLowerCase).
Notation texts := (texts toUpperCase toLowerCase).
Notation generalOf := (generalOf formatFileSize).

(** The four types exclude one another. *)
Lemma type_cases (t : MediaInfoTrack) :
  (is_general t = true /\ is_video t = false /\ is_audio t = false /\ is_text t = false)
  \/ (is_general t = false /\ is_video t = true /\ is_audio t = false /\ is_text t = false)
  \/ (is_general t = false /\ is_video t = false /\ is_audio t = true /\ is_text t = false)
  \/ (is_general t = false /\ is_video t = false /\ is_audio t = false /\ is_text t = true)
  \/ (is_general t = false /\ is_video t = false /\ is_audio t = false /\ is_text t = false).
Proof.
  unfold is_general, is_video, is_audio, is_text.
  destruct (eqb (type_ t) (lit "General")) eqn:E1.
  { apply eqb_eq in E1. rewrite E1. left. repeat split. }
  destruct (eqb (type_ t) (lit "Video")) eqn:E2.
  { apply eqb_eq in E2. rewrite E2. right. left. repeat split. }
  destruct (eqb (type_ t) (lit "Audio")) eqn:E3.
  { apply eqb_eq in E3. rewrite E3. right. right. left. repeat split. }
  destruct (eqb (type_ t) (lit "Text")) eqn:E4; auto 10.
Qed.

Lemma visit_fields (st : LoopState) (t : MediaInfoTrack) :
  filename (parsed (visit st t)) = filename (parsed st)
  /\ general (parsed (visit st t))
     = (if is_general t then generalOf (general (parsed st)) t
        else general (parsed st))
  /\ video (parsed (visit st t))
     = (if is_video t then Some (videoOf t) else video (parsed st))
  /\ subtitles (parsed (visit st t))
     = (if is_text t
        then subtitles (parsed st) ++ [subtitleOf (subtitleIndex st) t]
        else subtitles (parsed st))
  /\ subtitleIndex (visit st t)
     = (if is_text t then subtitleIndex st + 1 else subtitleIndex st).
Proof.
  destruct (type_cases t) as [H | [H | [H | [H | H]]]];
    destruct H as (H1 & H2 & H3 & H4); rewrite H1, H2, H4;
    unfold is_general, is_video, is_audio, is_text in *;
    unfold Normalizer.visit; rewrite H1; try rewrite H2; try rewrite H3;
    try rewrite H4; repeat split.
Qed.

Lemma fold_snoc (ts : list MediaInfoTrack) (t : MediaInfoTrack) (st : LoopState) :
  fold_left visit (ts ++ [t]) st = visit (fold_left visit ts st) t.
Proof. rewrite fold_left_app. reflexivity. Qed.

Lemma fold_filename ts st :
  filename (parsed (fold_left visit ts st)) = filename (parsed st).
Proof.
  revert st. induction ts as [|t ts IH]; intros st; simpl; [reflexivity|].
  rewrite IH. apply visit_fields.
Qed.

Lemma fold_general_tracks ts st :
  general (parsed (fold_left visit ts st))
  = fold_left generalOf (filter is_general ts) (general (parsed st)).
Proof.
  revert st. induction ts as [|t ts IH]; intros st; simpl; [reflexivity|].
  rewrite IH. destruct (visit_fields st t) as (_ & -> & _).
  destruct (is_general t); reflexivity.
Qed.

Lemma fold_video ts st :
  video (parsed (fold_left visit ts st))
  = match find is_video (rev ts) with
    | Some t => Some (videoOf t)
    | None => video (parsed st)
    end.
Proof.
  induction ts as [|t ts IH] using rev_ind; [reflexivity|].
  rewrite fold_snoc, rev_app_distr. simpl.
  destruct (visit_fields (fold_left visit ts st) t) as (_ & _ & -> & _).
  destruct (is_video t); [reflexivity | exact IH].
Qed.

Lemma fold_texts ts st :
  subtitles (parsed (fold_left visit ts st))
  = subtitles (parsed st) ++ texts (subtitleIndex st) ts.
Proof.
  revert st. induction ts as [|t ts IH]; intros st; simpl.
  - rewrite app_nil_r. reflexivity.
  - rewrite IH. destruct (visit_fields st t) as (_ & _ & _ & -> & ->).
    destruct (is_text t); [rewrite <- app_assoc|]; reflexivity.
Qed.

Lemma audios_index ts : forall i k a,
  nth_error (audios i ts) k = Some a -> a_index a = i + Z.of_nat k.
Proof.
  induction ts as [|t ts IH]; intros i k a H; simpl in H.
  - destruct k; discriminate.
  - destruct (is_audio t).
    + destruct k as [|k]; simpl in H.
      * injection H as <-. simpl. lia.
      * apply IH in H. lia.
    + apply IH in H. exact H.
Qed.

Lemma texts_index ts : forall i k s,
  nth_error (texts i ts) k = Some s -> s_index s = i + Z.of_nat k.
Proof.
  induction ts as [|t ts IH]; intros i k a H; simpl in H.
  - destruct k; discriminate.
  - destruct (is_text t).
    + destruct k as [|k]; simpl in H.
      * injection H as <-. simpl. lia.
      * apply IH in H. lia.
    + apply IH in H. exact H.
Qed.

Lemma audios_length ts : forall i,
  List.length (audios i ts) = List.length (filter is_audio ts).
Proof.
  induction ts as [|t ts IH]; intros i; simpl; [reflexivity|].
  destruct (is_audio t); simpl; rewrite IH; reflexivity.
Qed.

Lemma texts_length ts : forall i,
  List.length (texts i ts) = List.length (filter is_text ts).
Proof.
  induction ts as [|t ts IH]; intros i; simpl; [reflexivity|].
  destruct (is_text t); simpl; rewrite IH; reflexivity.
Qed.

(** X10.  In the report of any list of tracks there is one audio
    entry for each Audio track and one subtitle entry for each Text
    track, and the entries of either kind are numbered 0, 1, 2, ... in
    the order of the tracks. *)
Theorem entries_numbered (ts : list MediaInfoTrack) (name : jsstring) :
  let p := parseMediaInfo {| media := Some {| track := ts |} |} name in
  (forall k a, nth_error (audio p) k = Some a -> a_index a = Z.of_nat k)
  /\ (forall k s, nth_error (subtitles p) k = Some s -> s_index s = Z.of_nat k)
  /\ List.length (audio p) = List.length (filter is_audio ts)
  /\ List.length (subtitles p) = List.length (filter is_text ts).
Proof.
  cbv zeta. rewrite parse_audio.
  unfold Normalizer.parseMediaInfo. cbn [media track].
  rewrite fold_texts. cbn [parsed subtitles initial subtitleIndex app].
  repeat split.
  - intros k a H. apply audios_index in H. lia.
  - intros k s H. apply texts_index in H. lia.
  - apply audios_length.
  - apply texts_length.
Qed.

(** X11.  The video section of the report is that of the last Video
    track of the list; earlier Video tracks leave no trace, and without
    a Video track there is no video section. *)
Theorem last_video_track_wins (ts : list MediaInfoTrack) (name : jsstring) :
  video (parseMediaInfo {| media := Some {| track := ts |} |} name)
  = match find is_video (rev ts) with
    | Some t => Some (videoOf t)
    | None => None
    end.
Proof.
  unfold Normalizer.parseMediaInfo. cbn [media track]. rewrite fold_video. reflexivity.
Qed.

Lemma find_hd_filter {T} (p : T -> bool) (l : list T) :
  find p l = hd_error (filter p l).
Proof.
  induction l as [|x l IH]; simpl; [reflexivity|]. destruct (p x); [reflexivity | exact IH].
Qed.

Lemma filter_reverse {T} (p : T -> bool) (l : list T) :
  filter p (rev l) = rev (filter p l).
Proof.
  induction l as [|x l IH]; simpl; [reflexivity|].
  rewrite filter_app, IH. simpl. destruct (p x); simpl; [reflexivity|].
  rewrite app_nil_r. reflexivity.
Qed.

Lemma filter_idem {T} (p : T -> bool) (l : list T) :
  filter p (filter p l) = filter p l.
Proof.
  induction l as [|x l IH]; simpl; [reflexivity|].
  destruct (p x) eqn:E; simpl; [rewrite E, IH|]; auto.
Qed.

Lemma filter_excl {T} (p q : T -> bool) (l : list T) :
  (forall t, q t = true -> p t = false) -> filter p (filter q l) = [].
Proof.
  intros H. induction l as [|x l IH]; simpl; [reflexivity|].
  destruct (q x) eqn:E; simpl; [rewrite (H _ E)|]; exact IH.
Qed.

Ltac excl :=
  let t := fresh "t" in
  intros t;
  destruct (type_cases t) as [H | [H | [H | [H | H]]]];
  destruct H as (? & ? & ? & ?); congruence.

Lemma grouped_general ts : filter is_general (grouped ts) = filter is_general ts.
Proof.
  unfold grouped. rewrite !filter_app, filter_idem.
  rewrite !(@filter_excl _ is_general) by excl.
  rewrite ?app_nil_r. reflexivity.
Qed.

Lemma grouped_video ts : filter is_video (grouped ts) = filter is_video ts.
Proof.
  unfold grouped. rewrite !filter_app, filter_idem.
  rewrite !(@filter_excl _ is_video) by excl.
  rewrite ?app_nil_r. reflexivity.
Qed.

Lemma grouped_audio ts : filter is_audio (grouped ts) = filter is_audio ts.
Proof.
  unfold grouped. rewrite !filter_app, filter_idem.
  rewrite !(@filter_excl _ is_audio) by excl.
  rewrite ?app_nil_r. reflexivity.
Qed.

Lemma grouped_text ts : filter is_text (grouped ts) = filter is_text ts.
Proof.
  unfold grouped. rewrite !filter_app, filter_idem.
  rewrite !(@filter_excl _ is_text) by excl.
  rewrite ?app_nil_r. reflexivity.
Qed.

Lemma audios_filter ts : forall i, audios i ts = audios i (filter is_audio ts).
Proof.
  induction ts as [|t ts IH]; intros i; simpl; [reflexivity|].
  destruct (is_audio t) eqn:E; simpl; [rewrite E, <- IH|]; auto.
Qed.

Lemma texts_filter ts : forall i, texts i ts = texts i (filter is_text ts).
Proof.
  induction ts as [|t ts IH]; intros i; simpl; [reflexivity|].
  destruct (is_text t) eqn:E; simpl; [rewrite E, <- IH|]; auto.
Qed.

Lemma parsed_eta (p q : ParsedMediaInfo) :
  filename p = filename q -> general p = general q -> video p = video q ->
  audio p = audio q -> subtitles p = subtitles q -> p = q.
Proof. destruct p, q; simpl; intros; subst; reflexivity. Qed.

(** X12.  The report depends on the tracks of each of the four types
    in their own order only: tracks of any other type are ignored, and
    moving the General, Video, Audio and Text tracks apart into four
    groups, each in its original order, leaves the report unchanged. *)
Theorem report_ignores_interleaving (ts : list MediaInfoTrack) (name : jsstring) :
  parseMediaInfo {| media := Some {| track := ts |} |} name
  = parseMediaInfo {| media := Some {| track := grouped ts |} |} name.
Proof.
  apply parsed_eta.
  - unfold Normalizer.parseMediaInfo. cbn [media track].
    rewrite !fold_filename. reflexivity.
  - unfold Normalizer.parseMediaInfo. cbn [media track].
    rewrite !fold_general_tracks, grouped_general. reflexivity.
  - unfold Normalizer.parseMediaInfo. cbn [media track].
    rewrite !fold_video, !find_hd_filter, !filter_reverse, grouped_video.
    reflexivity.
  - rewrite !parse_audio, (audios_filter ts), (audios_filter (grouped ts)),
      grouped_audio. reflexivity.
  - unfold Normalizer.parseMediaInfo. cbn [media track].
    rewrite !fold_texts, (texts_filter ts), (texts_filter (grouped ts)),
      grouped_text. reflexivity.
Qed.

End ReportShape.

(** An instance: the second audio entry of a list with an unknown type
    in between. *)
Lemma entries_numbered_witness :
  exists a,
    nth_error
      (audio (parseMediaInfo asciiUpper asciiLower (fun _ => [])
                {| media := Some {| track := mixed_tracks |} |} (lit "a.mkv")))
      1 = Some a
    /\ a_index a = 1.
Proof.
  eexists. split.
  - vm_compute. reflexivity.
  - apply (proj1 (@entries_numbered asciiUpper asciiLower (fun _ => [])
                    mixed_tracks (lit "a.mkv")) 1%nat).
    vm_compute. reflexivity.
Defined.

Example last_video_sample :
  video (parseMediaInfo asciiUpper asciiLower (fun _ => [])
           {| media := Some {| track := mixed_tracks |} |} (lit "a.mkv"))
  = Some (videoOf (video_track 1920 1080)).
Proof. vm_compute. reflexivity. Qed.

(** ** The escape of the report module ([services/mediainfo-image.ts]) *)

Lemma report_escapeHtml_entity s : Report.escapeHtml s = flat_map entity5 s.
Proof.
  unfold Report.escapeHtml.
  unfold replaceAll at 5.
  rewrite !replaceAll_flat_map.
  apply flat_map_ext. intros c. unfold entity5.
  destruct (c =? amp)%N eqn:E1; [reflexivity|].
  destruct (c =? lang)%N eqn:E2.
  { cbn. rewrite E2. reflexivity. }
  destruct (c =? rang)%N eqn:E3.
  { cbn. rewrite E2. cbn. rewrite E3. reflexivity. }
  destruct (c =? quot)%N eqn:E4.
  { cbn. rewrite E2. cbn. rewrite E3. cbn. rewrite E4. reflexivity. }
  destruct (c =? apos)%N eqn:E5.
  { cbn. rewrite E2. cbn. rewrite E3. cbn. rewrite E4. cbn. rewrite E5. reflexivity. }
  cbn. rewrite E2. cbn. rewrite E3. cbn. rewrite E4. cbn. rewrite E5. reflexivity.
Qed.

(** X13.  The escape of the report module leaves no [<], no [>], no
    double and no single quote, and every [&] of its output begins one
    of the entities [&amp;], [&lt;], [&gt;], [&quot;], [&#039;].  Two
    texts with the same escape are the same text. *)
Theorem report_escapeHtml_sound (str : jsstring) :
  Forall (fun c => c <> lang /\ c <> rang /\ c <> quot /\ c <> apos)
         (Report.escapeHtml str)
  /\ (forall pre post,
        Report.escapeHtml str = pre ++ amp :: post ->
        exists name rest, In name entity5_names /\ post = name ++ rest)
  /\ (forall other, Report.escapeHtml str = Report.escapeHtml other -> str = other).
Proof.
  rewrite report_escapeHtml_entity. split; [|split].
  - induction str as [|c s IH]; simpl; [constructor|].
    apply Forall_app. split; [|exact IH].
    unfold entity5.
    destruct (c =? amp)%N eqn:E1; [repeat constructor; discriminate|].
    destruct (c =? lang)%N eqn:E2; [repeat constructor; discriminate|].
    destruct (c =? rang)%N eqn:E3; [repeat constructor; discriminate|].
    destruct (c =? quot)%N eqn:E4; [repeat constructor; discriminate|].
    destruct (c =? apos)%N eqn:E5; [repeat constructor; discriminate|].
    apply N.eqb_neq in E2, E3, E4, E5. repeat constructor; assumption.
  - induction str as [|c s IH]; intros pre post H; simpl in H.
    { destruct pre; discriminate. }
    unfold entity5 in H.
    destruct (c =? amp)%N eqn:E1; [head_entity H pre IH (lit "amp;")|].
    destruct (c =? lang)%N eqn:E2; [head_entity H pre IH (lit "lt;")|].
    destruct (c =? rang)%N eqn:E3; [head_entity H pre IH (lit "gt;")|].
    destruct (c =? quot)%N eqn:E4; [head_entity H pre IH (lit "quot;")|].
    destruct (c =? apos)%N eqn:E5; [head_entity H pre IH (lit "#039;")|].
    simpl in H. destruct pre as [|x pre]; simpl in H.
    + injection H as H _. apply N.eqb_neq in E1. congruence.
    + injection H as _ H. apply (IH _ _ H).
  - intros other. rewrite report_escapeHtml_entity. revert other.
    induction str as [|c s IH]; intros [|d t] H; simpl in H.
    + reflexivity.
    + exfalso. unfold entity5 in H.
      repeat match type of H with
             | context [if ?b then _ else _] => destruct b
             end; discriminate.
    + exfalso. unfold entity5 in H.
      repeat match type of H with
             | context [if ?b then _ else _] => destruct b
             end; discriminate.
    + assert (c = d /\ flat_map entity5 s = flat_map entity5 t) as [-> H'].
      { unfold entity5 in H.
        destruct (c =? amp)%N eqn:C1; [apply N.eqb_eq in C1|];
        [|destruct (c =? lang)%N eqn:C2; [apply N.eqb_eq in C2|]];
        [| |destruct (c =? rang)%N eqn:C3; [apply N.eqb_eq in C3|]];
        [| | |destruct (c =? quot)%N eqn:C4; [apply N.eqb_eq in C4|]];
        [| | | |destruct (c =? apos)%N eqn:C5; [apply N.eqb_eq in C5|]];
        (destruct (d =? amp)%N eqn:D1; [apply N.eqb_eq in D1|];
        [|destruct (d =? lang)%N eqn:D2; [apply N.eqb_eq in D2|]];
        [| |destruct (d =? rang)%N eqn:D3; [apply N.eqb_eq in D3|]];
        [| | |destruct (d =? quot)%N eqn:D4; [apply N.eqb_eq in D4|]];
        [| | | |destruct (d =? apos)%N eqn:D5; [apply N.eqb_eq in D5|]]);
        subst; simpl in H; try discriminate H;
        try (injection H as H; split; [reflexivity | exact H]);
        try (injection H as H0 H; subst;
             first [ discriminate C1 | discriminate D1
                   | split; [reflexivity | exact H] ]). }
      f_equal. apply IH. exact H'.
Qed.

(** An instance: the ampersand the escape puts in for a single quote. *)
Lemma report_escapeHtml_sound_witness :
  (exists name rest, In name entity5_names /\ lit "#039;s" = name ++ rest)
  /\ lit "a'b" = lit "a'b".
Proof.
  split.
  - apply (proj1 (proj2 (report_escapeHtml_sound (lit "it's"))) (lit "it")
             (lit "#039;s")).
    reflexivity.
  - apply (proj2 (proj2 (report_escapeHtml_sound (lit "a'b")))). reflexivity.
Defined.

(** ** The styled text ([services/mediainfo-image.ts]) *)

Import Report.

Lemma rows_partition (subList : list jsstring) (i : Z) :
  0 <= i ->
  exists groups,
    rows subList i = map (join (lit "  ")) groups
    /\ partitioned 4 groups (skipn (Z.to_nat i) subList).
Proof.
  funelim (rows subList i); intros Hi.
  - destruct (H ltac:(lia)) as [groups [E P]].
    exists (slice subList i (i + 4) :: groups). rewrite E.
    split; [reflexivity|].
    rewrite slice_inside by lia. apply partitioned_cons; [lia | lia | exact P].
  - exists []. split; [reflexivity | apply partitioned_nil; lia].
Qed.

Lemma existsb_eqb_In (x : jsstring) (seen : list jsstring) :
  existsb (eqb x) seen = true <-> In x seen.
Proof.
  rewrite existsb_exists. split.
  - intros [y [Hy E]]. apply eqb_eq in E. subst. exact Hy.
  - intros H. exists x. split; [exact H | apply eqb_refl].
Qed.

Lemma distinct_spec (xs : list jsstring) : forall seen,
  NoDup (distinct seen xs)
  /\ (forall x, In x (distinct seen xs) <-> In x xs /\ ~ In x seen).
Proof.
  induction xs as [|x xs IH]; intros seen; simpl.
  - split; [constructor | intros x; tauto].
  - destruct (existsb (eqb x) seen) eqn:E.
    + apply existsb_eqb_In in E. destruct (IH seen) as [N I].
      split; [exact N|]. intros y. rewrite I. split; [tauto|].
      intros [[-> | H] Hn]; [contradiction | tauto].
    + assert (Hx : ~ In x seen).
      { intros H. apply existsb_eqb_In in H. congruence. }
      destruct (IH (x :: seen)) as [N I]. split.
      * constructor; [|exact N]. rewrite I. simpl. tauto.
      * intros y. simpl. rewrite I. simpl. split.
        -- intros [<- | [H1 H2]]; tauto.
        -- intros [[<- | H1] H2]; [tauto|].
           destruct (list_eq_dec N.eq_dec x y) as [-> | Hne]; [tauto|]. right. tauto.
Qed.

(** X14.  When the report has subtitles, the styled text ends with the
    TEXT heading, the rows of subtitle labels, an empty line, the line
    of flags, an empty line and the signature.  The rows hold the
    labels of all subtitles in order, four to a row (the last row one
    to four); the line of flags shows every flag of a subtitle once. *)
Theorem styled_subtitle_block (parsed : ParsedMediaInfo) :
  subtitles parsed <> [] ->
  exists before groups flags,
    formatMediaInfoStyledText parsed
    = join [10%N]
        (before ++ [heading "TEXT"] ++ map (join (lit "  ")) groups
         ++ [[]; join (lit " ") flags] ++ footer)
    /\ partitioned 4 groups (map subtitleLabel (subtitles parsed))
    /\ NoDup flags
    /\ (forall f, In f flags <-> In f (map s_flag (subtitles parsed))).
Proof.
  intros Hne. unfold formatMediaInfoStyledText, styledLines, subtitleLines.
  destruct (subtitles parsed) as [|s0 subs] eqn:Es; [congruence|].
  destruct (@rows_partition (map subtitleLabel (s0 :: subs)) 0 ltac:(lia))
    as [groups [E P]].
  destruct (distinct_spec (map s_flag (s0 :: subs)) []) as [N I].
  exists ([ folder ++ lit " <b>" ++ escapeHtml (filename parsed) ++ lit "</b>"; [] ]
          ++ generalLines (general parsed) ++ videoLines (video parsed)
          ++ audioLines (audio parsed)),
    groups, (distinct [] (map s_flag (s0 :: subs))).
  split; [|split; [exact P | split; [exact N|]]].
  - rewrite E. unfold footer. f_equal. rewrite <- !app_assoc. reflexivity.
  - intros f. rewrite I. simpl. tauto.
Qed.

(** An instance: five subtitles in two languages. *)
Lemma styled_subtitle_block_witness :
  exists before groups flags,
    formatMediaInfoStyledText five_subtitles
    = join [10%N]
        (before ++ [heading "TEXT"] ++ map (join (lit "  ")) groups
         ++ [[]; join (lit " ") flags] ++ footer)
    /\ partitioned 4 groups (map subtitleLabel (subtitles five_subtitles))
    /\ NoDup flags
    /\ (forall f, In f flags <-> In f (map s_flag (subtitles five_subtitles))).
Proof. apply (@styled_subtitle_block five_subtitles). discriminate. Defined.

Example styled_subtitle_sample :
  skipn 8 (styledLines five_subtitles)
  = [ heading "TEXT";
      lit "#0 SRT En  #1 SRT Fr  #2 SRT En  #3 SRT Fr";
      lit "#4 SRT En";
      [];
      lit "En Fr";
      [];
      lit "<i>Made with " ++ heart ++ lit " by Zyfora</i>" ].
Proof. vm_compute. reflexivity. Qed.

(** ** The image request ([services/mediainfo-image.ts]) *)

Section ImageFacts.

Variable World : Type.
Variable fetch : Request -> World -> Result Response * World.
Variable btoa : jsstring -> Result jsstring.
Variable JSON_stringify : list (jsstring * JsonField) -> jsstring.

(** X15.  Without a user id or without an API key no request is made
    and the result is the failure "Image generation API credentials not
    configured".  Otherwise at most one request is made: a POST to
    https://hcti.io/v1/image that carries the credentials in Basic
    form and the serialized request as body.  Whatever the answer, the
    function returns: a success carries a non-empty URL and no
    message, a failure carries a message and no URL. *)
Theorem image_request_guarded (html : jsstring) (apiUserId apiKey : option jsstring)
  (s : Run World) :
  let out := generateMediaInfoImage fetch btoa JSON_stringify html apiUserId apiKey s in
  (truthy_opt_str apiUserId && truthy_opt_str apiKey = false ->
   out = (image_failed (lit "Image generation API credentials not configured"), s))
  /\ (snd out = s
      \/ exists req r credentials,
           trace (snd out) = trace s ++ [(req, r)]
           /\ btoa (or_str apiUserId [] ++ lit ":" ++ or_str apiKey []) = inr credentials
           /\ req = {| url := lit "https://hcti.io/v1/image";
                       method := lit "POST";
                       headers := [ (lit "Content-Type", lit "application/json");
                                    (lit "Authorization", lit "Basic " ++ credentials) ];
                       body := TextBody (JSON_stringify (image_request html)) |})
  /\ well_formed (fst out).
Proof.
  cbv zeta. unfold generateMediaInfoImage, well_formed.
  destruct (truthy_opt_str apiUserId) eqn:Eu; cbn [negb orb andb].
  2: { unfold ret. cbn. split; [reflexivity|]. split; [left; reflexivity|].
       split; [reflexivity | eexists; reflexivity]. }
  destruct (truthy_opt_str apiKey) eqn:Ek; cbn [negb orb andb].
  2: { unfold ret. cbn. split; [reflexivity|]. split; [left; reflexivity|].
       split; [reflexivity | eexists; reflexivity]. }
  split; [discriminate|].
  unfold try_catch, xbind, bind, fetchM, ret, xret, throw.
  destruct (btoa (or_str apiUserId [] ++ lit ":" ++ or_str apiKey []))
    as [msg | credentials] eqn:Eb.
  { cbn. split; [left; reflexivity|]. split; [reflexivity | eexists; reflexivity]. }
  match goal with
  | |- context [fetch ?req (world s)] =>
      destruct (fetch req (world s)) as [[msg | response] w1] eqn:Eg
  end.
  { cbn -[lit]. split; [right; do 3 eexists; repeat split|].
    split; [reflexivity | eexists; reflexivity]. }
  cbn -[lit]. destruct (ok response); cbn -[lit].
  - destruct (json response) as [msg | [|members]]; cbn -[lit member truthy_field].
    + split; [right; do 3 eexists; repeat split|].
      split; [reflexivity | eexists; reflexivity].
    + split; [right; do 3 eexists; repeat split|].
      split; [reflexivity | eexists; reflexivity].
    + match goal with
      | |- context [if truthy_field ?f then _ else _] =>
          destruct (truthy_field f) eqn:Et
      end; cbn -[lit member truthy_field].
      * split; [right; do 3 eexists; repeat split|].
        split; [exact Et | reflexivity].
      * split; [right; do 3 eexists; repeat split|].
        split; [reflexivity | eexists; reflexivity].
  - destruct (Http.text response) as [msg | txt]; cbn -[lit];
      (split; [right; do 3 eexists; repeat split|];
       split; [reflexivity | eexists; reflexivity]).
Qed.

End ImageFacts.

(** An instance: no user id. *)
Lemma image_request_guarded_witness :
  generateMediaInfoImage scripted plain_btoa no_stringify (lit "<html>")
    None (Some (lit "key")) (start [])
  = (image_failed (lit "Image generation API credentials not configured"),
     start []).
Proof.
  apply (proj1 (@image_request_guarded Script scripted plain_btoa no_stringify
                  (lit "<html>") None (Some (lit "key")) (start []))).
  reflexivity.
Defined.

(** With both credentials: one request, and the URL of the answer. *)
Example image_request_sample :
  let out := generateMediaInfoImage scripted plain_btoa no_stringify
               (lit "<html>") (Some (lit "u")) (Some (lit "k"))
               (start [respond_json 200 [(lit "url", JString (lit "https://hcti.io/v1/image/1"))]]) in
  fst out = {| i_success := true;
               i_url := Some (JString (lit "https://hcti.io/v1/image/1"));
               i_error := None |}
  /\ map (fun ev => headers (fst ev)) (trace (snd out))
     = [ [ (lit "Content-Type", lit "application/json");
           (lit "Authorization", lit "Basic u:k") ] ].
Proof. vm_compute. split; reflexivity. Qed.

(** ** The chunk reader ([services/mediainfo.ts]) *)

Lemma readChunk_window (fileBuffer : list N) (chunkSize offset : Z) :
  0 <= offset -> 0 <= chunkSize ->
  Adapter.readChunk fileBuffer chunkSize offset
  = firstn (Z.to_nat chunkSize) (skipn (Z.to_nat offset) fileBuffer).
Proof.
  intros Ho Hc. unfold Adapter.readChunk.
  destruct (Z.of_nat (List.length fileBuffer) <=? offset) eqn:E.
  - apply Z.leb_le in E. rewrite skipn_all2 by lia. rewrite firstn_nil. reflexivity.
  - apply Z.leb_gt in E. unfold Adapter.subarray, Adapter.relative.
    replace (offset <? 0) with false by (symmetry; apply Z.ltb_ge; lia).
    replace (Z.min (offset + chunkSize) (Z.of_nat (List.length fileBuffer)) <? 0)
      with false by (symmetry; apply Z.ltb_ge; lia).
    rewrite (Z.min_l offset) by lia.
    rewrite (Z.min_l (Z.min _ _)) by lia.
    destruct (Z_le_gt_dec (offset + chunkSize) (Z.of_nat (List.length fileBuffer)))
      as [L|G].
    + rewrite Z.min_l by lia. f_equal. lia.
    + rewrite Z.min_r by lia.
      rewrite !firstn_all2; try reflexivity; rewrite length_skipn; lia.
Qed.

Lemma firstn_plus {T} (a b : nat) (l : list T) :
  firstn (a + b) l = firstn a l ++ firstn b (skipn a l).
Proof.
  revert l. induction a as [|a IH]; intros l; [reflexivity|].
  destruct l as [|x l]; simpl.
  - rewrite firstn_nil. reflexivity.
  - rewrite IH. reflexivity.
Qed.

(** X16.  The reader never goes past the end of the buffer: at an
    offset [>= 0] it returns [min(chunkSize, length - offset)] bytes,
    none at or past the end.  Reading at the offsets 0, [chunkSize],
    [2 * chunkSize], ... returns consecutive pieces of the buffer, and
    as soon as the offsets cover its length the pieces put end to end
    are the buffer. *)
Theorem readChunk_reassembles (fileBuffer : list N) (chunkSize : Z) (n : nat) :
  0 < chunkSize ->
  (forall offset, 0 <= offset ->
     Z.of_nat (List.length (Adapter.readChunk fileBuffer chunkSize offset))
     = Z.max 0 (Z.min chunkSize (Z.of_nat (List.length fileBuffer) - offset)))
  /\ List.concat
       (map (fun k => Adapter.readChunk fileBuffer chunkSize (Z.of_nat k * chunkSize))
            (seq 0 n))
     = firstn (n * Z.to_nat chunkSize) fileBuffer
  /\ (Z.of_nat (List.length fileBuffer) <= Z.of_nat n * chunkSize ->
      List.concat
        (map (fun k => Adapter.readChunk fileBuffer chunkSize (Z.of_nat k * chunkSize))
             (seq 0 n))
      = fileBuffer).
Proof.
  intros Hc.
  assert (Hcat :
    List.concat
      (map (fun k => Adapter.readChunk fileBuffer chunkSize (Z.of_nat k * chunkSize))
           (seq 0 n))
    = firstn (n * Z.to_nat chunkSize) fileBuffer).
  { induction n as [|n IH]; [reflexivity|].
    rewrite seq_S, map_app, concat_app, IH. cbn [map List.concat plus].
    rewrite app_nil_r, readChunk_window by lia.
    replace (Z.to_nat (Z.of_nat n * chunkSize)) with (n * Z.to_nat chunkSize)%nat by lia.
    replace (S n * Z.to_nat chunkSize)%nat
      with (n * Z.to_nat chunkSize + Z.to_nat chunkSize)%nat by lia.
    rewrite firstn_plus. reflexivity. }
  split; [|split].
  - intros offset Ho. rewrite readChunk_window, length_firstn, length_skipn by lia. lia.
  - exact Hcat.
  - intros Hn. rewrite Hcat. apply firstn_all2. lia.
Qed.

(** An instance: five bytes read two at a time. *)
Lemma readChunk_reassembles_witness :
  List.concat
    (map (fun k => Adapter.readChunk [1; 2; 3; 4; 5]%N 2 (Z.of_nat k * 2))
         (seq 0 3))
  = [1; 2; 3; 4; 5]%N.
Proof.
  apply (proj2 (proj2 (@readChunk_reassembles [1; 2; 3; 4; 5]%N 2 3%nat
                         ltac:(lia)))).
  simpl. lia.
Defined.

(** ** The engine protocol ([services/mediainfo.ts]) *)

Section ProtocolFacts.

Import Adapter.

Variable World : Type.
Variable createMediaInfo : World -> Result Options * World.
Variable analyzeData :
  Options -> Z -> (Z -> Z -> list N) -> World -> Result MediaInfoResult * World.
Variable reset : World -> Result unit * World.
Variable inform : World -> Result jsstring * World.
Variable close : World -> Result unit * World.
Variable performance_now : World -> Z.

Notation analyzeMediaBuffer :=
  (analyzeMediaBuffer createMediaInfo analyzeData reset inform close
     performance_now).

(** X17.  When the adapter returns an analysis, the calls it made on
    the engine are exactly these, in this order: create; analyse in
    "object" format; reset; analyse in "text" format; inform; close.
    Both analyses run with a chunk size of 5 MiB, without cover data,
    in full mode, over the declared file size.  The diagnostics carry
    the length of the buffer and the file name. *)
Theorem engine_protocol_on_success
  (fileBuffer : list N) (fileSize : Z) (filename : jsstring) (w : World)
  (a : MediaInfoAnalysis) :
  let out := analyzeMediaBuffer fileBuffer fileSize filename (begin w) in
  fst out = inr a ->
  calls (snd out)
  = [ CreateMediaInfo; AnalyzeData (pass "object") fileSize; Reset;
      AnalyzeData (pass "text") fileSize; Inform; Close ]
  /\ bufferSize (diagnostics a) = Z.of_nat (List.length fileBuffer)
  /\ diag_filename (diagnostics a) = filename.
Proof.
  unfold Adapter.analyzeMediaBuffer, try_finally, xbind, bind, xret, throw, ret,
    call, clock, set_format, getOptions, setOptions, analyzeDataM, call, begin, pass.
  cbn.
  destruct (createMediaInfo w) as [[msg | o] w1] eqn:Ec; cbn; [discriminate|].
  match goal with
  | |- context [analyzeData ?o ?n ?f w1] =>
      destruct (analyzeData o n f w1) as [[msg1 | res] w2] eqn:E1; cbn
  end.
  { destruct (close w2) as [[msgc | []] w3]; cbn; discriminate. }
  destruct (reset w2) as [[msg2 | []] w3] eqn:E2; cbn.
  { destruct (close w3) as [[msgc | []] w4]; cbn; discriminate. }
  match goal with
  | |- context [analyzeData ?o ?n ?f w3] =>
      destruct (analyzeData o n f w3) as [[msg3 | res'] w4] eqn:E3; cbn
  end.
  { destruct (close w4) as [[msgc | []] w5]; cbn; discriminate. }
  destruct (inform w4) as [[msg4 | txt] w5] eqn:E4; cbn.
  { destruct (close w5) as [[msgc | []] w6]; cbn; discriminate. }
  destruct (close w5) as [[msgc | []] w6]; cbn; [discriminate|].
  intros H. injection H as <-. cbn. repeat split.
Qed.

End ProtocolFacts.

(** An instance: an engine that does nothing. *)
Lemma engine_protocol_on_success_witness :
  Adapter.calls
    (snd (Adapter.analyzeMediaBuffer idle_create idle_analyze idle_unit
            idle_inform idle_unit idle_clock [1; 2; 3]%N 3 (lit "a.mkv")
            (Adapter.begin tt)))
  = [ Adapter.CreateMediaInfo; Adapter.AnalyzeData (pass "object") 3;
      Adapter.Reset; Adapter.AnalyzeData (pass "text") 3; Adapter.Inform;
      Adapter.Close ].
Proof.
  eapply proj1.
  eapply (@engine_protocol_on_success unit idle_create idle_analyze idle_unit
            idle_inform idle_unit idle_clock [1; 2; 3]%N 3 (lit "a.mkv") tt).
  vm_compute. reflexivity.
Defined.

(** ** The formatters of the engine adapter ([services/mediainfo.ts]) *)

(** X18.  For a duration of [0 <= ms < 2^53] milliseconds the numbers
    printed are a true clock reading of the whole seconds, minutes and
    seconds below 60: "Hh Mm Ss" from one hour on, "Mm Ss" from one
    minute on, and "Ss" below. *)
Theorem service_formatDuration_clock (ms : Z) :
  0 <= ms < 2 ^ 53 ->
  exists h m s,
    clock_reading ms h m s
    /\ Service.formatDuration ms
       = if 0 <? h
         then dec h ++ lit "h " ++ dec m ++ lit "m " ++ dec s ++ lit "s"
         else if 0 <? m then dec m ++ lit "m " ++ dec s ++ lit "s"
         else dec s ++ lit "s".
Proof.
  intros H. unfold Service.formatDuration, clock_reading.
  rewrite floor_quotient_seconds by exact H.
  assert (Hs : 0 <= ms / 1000) by (apply Z.div_pos; lia).
  assert (Hb : ms / 1000 < 2 ^ 53 - 1000).
  { apply Z.div_lt_upper_bound; lia. }
  set (t := ms / 1000) in *. clearbody t.
  assert (Hm : 0 <= t / 60) by (apply Z.div_pos; lia).
  assert (Hmb : t / 60 < 2 ^ 53 - 1000).
  { apply Z.div_lt_upper_bound; lia. }
  rewrite (@floor_quotient_whole t 60) by lia.
  rewrite (@floor_quotient_whole (t / 60) 60) by lia.
  rewrite !Z.rem_mod_nonneg by lia.
  exists (t / 60 / 60), (t / 60 mod 60), (t mod 60).
  pose proof (Z.div_mod t 60 ltac:(lia)).
  pose proof (Z.mod_pos_bound t 60 ltac:(lia)).
  pose proof (Z.div_mod (t / 60) 60 ltac:(lia)).
  pose proof (Z.mod_pos_bound (t / 60) 60 ltac:(lia)).
  split.
  - split; [apply Z.div_pos; lia|]. split; [lia|]. split; lia.
  - destruct (0 <? t / 60 / 60) eqn:E1; [reflexivity|].
    apply Z.ltb_ge in E1.
    assert (E0 : t / 60 / 60 = 0) by (pose proof (Z.div_pos (t / 60) 60); lia).
    assert (Em : t / 60 mod 60 = t / 60) by lia.
    rewrite Em. destruct (0 <? t / 60) eqn:E2; [reflexivity|].
    apply Z.ltb_ge in E2. assert (t / 60 = 0) by lia.
    replace (t mod 60) with t by lia. reflexivity.
Qed.

(** An instance: 1 h 23 min 45 s. *)
Lemma service_formatDuration_clock_witness :
  exists h m s,
    clock_reading 5025000 h m s
    /\ Service.formatDuration 5025000
       = if 0 <? h
         then dec h ++ lit "h " ++ dec m ++ lit "m " ++ dec s ++ lit "s"
         else if 0 <? m then dec m ++ lit "m " ++ dec s ++ lit "s"
         else dec s ++ lit "s".
Proof. apply (@service_formatDuration_clock 5025000). lia. Defined.

(** ** Rates with a decimal point *)

(** [(x / 1000).toFixed(1)] prints a number of tenths nearest to the
    quotient. *)
Lemma thousandth_tenths (a : Z) :
  1000 <= a < 2 ^ 53 ->
  exists n,
    toFixed 1 (fdiv (of_Z a) (of_Z 1000)) = point 1 n
    /\ 0 <= n /\ Z.abs (n * 100 - a) <= 50.
Proof.
  intros Ha.
  destruct (@fdiv_Z a 1000 ltac:(lia) ltac:(lia)) as [M [k [E [Hk [HM Hn]]]]].
  rewrite E. unfold toFixed, toFixed_n. cbn [app]. rewrite Z2Pos.id by lia.
  change (10 ^ Z.of_nat 1) with 10.
  assert (Hn' : -500 <= M * 1000 - a * 2 ^ k <= 500) by lia. clear Hn.
  assert (Hk9 : 9 <= k).
  { destruct (Z_lt_le_dec k 9) as [Hlt | Hge]; [|exact Hge]. exfalso.
    assert (2 ^ k <= 2 ^ 8) by (apply Z.pow_le_mono_r; lia).
    assert (0 < 2 ^ k) by (apply Z.pow_pos_nonneg; lia). nia. }
  replace (0 <=? - k) with false by (symmetry; apply Z.leb_gt; lia).
  rewrite Z.opp_involutive.
  assert (HP1 : 2 ^ (k + 1) = 2 * 2 ^ k)
    by (rewrite Z.pow_add_r by lia; lia).
  assert (HPbig : 2 ^ 9 <= 2 ^ k) by (apply Z.pow_le_mono_r; lia).
  rewrite HP1. set (P := 2 ^ k) in *. clearbody P.
  pose proof (Z.div_mod (2 * M * 10 + P) (2 * P) ltac:(lia)) as Hdm.
  pose proof (Z.mod_pos_bound (2 * M * 10 + P) (2 * P) ltac:(lia)) as Hr.
  set (n := (2 * M * 10 + P) / (2 * P)) in *. clearbody n.
  set (r := (2 * M * 10 + P) mod (2 * P)) in *. clearbody r.
  exists n. split; [reflexivity|].
  assert (Hn0 : 0 <= n) by nia.
  split; [exact Hn0|]. apply abs_le_iff.
  assert (Hlow : P * ((2 * n - 1) * 50 - a) <= 500) by nia.
  assert (Hup : P * (a - (2 * n + 1) * 50) < 500) by nia.
  assert (H1 : (2 * n - 1) * 50 - a <= 0) by nia.
  assert (H2 : a - (2 * n + 1) * 50 <= 0) by nia.
  lia.
Qed.

(** [(x / 1000000).toFixed(2)] prints a number of hundredths nearest to
    the quotient. *)
Lemma millionth_hundredths (b : Z) :
  1000000 <= b < 2 ^ 53 ->
  exists n,
    toFixed 2 (fdiv (of_Z b) (of_Z 1000000)) = point 2 n
    /\ 0 <= n /\ Z.abs (n * 10000 - b) <= 5000.
Proof.
  intros Hb.
  destruct (@fdiv_Z b 1000000 ltac:(lia) ltac:(lia)) as [M [k [E [Hk [HM Hn]]]]].
  rewrite E. unfold toFixed, toFixed_n. cbn [app]. rewrite Z2Pos.id by lia.
  change (10 ^ Z.of_nat 2) with 100.
  assert (Hn' : -500000 <= M * 1000000 - b * 2 ^ k <= 500000) by lia. clear Hn.
  assert (Hk19 : 19 <= k).
  { destruct (Z_lt_le_dec k 19) as [Hlt | Hge]; [|exact Hge]. exfalso.
    assert (2 ^ k <= 2 ^ 18) by (apply Z.pow_le_mono_r; lia).
    assert (0 < 2 ^ k) by (apply Z.pow_pos_nonneg; lia). nia. }
  replace (0 <=? - k) with false by (symmetry; apply Z.leb_gt; lia).
  rewrite Z.opp_involutive.
  assert (HP1 : 2 ^ (k + 1) = 2 * 2 ^ k)
    by (rewrite Z.pow_add_r by lia; lia).
  assert (HPbig : 2 ^ 19 <= 2 ^ k) by (apply Z.pow_le_mono_r; lia).
  rewrite HP1. set (P := 2 ^ k) in *. clearbody P.
  pose proof (Z.div_mod (2 * M * 100 + P) (2 * P) ltac:(lia)) as Hdm.
  pose proof (Z.mod_pos_bound (2 * M * 100 + P) (2 * P) ltac:(lia)) as Hr.
  set (n := (2 * M * 100 + P) / (2 * P)) in *. clearbody n.
  set (r := (2 * M * 100 + P) mod (2 * P)) in *. clearbody r.
  exists n. split; [reflexivity|].
  assert (Hn0 : 0 <= n) by nia.
  split; [exact Hn0|]. apply abs_le_iff.
  assert (Hlow : P * ((2 * n - 1) * 5000 - b) <= 500000) by nia.
  assert (Hup : P * (b - (2 * n + 1) * 5000) < 500000) by nia.
  assert (H1 : (2 * n - 1) * 5000 - b <= 0) by nia.
  assert (H2 : b - (2 * n + 1) * 5000 <= 0) by nia.
  lia.
Qed.

Lemma dec_step (n : Z) :
  10 <= n -> dec n = dec (n / 10) ++ [48 + Z.to_N (n mod 10)]%N.
Proof.
  intros Hn. assert (Hq : 0 <= n / 10) by (apply Z.div_pos; lia).
  unfold dec.
  replace (n <? 0) with false by (symmetry; apply Z.ltb_ge; lia).
  replace (n / 10 <? 0) with false by (symmetry; apply Z.ltb_ge; lia).
  rewrite (digits_step n). destruct (Z_lt_dec n 10); [lia | reflexivity].
Qed.

Lemma dec_length (n : Z) : 0 <= n -> (1 <= List.length (dec n))%nat.
Proof.
  intros Hn. unfold dec.
  replace (n <? 0) with false by (symmetry; apply Z.ltb_ge; lia).
  apply digits_length.
Qed.

(** A non-negative number of hundredths prints as its whole part, a
    point, and its last two digits. *)
Lemma point_hundredths (n : Z) :
  0 <= n ->
  point 2 n = dec (n / 100) ++ lit "." ++ dec (n / 10 mod 10) ++ dec (n mod 10).
Proof.
  intros Hn.
  pose proof (Z.mod_pos_bound n 10 ltac:(lia)) as Hm.
  pose proof (Z.mod_pos_bound (n / 10) 10 ltac:(lia)) as Hm1.
  rewrite (dec_digit Hm), (dec_digit Hm1).
  assert (E100 : n / 100 = n / 10 / 10) by (rewrite Z.div_div by lia; reflexivity).
  destruct (Z_lt_dec n 10) as [H10 | H10].
  - rewrite (Z.div_small n 100), (Z.div_small n 10), (Z.mod_small n 10) by lia.
    unfold point, pad_zeros. rewrite (@dec_digit n), (@dec_digit 0) by lia.
    reflexivity.
  - unfold point, pad_zeros. rewrite (dec_step (n := n)) by lia.
    destruct (Z_lt_dec n 100) as [H100 | H100].
    + assert (Hq : 0 <= n / 10 < 10).
      { split; [apply Z.div_pos; lia | apply Z.div_lt_upper_bound; lia]. }
      rewrite (Z.div_small n 100), (Z.mod_small (n / 10) 10) by lia.
      rewrite (dec_digit Hq), (@dec_digit 0) by lia.
      reflexivity.
    + assert (Hq : 10 <= n / 10) by (apply Z.div_le_lower_bound; lia).
      rewrite (dec_step (n := n / 10)) by lia. rewrite <- E100.
      assert (Hl : (1 <= List.length (dec (n / 100)))%nat).
      { apply dec_length. apply Z.div_pos; lia. }
      generalize dependent (dec (n / 100)). intros D HD.
      generalize (48 + Z.to_N (n mod 10))%N (48 + Z.to_N (n / 10 mod 10))%N.
      intros c0 c1.
      rewrite !List.length_app. cbn [List.length].
      replace (3 - (List.length D + 1 + 1))%nat with 0%nat by lia.
      cbn [repeat app List.length].
      replace (0 + (List.length D + 1 + 1) - 2)%nat with (List.length D) by lia.
      rewrite <- !app_assoc.
      rewrite firstn_app, skipn_app, firstn_all, skipn_all, Nat.sub_diag.
      cbn [firstn skipn app]. rewrite app_nil_r. reflexivity.
Qed.

(** X19.  For every whole rate [0 <= x < 2^53]: below 1000 both
    formatters print the value itself (" bps", " Hz").  From 1000 on
    the sample rate is printed as a number of tenths of kHz nearest to
    [x / 1000], and so is a bit rate below 10^6, in Kbps; from 10^6 on
    the bit rate is printed as a number of hundredths of Mbps nearest
    to [x / 10^6].  Where the quotient lies halfway the binary64 value
    decides between the two nearest. *)
Theorem service_rates (x : Z) :
  0 <= x < 2 ^ 53 ->
  (x < 1000 ->
   Service.formatBitrate x = dec x ++ lit " bps"
   /\ Service.formatSampleRate x = dec x ++ lit " Hz")
  /\ (1000 <= x ->
      exists n,
        Service.formatSampleRate x
        = dec (n / 10) ++ lit "." ++ dec (n mod 10) ++ lit " kHz"
        /\ 0 <= n /\ Z.abs (n * 100 - x) <= 50)
  /\ (1000 <= x < 1000000 ->
      exists n,
        Service.formatBitrate x
        = dec (n / 10) ++ lit "." ++ dec (n mod 10) ++ lit " Kbps"
        /\ 0 <= n /\ Z.abs (n * 100 - x) <= 50)
  /\ (1000000 <= x ->
      exists n,
        Service.formatBitrate x
        = dec (n / 100) ++ lit "." ++ dec (n / 10 mod 10) ++ dec (n mod 10)
          ++ lit " Mbps"
        /\ 0 <= n /\ Z.abs (n * 10000 - x) <= 5000).
Proof.
  intros Hx. unfold Service.formatBitrate, Service.formatSampleRate.
  split; [|split; [|split]].
  - intros H.
    replace (1000000 <=? x) with false by (symmetry; apply Z.leb_gt; lia).
    replace (1000 <=? x) with false by (symmetry; apply Z.leb_gt; lia).
    split; reflexivity.
  - intros H.
    replace (1000 <=? x) with true by (symmetry; apply Z.leb_le; lia).
    destruct (@thousandth_tenths x ltac:(lia)) as [n [E [Hn0 Hn]]].
    exists n. rewrite E, point_tenths by exact Hn0.
    rewrite <- !app_assoc. auto.
  - intros H.
    replace (1000000 <=? x) with false by (symmetry; apply Z.leb_gt; lia).
    replace (1000 <=? x) with true by (symmetry; apply Z.leb_le; lia).
    destruct (@thousandth_tenths x ltac:(lia)) as [n [E [Hn0 Hn]]].
    exists n. rewrite E, point_tenths by exact Hn0.
    rewrite <- !app_assoc. auto.
  - intros H.
    replace (1000000 <=? x) with true by (symmetry; apply Z.leb_le; lia).
    destruct (@millionth_hundredths x ltac:(lia)) as [n [E [Hn0 Hn]]].
    exists n. rewrite E, point_hundredths by exact Hn0.
    rewrite <- !app_assoc. auto.
Qed.

(** An instance: 22050 Hz, whose quotient 22.05 is halfway between two
    tenths. *)
Lemma service_rates_witness :
  exists n,
    Service.formatSampleRate 22050
    = dec (n / 10) ++ lit "." ++ dec (n mod 10) ++ lit " kHz"
    /\ 0 <= n /\ Z.abs (n * 100 - 22050) <= 50.
Proof.
  apply (proj1 (proj2 (@service_rates 22050 ltac:(lia)))). lia.
Defined.

Example service_rates_samples :
  Service.formatSampleRate 44100 = lit "44.1 kHz"
  /\ Service.formatSampleRate 48000 = lit "48.0 kHz"
  /\ Service.formatBitrate 1536000 = lit "1.54 Mbps"
  /\ Service.formatBitrate 128000 = lit "128.0 Kbps".
Proof. repeat split; vm_compute; reflexivity. Qed.

(** ** Transfers ([commands/mediainfo.ts], [services/google-drive.ts]) *)

Section TransferFacts.

Variable World : Type.
Variable fetch : Request -> World -> Result Response * World.
Variable extractFilenameFromUrl :
  jsstring -> (jsstring -> option jsstring) -> jsstring.
Variable now : World -> Z.

(** X20.  Whatever the server does, a download from a direct URL makes
    exactly two requests: a HEAD on the URL, without headers, and then a
    GET on the same URL; a failed HEAD is not an error.  The download
    fails (returns null) exactly when the GET was rejected, was answered
    with a status that is neither a success nor 206, or has a body that
    cannot be read. *)
Theorem download_two_requests (url : jsstring) (maxBytes : Z) (w : World) :
  let out := downloadFromUrl fetch extractFilenameFromUrl url maxBytes (start w) in
  exists headR getReq getR,
    trace (snd out)
    = [ ({| Http.url := url; method := lit "HEAD"; headers := []; body := NoBody |},
         headR);
        (getReq, getR) ]
    /\ Http.url getReq = url /\ method getReq = lit "GET" /\ body getReq = NoBody
    /\ (fst out = None <-> unusable getR).
Proof.
  unfold downloadFromUrl, try_catch, xbind, bind, fetchM, xret, throw,
    ret, start, unusable.
  cbn [world trace app].
  match goal with
  | |- context [fetch ?req w] => destruct (fetch req w) as [headR w1] eqn:Eh
  end.
  cbn [world trace app].
  match goal with
  | |- context [fetch ?req w1] =>
      destruct (fetch req w1) as [[msg | response] w2] eqn:Eg
  end; cbn [fst snd trace].
  { do 3 eexists. split; [reflexivity|]. repeat split; auto. }
  destruct (ok response) eqn:Eok; cbn [negb andb].
  - destruct (arrayBuffer response) as [msg | bytes] eqn:Eb; cbn [fst snd trace].
    + do 3 eexists. split; [reflexivity|]. repeat split; auto.
      intros _. right. exists msg. exact Eb.
    + do 3 eexists. split; [reflexivity|]. repeat split; auto; try discriminate.
      intros [[H _] | [msg H]]; [rewrite Eok in H|rewrite Eb in H]; discriminate.
  - destruct (status response =? 206) eqn:E206; cbn [negb].
    + apply Z.eqb_eq in E206.
      destruct (arrayBuffer response) as [msg | bytes] eqn:Eb; cbn [fst snd trace].
      * do 3 eexists. split; [reflexivity|]. repeat split; auto.
        intros _. right. exists msg. exact Eb.
      * do 3 eexists. split; [reflexivity|]. repeat split; auto; try discriminate.
        intros [[_ H] | [msg H]]; [congruence | rewrite Eb in H; discriminate].
    + apply Z.eqb_neq in E206. cbn [fst snd trace].
      do 3 eexists. split; [reflexivity|]. repeat split; auto.
Qed.

(** X21.  The file size a successful download from a direct URL
    reports is a number (never NaN), and it is 0 only when the buffer
    is empty: a size that is unknown or 0 gives way to the length of
    the buffer. *)
Theorem download_size_reported (url : jsstring) (maxBytes : Z) (w : World)
  (d : DownloadResult) :
  fst (downloadFromUrl fetch extractFilenameFromUrl url maxBytes (start w)) = Some d ->
  exists n, fileSize d = Some n /\ (n = 0 -> buffer d = []).
Proof.
  unfold downloadFromUrl, try_catch, xbind, bind, fetchM, xret, throw,
    ret, start.
  cbn [world trace app].
  match goal with
  | |- context [fetch ?req w] => destruct (fetch req w) as [headR w1] eqn:Eh
  end.
  cbn [world trace app].
  match goal with
  | |- context [fetch ?req w1] =>
      destruct (fetch req w1) as [[msg | response] w2] eqn:Eg
  end; cbn [fst snd trace]; [discriminate|].
  destruct (negb (ok response) && negb (status response =? 206));
    cbn [fst snd trace]; [discriminate|].
  destruct (arrayBuffer response) as [msg | bytes] eqn:Eb;
    cbn [fst snd trace]; [discriminate|].
  intros H. injection H as <-. cbn [buffer fileSize].
  unfold size_or_length.
  destruct (response_size (head_size headR) response) as [n|].
  - unfold truthy_num. destruct (n =? 0) eqn:E; cbn [negb].
    + eexists. split; [reflexivity|]. unfold length. destruct bytes; [reflexivity|].
      simpl. lia.
    + apply Z.eqb_neq in E. exists n. split; [reflexivity | lia].
  - eexists. split; [reflexivity|]. unfold length. destruct bytes; [reflexivity|].
    simpl. lia.
Qed.

(** *** The access token *)

Lemma dec_nonempty (n : Z) : dec n <> [].
Proof.
  unfold dec. destruct (n <? 0); [discriminate|].
  pose proof (digits_length n) as H. destruct (digits n); [simpl in H; lia | discriminate].
Qed.

Lemma truthy_field_string (f : option JsonField) :
  truthy_field f = true -> String_field f <> [].
Proof.
  destruct f as [[s | n]|]; simpl; intros H.
  - destruct s; [discriminate H | discriminate].
  - apply dec_nonempty.
  - discriminate H.
Qed.

(** X22.  A cached token that is not within five minutes of its expiry
    is returned as it is: no request is made and the client is left
    unchanged.  A call that returns a token returns a non-empty one,
    leaves it in the client, and has made at most one request, a POST
    to the token endpoint. *)
Theorem token_cache (s : DriveRun World) :
  (forall token expiry,
      accessToken (client s) = Some token -> token <> [] ->
      tokenExpiry (client s) = Some expiry ->
      now (world (run s)) < expiry - 300000 ->
      getAccessToken fetch now s = (inr token, s))
  /\ (forall token,
        fst (getAccessToken fetch now s) = inr token ->
        let s' := snd (getAccessToken fetch now s) in
        token <> [] /\ accessToken (client s') = Some token
        /\ (trace (run s') = trace (run s)
            \/ exists req r,
                 trace (run s') = trace (run s) ++ [(req, r)]
                 /\ url req = token_endpoint /\ method req = lit "POST")).
Proof.
  split.
  - intros token expiry Ht Hne He Hnow.
    assert (Et : truthy_str token = true) by (destruct token; [contradiction | reflexivity]).
    unfold getAccessToken, bind, thisM, nowM, xret, ret. rewrite Ht, He, Et.
    rewrite (proj2 (Z.ltb_lt _ _) Hnow). cbn. rewrite Et. reflexivity.
  - intros token. unfold getAccessToken, bind, thisM, nowM.
    match goal with
    | |- context [if ?b then _ else _] => destruct b eqn:Ef
    end.
    + unfold xret, ret. cbn. intros H. injection H as <-.
      destruct (accessToken (client s)) as [tok|]; [|discriminate Ef].
      destruct (tokenExpiry (client s)); [|discriminate Ef].
      apply andb_true_iff in Ef. destruct Ef as [Ef _]. cbn.
      rewrite Ef. split; [destruct tok; [discriminate Ef | discriminate]|].
      split; [reflexivity | left; reflexivity].
    + clear Ef. unfold xbind, bind, lift, fetchM, ret, xret, throw, cacheM.
      match goal with
      | |- context [fetch ?req (world (run s))] =>
          destruct (fetch req (world (run s))) as [[msg | response] w1] eqn:Eg
      end; cbn; [discriminate|].
      destruct (json response) as [msg | [|members]];
        cbn -[member truthy_field String_field number_field lit]; try discriminate.
      match goal with
      | |- context [negb (truthy_field ?f)] => destruct (truthy_field f) eqn:Et
      end; cbn -[member truthy_field String_field number_field lit]; [|discriminate].
      intros H. injection H as <-.
      split; [apply truthy_field_string; exact Et|].
      split; [reflexivity|]. right. do 2 eexists. split; [reflexivity|].
      split; reflexivity.
Qed.

(** *** The requests of a Drive download *)

Lemma drive_requests_refl fileId maxBytes n tr : drive_requests fileId maxBytes n tr tr.
Proof. exists []. rewrite app_nil_r. repeat split; [constructor | simpl; lia]. Qed.

Lemma drive_requests_trans fileId maxBytes n m t1 t2 t3 :
  drive_requests fileId maxBytes n t1 t2 -> drive_requests fileId maxBytes m t2 t3 ->
  drive_requests fileId maxBytes (n + m) t1 t3.
Proof.
  intros (a & -> & Fa & La) (b & -> & Fb & Lb). exists (a ++ b).
  rewrite app_assoc. repeat split; [apply Forall_app; auto | rewrite List.length_app; lia].
Qed.

Lemma token_requests fileId maxBytes (s : DriveRun World) :
  drive_requests fileId maxBytes 1 (trace (run s))
    (trace (run (snd (getAccessToken fetch now s)))).
Proof.
  unfold getAccessToken, bind, thisM, nowM.
  match goal with
  | |- context [if ?b then _ else _] => destruct b
  end.
  - apply drive_requests_refl.
  - unfold xbind, bind, lift, fetchM, ret, xret, throw, cacheM.
    match goal with
    | |- context [fetch ?req (world (run s))] =>
        destruct (fetch req (world (run s))) as [r w1] eqn:Eg
    end.
    assert (G : forall r', drive_requests fileId maxBytes 1 (trace (run s))
      (trace (run s) ++
        [({| url := lit "https://www.googleapis.com/oauth2/v4/token";
             method := lit "POST";
             headers := [(lit "Content-Type", lit "application/x-www-form-urlencoded")];
             body := FormBody
               [(lit "client_id", clientId (client s));
                (lit "client_secret", clientSecret (client s));
                (lit "refresh_token", refreshToken (client s));
                (lit "grant_type", lit "refresh_token")] |}, r')])).
    { intros r'. eexists. split; [reflexivity|]. split; [|simpl; lia].
      constructor; [|constructor]. left. split; reflexivity. }
    destruct r as [msg | response]; cbn -[lit]; [apply G|].
    destruct (json response) as [msg | [|members]]; cbn -[lit]; try apply G.
    match goal with
    | |- context [negb (truthy_field ?f)] => destruct (truthy_field f)
    end; cbn -[lit]; apply G.
Qed.

Lemma files_request fileId maxBytes rest hs tr r token :
  hs = [bearer token] \/ hs = [bearer token; range_header maxBytes] ->
  drive_requests fileId maxBytes 1 tr
    (tr ++ [({| url := lit "https://www.googleapis.com/drive/v3/files/" ++ fileId
                       ++ lit "?" ++ rest;
                method := lit "GET"; headers := hs; body := NoBody |}, r)]).
Proof.
  intros Hh. eexists. split; [reflexivity|]. split; [|simpl; lia].
  constructor; [|constructor]. right. cbn [fst url method body headers].
  split; [|split; [reflexivity | split; [reflexivity | exists token; exact Hh]]].
  exists rest. unfold files_endpoint. rewrite <- !app_assoc. reflexivity.
Qed.

Lemma metadata_requests fileId maxBytes (s : DriveRun World) :
  drive_requests fileId maxBytes 2 (trace (run s))
    (trace (run (snd (getFileMetadata fetch now fileId s)))).
Proof.
  unfold getFileMetadata, xbind, bind.
  pose proof (token_requests fileId maxBytes s) as Ht.
  destruct (getAccessToken fetch now s) as [[msg | token] s1]; cbn [snd] in *.
  { eapply (drive_requests_trans (n := 1) (m := 1)); [exact Ht | apply drive_requests_refl]. }
  eapply (drive_requests_trans (n := 1) (m := 1)); [exact Ht|].
  unfold lift, fetchM, ret, xret.
  match goal with
  | |- context [fetch ?req (world (run s1))] =>
      destruct (fetch req (world (run s1))) as [r w2] eqn:Eg
  end.
  assert (G : forall r', drive_requests fileId maxBytes 1 (trace (run s1))
    (trace (run s1) ++
       [({| url := lit "https://www.googleapis.com/drive/v3/files/" ++ fileId
                   ++ lit "?fields=" ++ metadata_fields
                   ++ lit "&supportsAllDrives=true";
            method := lit "GET"; headers := [bearer token]; body := NoBody |}, r')])).
  { intros r'.
    apply (@files_request fileId maxBytes
             (lit "fields=" ++ metadata_fields ++ lit "&supportsAllDrives=true")
             [bearer token] (trace (run s1)) r' token). left. reflexivity. }
  destruct r as [msg | response]; cbn -[lit metadata_fields]; [apply G|].
  destruct (negb (ok response)); cbn -[lit metadata_fields]; [apply G|].
  destruct (json response) as [msg | [|members]]; cbn -[lit metadata_fields]; apply G.
Qed.

(** X23.  Whatever the servers answer, a Drive download makes at most
    four requests, each of one of two kinds: the POST to the OAuth token
    endpoint, or a GET without body on
    https://www.googleapis.com/drive/v3/files/<fileId>?..., whose only
    headers are the bearer token and, possibly, the range of the cap. *)
Theorem drive_download_requests (fileId : jsstring) (maxBytes : Z)
  (s : DriveRun World) :
  drive_requests fileId maxBytes 4 (trace (run s))
    (trace (run (snd (downloadFileContent fetch now fileId maxBytes s)))).
Proof.
  unfold downloadFileContent, xbind, bind.
  pose proof (token_requests fileId maxBytes s) as Ht.
  destruct (getAccessToken fetch now s) as [[msg | token] s1]; cbn [snd] in *.
  { eapply (drive_requests_trans (n := 1) (m := 3)); [exact Ht | apply drive_requests_refl]. }
  eapply (drive_requests_trans (n := 1) (m := 3)); [exact Ht|].
  pose proof (metadata_requests fileId maxBytes s1) as Hm.
  destruct (getFileMetadata fetch now fileId s1) as [[msg | [metadata|]] s2];
    cbn [snd] in *;
    try (eapply (drive_requests_trans (n := 2) (m := 1));
         [exact Hm | apply drive_requests_refl]).
  eapply (drive_requests_trans (n := 2) (m := 1)); [exact Hm|].
  destruct (is_zero (parseInt10 (or_str (fm_size metadata) (lit "0"))));
    [apply drive_requests_refl|].
  unfold try_catch, xbind, bind, lift, fetchM, ret, xret.
  match goal with
  | |- context [fetch ?req (world (run s2))] =>
      destruct (fetch req (world (run s2))) as [r w3] eqn:Eg
  end.
  assert (G : forall r', drive_requests fileId maxBytes 1 (trace (run s2))
    (trace (run s2) ++
       [({| url := lit "https://www.googleapis.com/drive/v3/files/" ++ fileId
                   ++ lit "?alt=media&supportsAllDrives=true";
            method := lit "GET";
            headers := [bearer token]
                       ++ (if gt_num (parseInt10 (or_str (fm_size metadata) (lit "0")))
                                maxBytes
                           then [range_header maxBytes] else []);
            body := NoBody |}, r')])).
  { intros r'.
    apply (@files_request fileId maxBytes (lit "alt=media&supportsAllDrives=true")
             _ (trace (run s2)) r' token).
    destruct (gt_num _ maxBytes); [right | left]; reflexivity. }
  destruct r as [msg | response]; cbn -[lit]; [apply G|].
  destruct (negb (ok response) && negb (status response =? 206)); cbn -[lit]; [apply G|].
  destruct (arrayBuffer response); cbn -[lit]; apply G.
Qed.

End TransferFacts.

(** An instance: a server that announces five bytes and sends them. *)
Lemma download_size_reported_witness :
  exists d n,
    fst (downloadFromUrl scripted no_filename (lit "https://example.com/a.mkv")
           10 (start small_world)) = Some d
    /\ fileSize d = Some n /\ (n = 0 -> buffer d = []).
Proof.
  destruct (@download_size_reported Script scripted no_filename
              (lit "https://example.com/a.mkv") 10 small_world _ eq_refl)
    as [n H].
  eexists _, n. split; [reflexivity | exact H].
Defined.

(** An instance: a token with more than five minutes to live. *)
Lemma token_cache_witness :
  getAccessToken scripted (fun _ => 0)
    {| run := start []; client := holding (lit "T") 1000000 |}
  = (inr (lit "T"), {| run := start []; client := holding (lit "T") 1000000 |}).
Proof.
  apply (proj1 (@token_cache Script scripted (fun _ => 0)
                  {| run := start []; client := holding (lit "T") 1000000 |})
           (lit "T") 1000000).
  - reflexivity.
  - discriminate.
  - reflexivity.
  - vm_compute. reflexivity.
Defined.

(** A Drive download against the scripted world: three requests. *)
Example drive_download_sample :
  map (fun ev => (method (fst ev), url (fst ev)))
      (trace (run (snd (downloadFileContent scripted (fun _ => 0) (lit "1AbC") 10
                          {| run := start drive_world; client := fresh_client |}))))
  = [ (lit "POST", token_endpoint);
      (lit "GET", files_endpoint (lit "1AbC")
                  ++ lit "fields=" ++ metadata_fields
                  ++ lit "&supportsAllDrives=true");
      (lit "GET", files_endpoint (lit "1AbC")
                  ++ lit "alt=media&supportsAllDrives=true") ].
Proof. vm_compute. reflexivity. Qed.
